(** * jwilder/encoding: Simple8b, delta/FOR and the adaptive timestamp codec

    A shallow embedding of the Go packages [simple8b], [delta] and
    [timestamp], followed by the properties of the specification that were
    checked against them.

    Conventions.
    - A [uint64] is a [Z] in [0, 2^64); an [int64] is a [Z] in
      [-2^63, 2^63).  Operations that can leave the range are followed by
      the wrap-around of the machine type ([u64], [i64]).
    - A [byte] is a [Z] in [0, 256).
    - A Go slice is a [list]; lengths and indices are [nat].
    - A Go function returning [(x, error)] returns an [outcome]: [Ret x]
      for [(x, nil)], [Fail e] for [(nil, e)], [Crash p] when the Go runtime
      panics, and [Timeout] only when a loop of the model is cut by its
      fuel (every use below supplies enough fuel, which is proved). *)

From stdpp Require Import base numbers list.
From coqutil Require Import Z.bitblast.

Local Open Scope Z_scope.

(** ** Results of Go calls *)

Inductive error : Type :=
  | ErrValueOutOfBounds   (* "value out of bounds" *)
  | ErrInvalidSelector.   (* "invalid selector value" *)

Inductive panic : Type :=
  | PanicIndex        (* index out of range *)
  | PanicSliceBounds  (* slice bounds out of range *)
  | PanicMakeLen      (* makeslice: len out of range *)
  | PanicDivide       (* integer divide by zero *)
  | PanicMemory.      (* write through an unsafe pointer outside the memory
                         of the destination *)

Inductive outcome (A : Type) : Type :=
  | Ret (a : A)
  | Fail (e : error)
  | Crash (p : panic)
  | Timeout.

Arguments Ret {A} a.
Arguments Fail {A} e.
Arguments Crash {A} p.
Arguments Timeout {A}.

Definition returns {A} (o : outcome A) : bool :=
  match o with Ret _ => true | _ => false end.

(** ** Machine integers *)

Definition u64 (x : Z) : Z := x mod 2 ^ 64.

Definition i64 (x : Z) : Z := (x + 2 ^ 63) mod 2 ^ 64 - 2 ^ 63.

(** [x << k] on a [uint64]. *)
Definition shl64 (x k : Z) : Z := u64 (Z.shiftl x k).

Definition is_u64 (x : Z) : Prop := 0 <= x < 2 ^ 64.
Definition is_i64 (x : Z) : Prop := - 2 ^ 63 <= x < 2 ^ 63.
Definition is_byte (x : Z) : Prop := 0 <= x < 256.

(** ** encoding/binary (Go standard library)

    The repository calls [binary.BigEndian.PutUint64], [binary.BigEndian.Uint64],
    [binary.PutUvarint] and [binary.Uvarint].  They are not part of the
    repository; they are written here after the library's definition. *)

Module Binary.

Definition byte_of (x : Z) : Z := x mod 256.

(** [b[0] = byte(v >> 56); ...; b[7] = byte(v)] *)
Definition PutUint64 (v : Z) : list Z :=
  [ byte_of (Z.shiftr v 56); byte_of (Z.shiftr v 48);
    byte_of (Z.shiftr v 40); byte_of (Z.shiftr v 32);
    byte_of (Z.shiftr v 24); byte_of (Z.shiftr v 16);
    byte_of (Z.shiftr v 8);  byte_of v ].

(** [uint64(b[7]) | uint64(b[6])<<8 | ... | uint64(b[0])<<56] *)
Definition Uint64 (b : list Z) : Z :=
  Z.lor (Z.lor (Z.lor (Z.lor (Z.lor (Z.lor (Z.lor
    (nth 7 b 0)
    (shl64 (nth 6 b 0) 8))
    (shl64 (nth 5 b 0) 16))
    (shl64 (nth 4 b 0) 24))
    (shl64 (nth 3 b 0) 32))
    (shl64 (nth 2 b 0) 40))
    (shl64 (nth 1 b 0) 48))
    (shl64 (nth 0 b 0) 56).

(** [for x >= 0x80 { buf[i] = byte(x) | 0x80; x >>= 7; i++ }; buf[i] = byte(x)].
    The bytes written, in order.  A [uint64] needs at most ten of them, so
    the fuel of [PutUvarint] is never used up. *)
Fixpoint put_uvarint (fuel : nat) (x : Z) : list Z :=
  match fuel with
  | O => [byte_of x]
  | S fuel' =>
      if 128 <=? x
      then Z.lor (byte_of x) 128 :: put_uvarint fuel' (Z.shiftr x 7)
      else [byte_of x]
  end.

Definition PutUvarint (x : Z) : list Z := put_uvarint 9 x.

Definition MaxVarintLen64 : nat := 10.

(** [Uvarint] returns the value and the number of bytes read; the count is
    [0] when the buffer ends inside the number and negative on overflow. *)
Fixpoint uvarint_loop (buf : list Z) (i : nat) (x s : Z) : Z * Z :=
  match buf with
  | [] => (0, 0)
  | b :: rest =>
      if (i =? MaxVarintLen64)%nat then (0, - (Z.of_nat i + 1))
      else if b <? 128 then
        if ((i =? MaxVarintLen64 - 1)%nat && (1 <? b))%bool
        then (0, - (Z.of_nat i + 1))
        else (Z.lor x (shl64 b s), Z.of_nat i + 1)
      else uvarint_loop rest (S i) (Z.lor x (shl64 (Z.land b 127) s)) (s + 7)
  end.

Definition Uvarint (buf : list Z) : Z * Z := uvarint_loop buf 0 0 0.

End Binary.

(** ** Package simple8b *)

Module Simple8b.

Definition MaxValue : Z := Z.shiftl 1 60 - 1.

(** *** canPack *)

Definition canPack (src : list Z) (n : nat) (bits : Z) : bool :=
  if (length src <? n)%nat then false
  else
    let end_ := if (n <? length src)%nat then n else length src in
    if bits =? 0 then forallb (fun v => v =? 1) src
    else
      let max := Z.shiftl 1 bits - 1 in
      forallb (fun v => v <=? max) (take end_ src).

(** *** The sixteen packers

    [pack60] ... [pack1] are straight-line code of one shape,
    [sel<<60 | src[0] | src[1]<<bits | ... | src[n-1]<<((n-1)*bits)],
    read left to right; [pack_fields] is that expression for a selector,
    a width and a count.  The packers are only called on [src[:n]] after
    [canPack] has checked that [n] values are there, so the default of
    [nth] is never read. *)

Definition pack_fields (sel bits : Z) (n : nat) (src : list Z) : Z :=
  foldl (fun acc i => Z.lor acc (shl64 (nth i src 0) (Z.of_nat i * bits)))
        (Z.lor (Z.shiftl sel 60) (nth 0 src 0))
        (seq 1 (n - 1)).

Definition pack240 (src : list Z) : Z := 0.
Definition pack120 (src : list Z) : Z := 0.
Definition pack60 (src : list Z) : Z := pack_fields 2 1 60 src.
Definition pack30 (src : list Z) : Z := pack_fields 3 2 30 src.
Definition pack20 (src : list Z) : Z := pack_fields 4 3 20 src.
Definition pack15 (src : list Z) : Z := pack_fields 5 4 15 src.
Definition pack12 (src : list Z) : Z := pack_fields 6 5 12 src.
Definition pack10 (src : list Z) : Z := pack_fields 7 6 10 src.
Definition pack8 (src : list Z) : Z := pack_fields 8 7 8 src.
Definition pack7 (src : list Z) : Z := pack_fields 9 8 7 src.
Definition pack6 (src : list Z) : Z := pack_fields 10 10 6 src.
Definition pack5 (src : list Z) : Z := pack_fields 11 12 5 src.
Definition pack4 (src : list Z) : Z := pack_fields 12 15 4 src.
Definition pack3 (src : list Z) : Z := pack_fields 13 20 3 src.
Definition pack2 (src : list Z) : Z := pack_fields 14 30 2 src.
Definition pack1 (src : list Z) : Z := pack_fields 15 60 1 src.

(** *** Encode: one word *)

(** The Go triple [(value, n, err)]. *)
Definition Encode (src : list Z) : Z * nat * option error :=
  if canPack src 240 0 then (0, 240%nat, None)
  else if canPack src 120 0 then (Z.shiftl 1 60, 120%nat, None)
  else if canPack src 60 1 then (pack60 (take 60 src), 60%nat, None)
  else if canPack src 30 2 then (pack30 (take 30 src), 30%nat, None)
  else if canPack src 20 3 then (pack20 (take 20 src), 20%nat, None)
  else if canPack src 15 4 then (pack15 (take 15 src), 15%nat, None)
  else if canPack src 12 5 then (pack12 (take 12 src), 12%nat, None)
  else if canPack src 10 6 then (pack10 (take 10 src), 10%nat, None)
  else if canPack src 8 7 then (pack8 (take 8 src), 8%nat, None)
  else if canPack src 7 8 then (pack7 (take 7 src), 7%nat, None)
  else if canPack src 6 10 then (pack6 (take 6 src), 6%nat, None)
  else if canPack src 5 12 then (pack5 (take 5 src), 5%nat, None)
  else if canPack src 4 15 then (pack4 (take 4 src), 4%nat, None)
  else if canPack src 3 20 then (pack3 (take 3 src), 3%nat, None)
  else if canPack src 2 30 then (pack2 (take 2 src), 2%nat, None)
  else if canPack src 1 60 then (pack1 (take 1 src), 1%nat, None)
  else if (0 <? length src)%nat then (0, 0%nat, Some ErrValueOutOfBounds)
  else (0, 0%nat, None).

(** *** EncodeAll: in place

    [dst := src] aliases the input, so the one list [src] is both read at
    [i] and written at [j].  Every turn of the loop moves [i] forward, so
    [length src] turns are enough. *)

Fixpoint EncodeAll_loop (fuel : nat) (src : list Z) (i j : nat)
  : outcome (list Z) :=
  if (length src <=? i)%nat then Ret (take j src)
  else
    match fuel with
    | O => Timeout
    | S fuel' =>
        let remaining := drop i src in
        let slice n := take n (drop i src) in
        let next w n := EncodeAll_loop fuel' (<[j:=w]> src) (i + n) (j + 1) in
        if canPack remaining 240 0 then next 0 240%nat
        else if canPack remaining 120 0 then next (Z.shiftl 1 60) 120%nat
        else if canPack remaining 60 1 then next (pack60 (slice 60%nat)) 60%nat
        else if canPack remaining 30 2 then next (pack30 (slice 30%nat)) 30%nat
        else if canPack remaining 20 3 then next (pack20 (slice 20%nat)) 20%nat
        else if canPack remaining 15 4 then next (pack15 (slice 15%nat)) 15%nat
        else if canPack remaining 12 5 then next (pack12 (slice 12%nat)) 12%nat
        else if canPack remaining 10 6 then next (pack10 (slice 10%nat)) 10%nat
        else if canPack remaining 8 7 then next (pack8 (slice 8%nat)) 8%nat
        else if canPack remaining 7 8 then next (pack7 (slice 7%nat)) 7%nat
        else if canPack remaining 6 10 then next (pack6 (slice 6%nat)) 6%nat
        else if canPack remaining 5 12 then next (pack5 (slice 5%nat)) 5%nat
        else if canPack remaining 4 15 then next (pack4 (slice 4%nat)) 4%nat
        else if canPack remaining 3 20 then next (pack3 (slice 3%nat)) 3%nat
        else if canPack remaining 2 30 then next (pack2 (slice 2%nat)) 2%nat
        else if canPack remaining 1 60 then next (pack1 (slice 1%nat)) 1%nat
        else Fail ErrValueOutOfBounds
    end.

Definition EncodeAll (src : list Z) : outcome (list Z) :=
  EncodeAll_loop (length src) src 0 0.

(** *** The sixteen unpackers

    An unpacker receives a [*[240]uint64].  [DecodeAll] makes that pointer
    from [&dst[j]] with [unsafe.Pointer], so the 240 slots are the memory
    that starts at slot [j] of the destination; the pointer is modelled by
    the memory [mem] and the offset [off], and slot [i] of the array is
    [mem[off+i]].  A write outside [mem] is [None].

    [unpack60] ... [unpack1] are straight-line code of one shape,
    [dst[i] = (v >> (i*bits)) & (1<<bits - 1)] for [i < n]; they write
    [n] consecutive slots.  [unpack240] and [unpack120] are both
    [for i := range dst { dst[i] = 1 }]: they write all 240 slots. *)

Definition store_block (mem : list Z) (off : nat) (vals : list Z)
  : option (list Z) :=
  if (off + length vals <=? length mem)%nat
  then Some (take off mem ++ vals ++ drop (off + length vals) mem)
  else None.

Definition unpack_fields (bits : Z) (n : nat) (v : Z) : list Z :=
  map (fun i => Z.land (Z.shiftr v (Z.of_nat i * bits)) (Z.shiftl 1 bits - 1))
      (seq 0 n).

Definition unpacker : Type := Z -> list Z -> nat -> option (list Z).

Definition unpack240 : unpacker :=
  fun v mem off => store_block mem off (replicate 240 1).
Definition unpack120 : unpacker :=
  fun v mem off => store_block mem off (replicate 240 1).
Definition unpack_n (bits : Z) (n : nat) : unpacker :=
  fun v mem off => store_block mem off (unpack_fields bits n v).
Definition unpack60 : unpacker := unpack_n 1 60.
Definition unpack30 : unpacker := unpack_n 2 30.
Definition unpack20 : unpacker := unpack_n 3 20.
Definition unpack15 : unpacker := unpack_n 4 15.
Definition unpack12 : unpacker := unpack_n 5 12.
Definition unpack10 : unpacker := unpack_n 6 10.
Definition unpack8 : unpacker := unpack_n 7 8.
Definition unpack7 : unpacker := unpack_n 8 7.
Definition unpack6 : unpacker := unpack_n 10 6.
Definition unpack5 : unpacker := unpack_n 12 5.
Definition unpack4 : unpacker := unpack_n 15 4.
Definition unpack3 : unpacker := unpack_n 20 3.
Definition unpack2 : unpacker := unpack_n 30 2.
Definition unpack1 : unpacker := unpack_n 60 1.

(** *** The selector table *)

Record packing : Type := mkPacking {
  n : nat;
  bit : Z;
  unpack : unpacker;
  pack : list Z -> Z
}.

Definition selector : list packing :=
  [ mkPacking 240 0 unpack240 pack240;
    mkPacking 120 0 unpack120 pack120;
    mkPacking 60 1 unpack60 pack60;
    mkPacking 30 2 unpack30 pack30;
    mkPacking 20 3 unpack20 pack20;
    mkPacking 15 4 unpack15 pack15;
    mkPacking 12 5 unpack12 pack12;
    mkPacking 10 6 unpack10 pack10;
    mkPacking 8 7 unpack8 pack8;
    mkPacking 7 8 unpack7 pack7;
    mkPacking 6 10 unpack6 pack6;
    mkPacking 5 12 unpack5 pack5;
    mkPacking 4 15 unpack4 pack4;
    mkPacking 3 20 unpack3 pack3;
    mkPacking 2 30 unpack2 pack2;
    mkPacking 1 60 unpack1 pack1 ].

(** [selector[sel]] for [sel < 16]; the guard [sel >= 16] of the callers
    makes the default unreachable. *)
Definition selector_at (sel : Z) : packing :=
  nth (Z.to_nat sel) selector (mkPacking 0 0 (fun _ mem _ => Some mem) (fun _ => 0)).

(** *** Decode: one word into a [*[240]uint64] *)

Definition Decode (dst : list Z) (v : Z) : outcome (list Z * nat) :=
  let sel := Z.shiftr v 60 in
  if 16 <=? sel then Fail ErrInvalidSelector
  else
    match unpack (selector_at sel) v dst 0%nat with
    | Some dst' => Ret (dst', n (selector_at sel))
    | None => Crash PanicMemory
    end.

(** *** DecodeAll

    [dst] is the destination slice: [mem] is its memory from its first
    element to the end of what the caller has allocated for it, and
    [len] its length ([len <= length mem]; [len = length mem] is a slice
    with no spare capacity).  [&dst[j]] is bounds-checked against [len];
    the unpacker then writes through the unsafe pointer, unchecked. *)

Fixpoint DecodeAll_loop (mem : list Z) (len : nat) (src : list Z) (j : nat)
  : outcome (nat * list Z) :=
  match src with
  | [] => Ret (j, mem)
  | v :: src' =>
      let sel := Z.shiftr v 60 in
      if 16 <=? sel then Fail ErrInvalidSelector
      else if (len <=? j)%nat then Crash PanicIndex
      else
        match unpack (selector_at sel) v mem j with
        | Some mem' => DecodeAll_loop mem' len src' (j + n (selector_at sel))
        | None => Crash PanicMemory
        end
  end.

Definition DecodeAll (mem : list Z) (len : nat) (src : list Z)
  : outcome (nat * list Z) :=
  DecodeAll_loop mem len src 0.

(** *** The streaming Encoder

    [Write] and [flush] change the encoder in place and return an error;
    here they return the new encoder, [Fail] standing for a returned
    error.  [flush] returns its error before it changes any field, so
    after a [Fail] the encoder of the caller is the one it passed. *)

Record Encoder : Type := mkEncoder {
  buf : list Z;     (* values written and not yet flushed *)
  h : nat;          (* head of buf *)
  t : nat;          (* tail of buf *)
  bp : nat;         (* bytes written *)
  bytes : list Z;
  b : list Z
}.

Definition NewEncoder : Encoder :=
  mkEncoder (replicate 240 0) 0 0 0 (replicate 128 0) (replicate 8 0).

Definition flush (e : Encoder) : outcome Encoder :=
  if (t e =? 0)%nat then Ret e
  else if negb ((h e <=? t e)%nat && (t e <=? length (buf e))%nat)
  then Crash PanicSliceBounds
  else
    let '(encoded, n, err) := Encode (take (t e - h e) (drop (h e) (buf e))) in
    match err with
    | Some er => Fail er
    | None =>
        let b' := Binary.PutUint64 encoded in
        let bytes' :=
          if (length (bytes e) <? bp e + 8)%nat
          then bytes e ++ b'
          else take (bp e) (bytes e) ++ b' ++ drop (bp e + 8) (bytes e) in
        let bp' :=
          if (length (bytes e) <? bp e + 8)%nat
          then length (bytes e ++ b')
          else (bp e + 8)%nat in
        let h' := (h e + n)%nat in
        if (h' =? t e)%nat
        then Ret (mkEncoder (buf e) 0 0 bp' bytes' b')
        else Ret (mkEncoder (buf e) h' (t e) bp' bytes' b')
    end.

(** [copy(e.buf, e.buf[e.h:])] followed by [e.t -= e.h; e.h = 0]. *)
Definition shift_down (e : Encoder) : Encoder :=
  mkEncoder (drop (h e) (buf e) ++ drop (length (buf e) - h e) (buf e))
            0 (t e - h e) (bp e) (bytes e) (b e).

Definition Write (e : Encoder) (v : Z) : outcome Encoder :=
  let flushed := if (length (buf e) <=? t e)%nat then flush e else Ret e in
  match flushed with
  | Ret e1 =>
      let e2 := if (length (buf e1) <=? t e1)%nat then shift_down e1 else e1 in
      if (length (buf e2) <=? t e2)%nat then Crash PanicIndex
      else Ret (mkEncoder (<[t e2 := v]> (buf e2)) (h e2) (t e2 + 1)
                          (bp e2) (bytes e2) (b e2))
  | other => other
  end.

(** [for e.t > 0 { if err := e.flush(); err != nil { return nil, err } }]
    then [e.bytes[:e.bp]].  A flush that returns moves the head forward or
    empties the buffer, so [length buf + 1] turns are enough. *)
Fixpoint Bytes_loop (fuel : nat) (e : Encoder) : outcome (Encoder * list Z) :=
  if (t e =? 0)%nat then Ret (e, take (bp e) (bytes e))
  else
    match fuel with
    | O => Timeout
    | S fuel' =>
        match flush e with
        | Ret e' => Bytes_loop fuel' e'
        | Fail er => Fail er
        | Crash p => Crash p
        | Timeout => Timeout
        end
    end.

Definition Bytes (e : Encoder) : outcome (Encoder * list Z) :=
  Bytes_loop (S (length (buf e))) e.

(** A caller writing the values of [vs] in order.  The callers in the
    repository (the tests, [timestamp.encodePacked]) drop the error of
    [Write] and go on with the same encoder; [write_all] does the same and
    also reports whether every [Write] returned [nil]. *)
Fixpoint write_all (e : Encoder) (vs : list Z) : outcome Encoder * bool :=
  match vs with
  | [] => (Ret e, true)
  | v :: vs' =>
      match Write e v with
      | Ret e' => write_all e' vs'
      | Fail _ => (fst (write_all e vs'), false)
      | other => (other, false)
      end
  end.

(** *** The streaming Decoder *)

Record Decoder : Type := mkDecoder {
  d_bytes : list Z;
  d_buf : list Z;    (* [240]uint64 *)
  d_i : nat;
  d_n : nat
}.

Definition NewDecoder (bs : list Z) : Decoder :=
  mkDecoder bs (replicate 240 0) 0 0.

Definition read (d : Decoder) : outcome Decoder :=
  if (length (d_bytes d) <? 8)%nat then Ret d
  else
    let v := Binary.Uint64 (take 8 (d_bytes d)) in
    match Decode (d_buf d) v with
    | Ret (buf', n') => Ret (mkDecoder (drop 8 (d_bytes d)) buf' 0 n')
    | Fail _ => Ret (mkDecoder (drop 8 (d_bytes d)) (d_buf d) 0 0)
    | Crash p => Crash p
    | Timeout => Timeout
    end.

Definition Next (d : Decoder) : outcome (Decoder * bool) :=
  let d1 := mkDecoder (d_bytes d) (d_buf d) (d_i d + 1) (d_n d) in
  let d2 := if (d_n d1 <=? d_i d1)%nat then read d1 else Ret d1 in
  match d2 with
  | Ret d' =>
      Ret (d', (8 <=? length (d_bytes d'))%nat || (d_i d' <? d_n d')%nat)
  | Fail er => Fail er
  | Crash p => Crash p
  | Timeout => Timeout
  end.

(** [d.buf[d.i]]: an index of 240 or more panics. *)
Definition Read (d : Decoder) : outcome Z :=
  if (d_i d <? 240)%nat then Ret (nth (d_i d) (d_buf d) 0)
  else Crash PanicIndex.

(** *** Reuse of an Encoder and of a Decoder

    A slice expression [s[:k]] panics when [k] is above the capacity of
    [s]; a list has no spare capacity, so here when [k] is above its
    length. *)

(** [SetValues] sets [e.bytes = e.bytes[:0]] and leaves [e.bp] as it is:
    the slice is empty, but its array still holds the bytes that were in
    it, and [Bytes] reaches them again with [e.bytes[:e.bp]].  A list has
    no array behind it, so [SetValues] returns the encoder, its [bytes]
    empty, together with that array: the old [bytes]. *)
Definition SetValues (e : Encoder) (v : list Z) : Encoder * list Z :=
  (mkEncoder v 0 (length v) (bp e) (take 0 (bytes e)) (b e), bytes e).

(** [Bytes] on what [SetValues] returns.  With nothing to flush
    ([e.t == 0]) the loop does not run and [e.bytes[:e.bp]] is the first
    [bp] bytes of the array.  Otherwise the first [flush] finds
    [e.bp+8 > len(e.bytes) = 0] and appends: whether [append] writes into
    the array or into a new one, [e.bytes] then holds the eight bytes of
    the word and [e.bp = len(e.bytes)], the same as on a list; from there
    on the array is not looked at again and [Bytes] goes on as above. *)
Definition Bytes_after_SetValues (s : Encoder * list Z)
  : outcome (Encoder * list Z) :=
  let '(e, arr) := s in
  if (t e =? 0)%nat then
    if (bp e <=? length arr)%nat then Ret (e, take (bp e) arr)
    else Crash PanicSliceBounds
  else Bytes e.

Definition Encoder_Reset (e : Encoder) : outcome Encoder :=
  if ((length (buf e) <? 240) || (length (b e) <? 8)
      || (length (bytes e) <? 128))%nat
  then Crash PanicSliceBounds
  else Ret (mkEncoder (take 240 (buf e)) 0 0 0 (take 128 (bytes e))
                      (take 8 (b e))).

Definition Decoder_Reset (d : Decoder) (bs : list Z) : Decoder :=
  mkDecoder bs (d_buf d) 0 0.

Definition SetBytes (d : Decoder) (bs : list Z) : Decoder :=
  mkDecoder bs (d_buf d) 0 0.

(** *** Count, CountBytes *)

Definition Count (v : Z) : outcome nat :=
  let sel := Z.shiftr v 60 in
  if 16 <=? sel then Fail ErrInvalidSelector
  else Ret (n (selector_at sel)).

(** What [CountBytes] returns: [(count, nil)], the error of [Count], or
    the error ["invalid slice len remaining: %v"] with the number of bytes
    left over, or a panic.  Every turn of the loop takes eight bytes, so
    [length b] turns are enough; [CountTimeout] is the loop cut by its
    fuel. *)
Inductive counted : Type :=
  | Counted (count : nat)
  | CountFail (e : error)
  | InvalidSliceLen (remaining : nat)
  | CountCrash (p : panic)
  | CountTimeout.

Fixpoint CountBytes_loop (fuel : nat) (bs : list Z) (count : nat) : counted :=
  if (8 <=? length bs)%nat then
    match fuel with
    | O => CountTimeout
    | S fuel' =>
        let v := Binary.Uint64 (take 8 bs) in
        match Count v with
        | Ret k => CountBytes_loop fuel' (drop 8 bs) (count + k)
        | Fail e => CountFail e
        | Crash p => CountCrash p
        | Timeout => CountTimeout
        end
    end
  else if (0 <? length bs)%nat then InvalidSliceLen (length bs)
  else Counted count.

Definition CountBytes (bs : list Z) : counted :=
  CountBytes_loop (length bs) bs 0.

End Simple8b.

(** ** Sequencing of outcomes *)

Global Instance outcome_bind : MBind outcome := fun A B k o =>
  match o with
  | Ret a => k a
  | Fail e => Fail e
  | Crash p => Crash p
  | Timeout => Timeout
  end.

Global Instance outcome_ret : MRet outcome := fun A a => Ret a.

(** A counted [for] loop whose body can panic. *)
Fixpoint ofoldl {S I} (body : S -> I -> outcome S) (s : S) (l : list I)
  : outcome S :=
  match l with
  | [] => Ret s
  | i :: l' => s' ← body s i; ofoldl body s' l'
  end.

(** ** Two loops written twice

    [delta.reference10] and [timestamp.reduce] contain the same divisor
    loop, and [delta.FORDelta10] and [timestamp.reduce] the same scaling
    loop; each is modelled once. *)

(** [for { if v%divisor == 0 { break }; divisor /= 10 }].  [%] and [/] of
    Go truncate ([Z.rem], [Z.quot]); [v % 0] panics.  Starting from
    [10^12] the loop stops at [1] at the latest, after twelve divisions. *)
Fixpoint shrink (fuel : nat) (v divisor : Z) : outcome Z :=
  if divisor =? 0 then Crash PanicDivide
  else if Z.rem v divisor =? 0 then Ret divisor
  else
    match fuel with
    | O => Timeout
    | S fuel' => shrink fuel' v (Z.quot divisor 10)
    end.

(** [dst[i] = (dst[i] - min) / mod; rle = i == 1 || rle && (dst[i-1] == dst[i])]
    for [i] from [1] to the end. *)
Definition scale_step (min mod_ : Z) (s : list Z * bool) (i : nat)
  : list Z * bool :=
  let '(dst, rle) := s in
  let dst := <[i := Z.quot (i64 (nth i dst 0 - min)) mod_]> dst in
  (dst, (i =? 1)%nat || rle && (nth (i - 1) dst 0 =? nth i dst 0)).

Definition scale (min mod_ : Z) (dst : list Z) : list Z * bool :=
  foldl (scale_step min mod_) (dst, true) (seq 1 (length dst - 1)).

(** ** Package delta *)

Module Delta.

(** The body of [for i, v := range src] for [i > 0]. *)
Definition reference10_step (s : Z * Z * Z) (v : Z) : outcome (Z * Z * Z) :=
  let '(min, max, divisor) := s in
  let min := if v <? min then v else min in
  let max := if max <? v then v else max in
  divisor ← shrink 12 v divisor;
  Ret (min, max, divisor).

(** [reference10] returns [(min, max, divisor)]; [src[0]] panics on an
    empty slice. *)
Definition reference10 (src : list Z) : outcome (Z * Z * Z) :=
  match src with
  | [] => Crash PanicIndex
  | first :: rest => ofoldl reference10_step (first, 0, 10 ^ 12) rest
  end.

(** [Delta(dst, src)] for two slices that do not share memory, as
    [FORDelta10] calls it; the new contents of [dst]. *)
Definition Delta (dst src : list Z) : list Z :=
  if ((length src =? 0)%nat || (length dst =? 0)%nat)%bool then dst
  else
    foldl (fun d i => <[i := i64 (nth i src 0 - nth (i - 1) src 0)]> d)
          (<[0%nat := nth 0 src 0]> dst)
          (rev (seq 1 (length src - 1))).

(** [InverseDelta(dst, src)], same convention. *)
Definition InverseDelta (dst src : list Z) : list Z :=
  if ((length src =? 0)%nat || (length dst =? 0)%nat)%bool then dst
  else
    foldl (fun d i => <[i := i64 (nth (i - 1) d 0 + nth i src 0)]> d)
          (<[0%nat := nth 0 src 0]> dst)
          (seq 1 (length src - 1)).

(** [(min, max, mod, rle, dst)]. *)
Definition FORDelta10 (src : list Z) : outcome (Z * Z * Z * bool * list Z) :=
  if (length src =? 0)%nat then Ret (0, 0, 0, false, src)
  else
    let dst := Delta (replicate (length src) 0) src in
    '(min, max, mod_) ← reference10 dst;
    let '(dst, rle) := scale min mod_ dst in
    Ret (min, max, mod_, rle && (1 <? length dst)%nat, dst).

(** [InverseFORDelta10] rewrites [src] in place and returns a new slice. *)
Definition InverseFORDelta10 (min mod_ : Z) (src : list Z) : list Z :=
  if (length src =? 0)%nat then src
  else
    let src :=
      foldl (fun s i => <[i := i64 (i64 (nth i s 0 * mod_) + min)]> s)
            src (seq 1 (length src - 1)) in
    InverseDelta (replicate (length src) 0) src.

End Delta.

(** ** Package bitops *)

Module Bitops.

Definition u32 (x : Z) : Z := x mod 2 ^ 32.

(** [msb32(x uint32) int]. *)
Definition msb32 (x : Z) : Z :=
  let pos := 32 in
  let temp := Z.shiftr x 16 in
  let '(pos, x) := if negb (temp =? 0) then (pos - 16, temp) else (pos, x) in
  let temp := Z.shiftr x 8 in
  let '(pos, x) := if negb (temp =? 0) then (pos - 8, temp) else (pos, x) in
  let temp := Z.shiftr x 4 in
  let '(pos, x) := if negb (temp =? 0) then (pos - 4, temp) else (pos, x) in
  let temp := Z.shiftr x 2 in
  let '(pos, x) := if negb (temp =? 0) then (pos - 2, temp) else (pos, x) in
  let temp := Z.shiftr x 1 in
  if negb (temp =? 0) then pos - 2
  else u32 (u32 pos - x).

(** [msb64(n uint64) int]; [r] and [v] are [uint]s, and every value they
    take is below [2^32]. *)
Definition msb64 (n : Z) : Z :=
  if n <=? 0 then -1
  else
    let '(r, v) := if 2 ^ 32 <=? n then (32, Z.shiftr n 32) else (0, n) in
    let '(r, v) := if 2 ^ 16 <=? v then (r + 16, Z.shiftr v 16) else (r, v) in
    let '(r, v) := if 2 ^ 8 <=? v then (r + 8, Z.shiftr v 8) else (r, v) in
    let '(r, v) := if 2 ^ 4 <=? v then (r + 4, Z.shiftr v 4) else (r, v) in
    let '(r, v) := if 2 ^ 2 <=? v then (r + 2, Z.shiftr v 2) else (r, v) in
    r + Z.shiftr v 1.

(** [CanPack(src []uint64, n, bits int) bool].  In
    [uint64((2 << uint64(bits-1)) - 1)] the constant [2] is a [uint64], a
    shift by 64 or more gives [0], and the subtraction wraps. *)
Definition CanPack (src : list Z) (n bits : Z) : bool :=
  if Z.of_nat (length src) <? n then false
  else
    let end_ := if n <? Z.of_nat (length src) then n else Z.of_nat (length src) in
    let s := u64 (bits - 1) in
    let max := u64 ((if s <? 64 then shl64 2 s else 0) - 1) in
    forallb (fun v => v <=? max) (take (Z.to_nat end_) src).

End Bitops.

(** ** Package timestamp *)

Module Timestamp.

Definition EncodingPacked : Z := 0.
Definition EncodingRLE : Z := 1.
Definition EncodingRaw : Z := 2.

(** Modelled from the spec: [byte(math.Log10(float64(mod)))], "the
    base-10 exponent [e] such that the divisor [mod = 10^e]".  [math.Log10]
    is floating point of the Go library.  The encoder only applies it to
    the divisor, one of [10^0 .. 10^12], each an exact [float64]; the
    model is the number of decimal digits after the first. *)
Fixpoint log10_loop (fuel : nat) (m : Z) : Z :=
  match fuel with
  | O => 0
  | S fuel' => if m <? 10 then 0 else 1 + log10_loop fuel' (m / 10)
  end.

Definition Log10 (m : Z) : Z := log10_loop 19 m.

(** Modelled from the spec: [int64(math.Pow10(e))] for the nibble
    [0 <= e <= 15], "[mod = 10^e]"; these powers are exact [float64]s. *)
Definition Pow10 (e : Z) : Z := 10 ^ e.

(** *** The encoder: [e.ts] is the list of buffered nanoseconds *)

Definition Write (ts : list Z) (t : Z) : list Z := ts ++ [t].

Definition reduce_step (s : list Z * Z * Z * Z) (i : nat)
  : outcome (list Z * Z * Z * Z) :=
  let '(deltas, min, max, divisor) := s in
  let deltas := <[i := i64 (nth i deltas 0 - nth (i - 1) deltas 0)]> deltas in
  let v := nth i deltas 0 in
  let min := if v <? min then v else min in
  let max := if max <? v then v else max in
  divisor ← shrink 12 v divisor;
  Ret (deltas, min, max, divisor).

(** [(min, max, divisor, rle, deltas)]; the first loop runs from the last
    index down to [1] on the copy [deltas] of [e.ts]. *)
Definition reduce (ts : list Z) : outcome (Z * Z * Z * bool * list Z) :=
  match ts with
  | [] => Crash PanicIndex
  | first :: _ =>
      '(deltas, min, max, divisor) ←
        ofoldl reduce_step (ts, first, 0, 10 ^ 12)
               (rev (seq 1 (length ts - 1)));
      let '(deltas, rle) := scale min divisor deltas in
      Ret (min, max, divisor, rle && (1 <? length deltas)%nat, deltas)
  end.

Definition header (encoding mod_ : Z) : Z :=
  Z.lor (Binary.byte_of (Z.shiftl encoding 4)) (Binary.byte_of (Log10 mod_)).

Definition encodePacked (min mod_ : Z) (dts : list Z) : outcome (list Z) :=
  match Simple8b.write_all Simple8b.NewEncoder (map u64 (drop 1 dts)) with
  | (Ret enc, _) =>
      let b := header EncodingPacked mod_
               :: Binary.PutUint64 (u64 min)
               ++ Binary.PutUint64 (u64 (nth 0 dts 0)) in
      '(_, deltas) ← Simple8b.Bytes enc;
      Ret (b ++ deltas)
  | (Fail er, _) => Fail er
  | (Crash p, _) => Crash p
  | (Timeout, _) => Timeout
  end.

Definition encodeRaw (ts : list Z) : outcome (list Z) :=
  Ret (Binary.byte_of (Z.shiftl EncodingRaw 4)
       :: concat (map (fun v => Binary.PutUint64 (u64 v)) ts)).

Definition encodeRLE (first delta mod_ : Z) (n : nat) : outcome (list Z) :=
  Ret (header EncodingRLE mod_
       :: Binary.PutUint64 (u64 first)
       ++ Binary.PutUvarint (u64 (Z.quot delta mod_))
       ++ Binary.PutUvarint (u64 (Z.of_nat n))).

Definition Bytes (ts : list Z) : outcome (list Z) :=
  if (length ts =? 0)%nat then Ret []
  else
    '(min, max, mod_, rle, dts) ← reduce ts;
    if rle && (60 <? length ts)%nat
    then encodeRLE (nth 0 ts 0) (i64 (nth 1 ts 0 - nth 0 ts 0)) mod_ (length ts)
    else if Simple8b.MaxValue <? max then encodeRaw ts
    else encodePacked min mod_ dts.

(** *** The decoder: [decode] computes [d.ts] *)

Section Decoder.

(** The largest number of bytes [make] accepts, a constant of the Go
    runtime; [make([]int64, count)] panics above it, and for a [count]
    that is negative as an [int].  Running out of memory below that
    bound is outside the model. *)
Variable maxAlloc : Z.

Definition decodeRaw (b : list Z) : outcome (list Z) :=
  Ret (map (fun i => i64 (Binary.Uint64 (take 8 (drop (i * 8) b))))
           (seq 0 (length b / 8))).

(** [for enc.Next() { deltas = append(deltas, int64(enc.Read())) }].
    A word of eight bytes yields at most 240 values. *)
Fixpoint drain (fuel : nat) (enc : Simple8b.Decoder) (deltas : list Z)
  : outcome (list Z) :=
  match fuel with
  | O => Timeout
  | S fuel' =>
      '(enc, more) ← Simple8b.Next enc;
      if (more : bool) then
        v ← Simple8b.Read enc;
        drain fuel' enc (deltas ++ [i64 v])
      else Ret deltas
  end.

Definition decodePacked (b : list Z) : outcome (list Z) :=
  match b with
  | [] => Crash PanicIndex
  | b0 :: _ =>
      let mod_ := Pow10 (Z.land b0 15) in
      if (length b <? 17)%nat then Crash PanicSliceBounds
      else
        let min := i64 (Binary.Uint64 (take 8 (drop 1 b))) in
        let first := i64 (Binary.Uint64 (take 8 (drop 9 b))) in
        let enc := Simple8b.NewDecoder (drop 17 b) in
        deltas ← drain (31 * length (drop 17 b) + 1) enc [first];
        Ret (foldl (fun d i =>
                      let d := <[i := i64 (i64 (nth i d 0 * mod_) + min)]> d in
                      <[i := i64 (nth (i - 1) d 0 + nth i d 0)]> d)
                   deltas (seq 1 (length deltas - 1)))
  end.

Definition decodeRLE (b : list Z) : outcome (list Z) :=
  match b with
  | [] => Crash PanicIndex
  | b0 :: _ =>
      let mod_ := Pow10 (Z.land b0 15) in
      if (length b <? 9)%nat then Crash PanicSliceBounds
      else
        let first := Binary.Uint64 (take 8 (drop 1 b)) in
        let '(value, n) := Binary.Uvarint (drop 9 b) in
        let value := u64 (value * u64 mod_) in
        let i := 9 + n in
        if (i <? 0) || (Z.of_nat (length b) <? i) then Crash PanicSliceBounds
        else
          let '(count, n) := Binary.Uvarint (drop (Z.to_nat i) b) in
          if (2 ^ 63 <=? count) || (maxAlloc <? count * 8)
          then Crash PanicMakeLen
          else
            let deltas := replicate (Z.to_nat count) (i64 value) in
            if (length deltas =? 0)%nat then Crash PanicIndex
            else
              let deltas := <[0%nat := i64 first]> deltas in
              Ret (foldl (fun d i => <[i := i64 (nth (i - 1) d 0 + nth i d 0)]> d)
                         deltas (seq 1 (length deltas - 1)))
  end.

Definition decode (b : list Z) : outcome (list Z) :=
  match b with
  | [] => Ret []
  | b0 :: _ =>
      let encoding := Z.shiftr b0 4 in
      if encoding =? EncodingRaw then decodeRaw (drop 1 b)
      else if encoding =? EncodingRLE then decodeRLE b
      else decodePacked b
  end.

Definition NewDecoder (b : list Z) : outcome (list Z) := decode b.

End Decoder.

End Timestamp.

(** * Definitions used by the statements and the proofs *)

(** Bit [p] of a word packed from [k] fields of [src]. *)
Definition field_bit (sel bits : Z) (src : list Z) (k : nat) (p : Z) : bool :=
  Z.testbit (Z.shiftl sel 60) p
  || ((p <? Z.of_nat k * bits)
      && Z.testbit (nth (Z.to_nat (p / bits)) src 0) (p mod bits)).

(** A row of the selector table with payload: selector, count, width. *)
Definition row : Type := Z * nat * Z.

Definition rows : list row :=
  [ (2, 60%nat, 1); (3, 30%nat, 2); (4, 20%nat, 3); (5, 15%nat, 4);
    (6, 12%nat, 5); (7, 10%nat, 6); (8, 8%nat, 7); (9, 7%nat, 8);
    (10, 6%nat, 10); (11, 5%nat, 12); (12, 4%nat, 15); (13, 3%nat, 20);
    (14, 2%nat, 30); (15, 1%nat, 60) ].

Definition accepts (src : list Z) (r : row) : bool :=
  Simple8b.canPack src r.1.2 r.2.

Definition Encode_table (src : list Z) : Z * nat * option error :=
  if Simple8b.canPack src 240 0 then (0, 240%nat, None)
  else if Simple8b.canPack src 120 0 then (Z.shiftl 1 60, 120%nat, None)
  else
    match find (accepts src) rows with
    | Some r => (Simple8b.pack_fields r.1.1 r.2 r.1.2 (take r.1.2 src), r.1.2, None)
    | None =>
        if (0 <? length src)%nat then (0, 0%nat, Some ErrValueOutOfBounds)
        else (0, 0%nat, None)
    end.

Definition row_ok (r : row) : Prop :=
  0 < r.2 /\ (1 <= r.1.2)%nat /\ Z.of_nat r.1.2 * r.2 <= 60
  /\ 2 <= r.1.1 < 16
  /\ Simple8b.n (Simple8b.selector_at r.1.1) = r.1.2
  /\ Simple8b.unpack (Simple8b.selector_at r.1.1) = Simple8b.unpack_n r.2 r.1.2.

Definition valid (xs : list Z) : Prop :=
  Forall (fun v => 0 <= v <= Simple8b.MaxValue) xs.

(** The words of [EncodeAll], computed on the remaining input alone. *)
Fixpoint bulk (fuel : nat) (xs : list Z) : outcome (list Z) :=
  match xs with
  | [] => Ret []
  | _ :: _ =>
      match fuel with
      | O => Timeout
      | S fuel' =>
          match Simple8b.Encode xs with
          | (w, n, None) => ws ← bulk fuel' (drop n xs); Ret (w :: ws)
          | (_, _, Some er) => Fail er
          end
      end
  end.

(** The largest exponent [j <= k] such that [10^j] divides [v]. *)
Fixpoint p10 (k : nat) (v : Z) : nat :=
  match k with
  | O => O
  | S k' => if Z.rem v (10 ^ Z.of_nat k) =? 0 then k else p10 k' v
  end.

(** The largest exponent [j <= k] such that [10^j] divides every element. *)
Definition common_p10 (k : nat) (vs : list Z) : nat := foldl p10 k vs.

(** The differences of successive elements, as [int64], starting after
    [prev]; [deltas_of ts] is [ts[i] - ts[i-1]] for [i = 1 ..]. *)
Fixpoint deltas_from (prev : Z) (l : list Z) : list Z :=
  match l with
  | [] => []
  | x :: r => i64 (x - prev) :: deltas_from x r
  end.

Definition deltas_of (ts : list Z) : list Z :=
  match ts with
  | [] => []
  | x :: r => deltas_from x r
  end.

(** [(d - min) / mod] on [int64]. *)
Definition scaled (min mod_ d : Z) : Z := Z.quot (i64 (d - min)) mod_.

(** Every element equals its successor. *)
Fixpoint adjacent_equal (l : list Z) : bool :=
  match l with
  | [] => true
  | x :: r =>
      match r with
      | [] => true
      | y :: _ => (x =? y) && adjacent_equal r
      end
  end.

(** The flag [rle] after the scaling loop has gone over [l], the value before
    [l] being [prev]. *)
Fixpoint rle_from (prev : Z) (rle : bool) (l : list Z) : bool :=
  match l with
  | [] => rle
  | y :: r => rle_from y (rle && (prev =? y)) r
  end.

(** [divisor] is the largest power of ten, up to [10^12], that divides
    every element of [vs]. *)
Definition is_common_pow10 (divisor : Z) (vs : list Z) : Prop :=
  exists e : nat,
    (e <= 12)%nat /\ divisor = 10 ^ Z.of_nat e
    /\ Forall (fun v => (divisor | v)) vs
    /\ forall e' : nat,
         (e' <= 12)%nat -> Forall (fun v => (10 ^ Z.of_nat e' | v)) vs ->
         10 ^ Z.of_nat e' <= divisor.

(** *** The streaming encoder seen from outside

    What an [Encoder] holds for its caller: the values written and not yet
    packed, and the bytes produced so far. *)

Definition pending (e : Simple8b.Encoder) : list Z :=
  take (Simple8b.t e - Simple8b.h e) (drop (Simple8b.h e) (Simple8b.buf e)).

Definition written (e : Simple8b.Encoder) : list Z :=
  take (Simple8b.bp e) (Simple8b.bytes e).

(** The states an encoder made by [NewEncoder] goes through. *)
Definition wf_enc (e : Simple8b.Encoder) : Prop :=
  length (Simple8b.buf e) = 240%nat
  /\ (Simple8b.h e <= Simple8b.t e <= 240)%nat
  /\ (Simple8b.t e = 0%nat \/ Simple8b.h e < Simple8b.t e)%nat
  /\ exists k, length (Simple8b.bytes e) = (Simple8b.bp e + 8 * k)%nat.

(** Between two calls of [Write] the head is at the start of the buffer. *)
Definition wf_write (e : Simple8b.Encoder) : Prop :=
  wf_enc e /\ Simple8b.h e = 0%nat.

(** [Write], [write_all] and [Bytes] on the pair of the bytes produced and
    the pending values. *)
Definition a_write (s : list Z * list Z) (v : Z) : (list Z * list Z) * bool :=
  let '(out, pend) := s in
  if (length pend <? 240)%nat then ((out, pend ++ [v]), true)
  else
    match Simple8b.Encode pend with
    | (w, n, None) => ((out ++ Binary.PutUint64 w, drop n pend ++ [v]), true)
    | (_, _, Some _) => ((out, pend), false)
    end.

Fixpoint a_write_all (s : list Z * list Z) (vs : list Z)
  : (list Z * list Z) * bool :=
  match vs with
  | [] => (s, true)
  | v :: vs' =>
      let '(s', ok) := a_write s v in
      let '(s'', ok') := a_write_all s' vs' in
      (s'', ok && ok')
  end.

Fixpoint a_drain (fuel : nat) (out pend : list Z) : outcome (list Z) :=
  match pend with
  | [] => Ret out
  | _ :: _ =>
      match fuel with
      | O => Timeout
      | S fuel' =>
          match Simple8b.Encode pend with
          | (w, n, None) =>
              a_drain fuel' (out ++ Binary.PutUint64 w) (drop n pend)
          | (_, _, Some er) => Fail er
          end
      end
  end.

(** The words of the bulk encoder, as a relation. *)
Inductive encodes : list Z -> list Z -> Prop :=
  | encodes_nil : encodes [] []
  | encodes_cons (xs : list Z) (w : Z) (n : nat) (ws : list Z) :
      xs <> [] -> Simple8b.Encode xs = (w, n, None) ->
      encodes (drop n xs) ws -> encodes xs (w :: ws).

(** Wherever 240 successive values of [xs] are all 1, every value after
    them is 1 too. *)
Definition ones_closed (xs : list Z) : Prop :=
  forall k, (k + 240 <= length xs)%nat ->
            Forall (eq 1) (take 240 (drop k xs)) -> Forall (eq 1) (drop k xs).

(** The bytes of a list of words, eight big-endian bytes each. *)
Definition words_bytes (ws : list Z) : list Z :=
  concat (map Binary.PutUint64 ws).

(** Some value of [l] is above [MaxValue]. *)
Definition has_too_big (l : list Z) : Prop :=
  exists x, x ∈ l /\ Simple8b.MaxValue < x.

(** The claim of streaming equivalence for an input [xs]: every [Write] to
    a fresh encoder returns [nil], and [Bytes] returns the bytes of the
    words of [EncodeAll xs]. *)
Definition streaming_equals_bulk (xs : list Z) : Prop :=
  exists e ws e',
    Simple8b.write_all Simple8b.NewEncoder xs = (Ret e, true)
    /\ Simple8b.Bytes e = Ret (e', words_bytes ws)
    /\ Simple8b.EncodeAll xs = Ret ws.

(** The running sums of [l] after [p], as [int64]. *)
Fixpoint sums_from (p : Z) (l : list Z) : list Z :=
  match l with
  | [] => []
  | y :: r => i64 (p + y) :: sums_from (i64 (p + y)) r
  end.

(** The timestamps [t0, t0 + s, .., t0 + (n-1) s]. *)
Definition progression (t0 s : Z) (n : nat) : list Z :=
  map (fun i => t0 + Z.of_nat i * s) (seq 0 n).

(** The RLE frame of a progression: the tag 1 and the exponent of the
    divisor, the first timestamp, the scaled step, the count. *)
Definition rle_frame (t0 s : Z) (n : nat) : list Z :=
  (16 + Z.of_nat (p10 12 s))
  :: Binary.PutUint64 (u64 t0)
  ++ Binary.PutUvarint (u64 (s / 10 ^ Z.of_nat (p10 12 s)))
  ++ Binary.PutUvarint (Z.of_nat n).

(** The words [ws] hold the values [xs] in chunks: each word is what
    [Encode] returns for some slice of unsigned values, and holds the
    values of that slice that [Encode] has consumed. *)
Inductive chunks : list Z -> list Z -> Prop :=
  | chunks_nil : chunks [] []
  | chunks_cons (src rest : list Z) (w : Z) (n : nat) (ws : list Z) :
      src <> [] -> Forall (fun v => 0 <= v) src ->
      Simple8b.Encode src = (w, n, None) ->
      chunks rest ws -> chunks (take n src ++ rest) (w :: ws).

(** The states of an encoder whose buffer has any length: [bytes] is either
    not longer than the bytes written or a whole number of words longer. *)
Definition wf_gen (e : Simple8b.Encoder) : Prop :=
  (Simple8b.h e <= Simple8b.t e <= length (Simple8b.buf e))%nat
  /\ (Simple8b.t e = 0%nat \/ Simple8b.h e < Simple8b.t e)%nat
  /\ ((length (Simple8b.bytes e) <= Simple8b.bp e)%nat
      \/ exists k, length (Simple8b.bytes e) = (Simple8b.bp e + 8 * k)%nat).

(** An encoder made by [NewEncoder] and used since: [Reset] can slice its
    three buffers. *)
Definition usable (e : Simple8b.Encoder) : Prop :=
  wf_enc e /\ (128 <= length (Simple8b.bytes e))%nat
  /\ length (Simple8b.b e) = 8%nat.

(** What a caller sees of [write_all e vs] followed by [Bytes]: whether
    every [Write] returned [nil], and the bytes or the error of [Bytes]. *)
Definition write_then_bytes (e : Simple8b.Encoder) (vs : list Z)
  : bool * outcome (list Z) :=
  ((Simple8b.write_all e vs).2,
   enc ← (Simple8b.write_all e vs).1; r ← Simple8b.Bytes enc; Ret r.2).

(** What the unpacker of the word [v] stores: 240 ones for the selectors 0
    and 1, the fields of [v] otherwise. *)
Definition stored (v : Z) : list Z :=
  let sel := Z.shiftr v 60 in
  if sel <? 2 then replicate 240 1
  else Simple8b.unpack_fields (Simple8b.bit (Simple8b.selector_at sel))
                              (Simple8b.n (Simple8b.selector_at sel)) v.

(** The number of values a word stands for, and a list of words. *)
Definition word_count (v : Z) : nat :=
  Simple8b.n (Simple8b.selector_at (Z.shiftr v 60)).

Definition total_count (ws : list Z) : nat := sum_list_with word_count ws.

(** Two decoders that differ only in the slots of their buffers that will
    not be read. *)
Definition same_reads (d1 d2 : Simple8b.Decoder) : Prop :=
  Simple8b.d_bytes d1 = Simple8b.d_bytes d2
  /\ Simple8b.d_i d1 = Simple8b.d_i d2
  /\ Simple8b.d_n d1 = Simple8b.d_n d2
  /\ length (Simple8b.d_buf d1) = 240%nat
  /\ length (Simple8b.d_buf d2) = 240%nat
  /\ (Simple8b.d_n d1 <= 240)%nat
  /\ take (Simple8b.d_n d1) (Simple8b.d_buf d1)
     = take (Simple8b.d_n d1) (Simple8b.d_buf d2)
  /\ Forall (fun x => 0 <= x < 256) (Simple8b.d_bytes d1).

(** The values a list of words stands for. *)
Definition words_values (ws : list Z) : list Z :=
  concat (map (fun w => take (word_count w) (stored w)) ws).

(** * Properties *)

(** ** Bits of a packed word *)

Lemma mask_ones (b : Z) : 0 <= b -> Z.shiftl 1 b - 1 = Z.ones b.
Proof. intros Hb. rewrite Z.shiftl_1_l, Z.ones_equiv. lia. Qed.

Lemma testbit_small (x b p : Z) :
  0 <= x < 2 ^ b -> 0 <= b -> b <= p -> Z.testbit x p = false.
Proof.
  intros Hx Hb Hp. rewrite <- (Z.mod_small x (2 ^ b)) by lia.
  apply Z.mod_pow2_bits_high. lia.
Qed.

Lemma testbit_shl64 (x s p : Z) :
  0 <= p -> 0 <= s ->
  Z.testbit (shl64 x s) p = (p <? 64) && Z.testbit x (p - s).
Proof.
  intros Hp Hs. unfold shl64, u64.
  rewrite Z.testbit_mod_pow2 by lia.
  rewrite Z.shiftl_spec by lia. reflexivity.
Qed.

Lemma div_mod_window (p k b : Z) :
  0 < b -> k * b <= p < (k + 1) * b -> p / b = k /\ p mod b = p - k * b.
Proof.
  intros Hb Hp.
  assert (p / b = k) as Hq.
  { symmetry. apply (Z.div_unique p b k (p - k * b)); lia. }
  split; [exact Hq|]. rewrite Z.mod_eq by lia. rewrite Hq. lia.
Qed.

Lemma nth_map_seq {A} (f : nat -> A) (n i : nat) (d : A) :
  (i < n)%nat -> nth i (map f (seq 0 n)) d = f i.
Proof.
  intros Hi. rewrite (nth_indep _ d (f 0%nat)) by (rewrite length_map, length_seq; lia).
  rewrite map_nth, seq_nth by lia. reflexivity.
Qed.

Section PackFields.
Variables (sel bits : Z) (src : list Z).
Hypothesis Hbits : 0 < bits.
Hypothesis Hsel : 0 <= sel.

Lemma pack_fold_testbit (k : nat) (p : Z) :
  Z.of_nat (S k) * bits <= 64 ->
  (forall i, (i < S k)%nat -> 0 <= nth i src 0 < 2 ^ bits) ->
  0 <= p ->
  Z.testbit
    (foldl (fun acc i => Z.lor acc (shl64 (nth i src 0) (Z.of_nat i * bits)))
           (Z.lor (Z.shiftl sel 60) (nth 0 src 0)) (seq 1 k)) p
  = field_bit sel bits src (S k) p.
Proof.
  unfold field_bit. revert p. induction k as [|k IH]; intros p Hfit Hsrc Hp.
  - simpl foldl. rewrite Z.lor_spec. f_equal.
    destruct (Z.ltb_spec p (Z.of_nat 1 * bits)) as [Hlt|Hge].
    + rewrite Z.div_small, Z.mod_small by lia. reflexivity.
    + simpl. apply (testbit_small _ bits); [apply (Hsrc 0%nat)| |]; lia.
  - rewrite seq_S, foldl_app. simpl foldl at 1.
    rewrite Z.lor_spec.
    rewrite IH by (try lia; intros; apply Hsrc; lia).
    rewrite testbit_shl64 by lia.
    rewrite <- orb_assoc. f_equal.
    replace (1 + k)%nat with (S k) by lia.
    destruct (Z.ltb_spec p (Z.of_nat (S k) * bits)) as [H1|H1].
    + rewrite (Z.testbit_neg_r _ (p - _)) by lia.
      rewrite andb_false_r, orb_false_r.
      destruct (Z.ltb_spec p (Z.of_nat (S (S k)) * bits)); [reflexivity|lia].
    + simpl. destruct (Z.ltb_spec p (Z.of_nat (S (S k)) * bits)) as [H2|H2].
      * destruct (div_mod_window p (Z.of_nat (S k)) bits) as [Hq Hr]; [lia|lia|].
        rewrite Hq, Hr, Nat2Z.id.
        destruct (Z.ltb_spec p 64); [reflexivity|lia].
      * rewrite (testbit_small (nth (S k) src 0) bits);
          [apply andb_false_r|apply Hsrc; lia|lia|lia].
Qed.

Lemma pack_fields_testbit (k : nat) (p : Z) :
  (1 <= k)%nat -> Z.of_nat k * bits <= 64 ->
  (forall i, (i < k)%nat -> 0 <= nth i src 0 < 2 ^ bits) ->
  0 <= p ->
  Z.testbit (Simple8b.pack_fields sel bits k src) p = field_bit sel bits src k p.
Proof.
  intros Hk Hfit Hsrc Hp. unfold Simple8b.pack_fields.
  destruct k as [|k]; [lia|].
  replace (S k - 1)%nat with k by lia.
  apply pack_fold_testbit; assumption.
Qed.

Lemma pack_fields_selector (k : nat) :
  (1 <= k)%nat -> Z.of_nat k * bits <= 60 ->
  (forall i, (i < k)%nat -> 0 <= nth i src 0 < 2 ^ bits) ->
  Z.shiftr (Simple8b.pack_fields sel bits k src) 60 = sel.
Proof.
  intros Hk Hfit Hsrc. apply Z.bits_inj'. intros p Hp.
  rewrite Z.shiftr_spec by lia.
  rewrite pack_fields_testbit by (try lia; assumption). unfold field_bit.
  rewrite Z.shiftl_spec by lia.
  replace (p + 60 - 60) with p by lia.
  destruct (Z.ltb_spec (p + 60) (Z.of_nat k * bits)); [lia|].
  apply orb_false_r.
Qed.

Lemma pack_fields_field (k i : nat) :
  (i < k)%nat -> Z.of_nat k * bits <= 60 ->
  (forall i, (i < k)%nat -> 0 <= nth i src 0 < 2 ^ bits) ->
  Z.land (Z.shiftr (Simple8b.pack_fields sel bits k src) (Z.of_nat i * bits))
         (Z.shiftl 1 bits - 1)
  = nth i src 0.
Proof.
  intros Hi Hfit Hsrc. rewrite mask_ones by lia.
  apply Z.bits_inj'. intros p Hp.
  rewrite Z.land_spec, Z.shiftr_spec by lia.
  rewrite pack_fields_testbit by (try lia; assumption). unfold field_bit.
  rewrite Z.testbit_ones_nonneg by lia.
  destruct (Z.ltb_spec p bits) as [Hlt|Hge].
  - rewrite andb_true_r.
    assert ((Z.of_nat i + 1) * bits <= Z.of_nat k * bits) as Hwin
      by (apply Z.mul_le_mono_nonneg_r; lia).
    rewrite Z.shiftl_spec by lia.
    rewrite (Z.testbit_neg_r sel) by lia.
    destruct (div_mod_window (p + Z.of_nat i * bits) (Z.of_nat i) bits)
      as [Hq Hr]; [lia|lia|].
    rewrite Hq, Hr, Nat2Z.id.
    destruct (Z.ltb_spec (p + Z.of_nat i * bits) (Z.of_nat k * bits)); [|lia].
    simpl. f_equal. lia.
  - rewrite andb_false_r. symmetry.
    apply (testbit_small _ bits); [apply Hsrc; lia|lia|lia].
Qed.

Lemma unpack_pack_fields (k : nat) :
  (1 <= k)%nat -> Z.of_nat k * bits <= 60 ->
  length src = k ->
  Forall (fun v => 0 <= v < 2 ^ bits) src ->
  Simple8b.unpack_fields bits k (Simple8b.pack_fields sel bits k src) = src.
Proof.
  intros Hk Hfit Hlen Hall.
  assert (forall i, (i < k)%nat -> 0 <= nth i src 0 < 2 ^ bits) as Hsrc.
  { intros i Hi. rewrite Forall_forall in Hall. apply Hall.
    apply list_elem_of_In, nth_In. lia. }
  unfold Simple8b.unpack_fields.
  apply (nth_ext _ _ 0 0).
  - rewrite length_map, length_seq. lia.
  - intros i Hi. rewrite length_map, length_seq in Hi.
    rewrite nth_map_seq by lia.
    apply pack_fields_field; assumption.
Qed.
End PackFields.

(** ** The cascade of [Encode] as a table *)

Lemma Encode_table_eq (src : list Z) : Simple8b.Encode src = Encode_table src.
Proof.
  unfold Simple8b.Encode, Encode_table.
  do 2 (destruct (Simple8b.canPack _ _ _); [reflexivity|]).
  unfold rows, accepts. cbn [find fst snd].
  repeat (destruct (Simple8b.canPack _ _ _); [reflexivity|]).
  reflexivity.
Qed.

Lemma rows_ok : Forall row_ok rows.
Proof. repeat constructor; cbn; lia. Qed.

(** ** canPack *)

Lemma canPack_ones (src : list Z) (n : nat) :
  Simple8b.canPack src n 0 = true <-> (n <= length src)%nat /\ Forall (eq 1) src.
Proof.
  unfold Simple8b.canPack.
  destruct (Nat.ltb_spec (length src) n) as [Hlt|Hge].
  - split; [discriminate|lia].
  - simpl. rewrite forallb_forall, Forall_forall.
    split.
    + intros H. split; [lia|]. intros x Hx.
      apply list_elem_of_In, H in Hx. lia.
    + intros [_ H] x Hx. apply list_elem_of_In, H in Hx. lia.
Qed.

Lemma canPack_bits (src : list Z) (n : nat) (bits : Z) :
  0 < bits ->
  Simple8b.canPack src n bits = true
  <-> (n <= length src)%nat /\ Forall (fun v => v < 2 ^ bits) (take n src).
Proof.
  intros Hb. unfold Simple8b.canPack.
  destruct (Nat.ltb_spec (length src) n) as [Hlt|Hge].
  - split; [discriminate|lia].
  - destruct (Z.eqb_spec bits 0); [lia|].
    assert (take (if (n <? length src)%nat then n else length src) src
            = take n src) as ->.
    { destruct (Nat.ltb_spec n (length src)); [reflexivity|].
      rewrite !take_ge by lia. reflexivity. }
    rewrite forallb_forall, Forall_forall, Z.shiftl_1_l.
    split.
    + intros H. split; [lia|]. intros x Hx.
      apply list_elem_of_In, H in Hx. lia.
    + intros [_ H] x Hx. apply list_elem_of_In, H in Hx. lia.
Qed.

Lemma MaxValue_eq : Simple8b.MaxValue = 2 ^ 60 - 1.
Proof. reflexivity. Qed.

Lemma find_accepts_valid (x : Z) (xs : list Z) :
  valid (x :: xs) -> exists r, find (accepts (x :: xs)) rows = Some r.
Proof.
  intros Hv.
  destruct (find (accepts (x :: xs)) rows) as [r|] eqn:Hf; [eauto|].
  exfalso.
  pose proof (find_none _ _ Hf (15, 1%nat, 60)) as Hn.
  assert (accepts (x :: xs) (15, 1%nat, 60) = true) as Ha.
  { unfold accepts. cbn [fst snd]. apply canPack_bits; [lia|].
    split; [simpl; lia|]. simpl. constructor; [|constructor].
    inversion Hv; subst. rewrite MaxValue_eq in *. lia. }
  rewrite Hn in Ha; [discriminate|].
  unfold rows. repeat (first [left; reflexivity | right]).
Qed.

Lemma find_accepts_row (src : list Z) (r : row) :
  find (accepts src) rows = Some r ->
  row_ok r /\ Simple8b.canPack src r.1.2 r.2 = true.
Proof.
  intros Hf. apply find_some in Hf as [Hin Hacc]. split; [|exact Hacc].
  pose proof rows_ok as Hok. rewrite Forall_forall in Hok.
  apply Hok, list_elem_of_In, Hin.
Qed.

(** [Encode] on a non-empty input either fails or consumes at least one
    value and at most what is there. *)
Lemma Encode_consumes (src : list Z) (w : Z) (n : nat) :
  src <> [] -> Simple8b.Encode src = (w, n, None) -> (1 <= n <= length src)%nat.
Proof.
  intros Hne. rewrite Encode_table_eq. unfold Encode_table.
  destruct (Simple8b.canPack src 240 0) eqn:H240.
  { intros [= <- <-]. apply canPack_ones in H240. lia. }
  destruct (Simple8b.canPack src 120 0) eqn:H120.
  { intros [= <- <-]. apply canPack_ones in H120. lia. }
  destruct (find (accepts src) rows) as [r|] eqn:Hf.
  - intros [= <- <-]. apply find_accepts_row in Hf as [Hok Hacc].
    destruct Hok as (Hb & Hn & _). apply canPack_bits in Hacc; lia.
  - destruct src; [congruence|]. simpl. discriminate.
Qed.

Lemma Encode_error (src : list Z) (w : Z) (n : nat) (er : error) :
  Simple8b.Encode src = (w, n, Some er) ->
  w = 0 /\ n = 0%nat /\ er = ErrValueOutOfBounds /\ src <> [].
Proof.
  rewrite Encode_table_eq. unfold Encode_table.
  repeat case_match; intros [= <- <- <-]; repeat split; try reflexivity.
  intros ->. simpl in *. discriminate.
Qed.

Lemma Encode_valid (src : list Z) :
  valid src -> exists w n, Simple8b.Encode src = (w, n, None).
Proof.
  intros Hv. rewrite Encode_table_eq. unfold Encode_table.
  repeat case_match; eauto.
  destruct src as [|x xs]; [simpl in *; discriminate|].
  destruct (find_accepts_valid x xs Hv) as [r Hr]. congruence.
Qed.

Lemma take_all_ones (src : list Z) (k : nat) :
  Forall (eq 1) src -> (k <= length src)%nat -> take k src = replicate k 1.
Proof.
  revert k. induction src as [|x xs IH]; intros k Hall Hk.
  - simpl in Hk. replace k with 0%nat by lia. reflexivity.
  - destruct k as [|k]; [reflexivity|].
    inversion Hall; subst. simpl. f_equal. apply IH; [assumption|simpl in Hk; lia].
Qed.

Lemma valid_take (xs : list Z) (k : nat) : valid xs -> valid (take k xs).
Proof. apply Forall_take. Qed.

Lemma valid_drop (xs : list Z) (k : nat) : valid xs -> valid (drop k xs).
Proof. apply Forall_drop. Qed.

(** What decoding the word of [Encode] writes. *)
Lemma Encode_word (src : list Z) (w : Z) (n : nat) :
  valid src -> Simple8b.Encode src = (w, n, None) -> src <> [] ->
  let p := Simple8b.selector_at (Z.shiftr w 60) in
  Z.shiftr w 60 < 16 /\ Simple8b.n p = n
  /\ exists vals,
      (forall mem off, Simple8b.unpack p w mem off = Simple8b.store_block mem off vals)
      /\ take n vals = take n src
      /\ (length vals = n
          \/ (length vals = 240%nat /\ n = 120%nat /\ (120 <= length src)%nat)).
Proof.
  intros Hv. rewrite Encode_table_eq. unfold Encode_table.
  destruct (Simple8b.canPack src 240 0) eqn:H240.
  { intros [= <- <-] _. apply canPack_ones in H240 as [Hlen Hall].
    cbv zeta. replace (Z.shiftr 0 60) with 0 by reflexivity.
    split; [lia|]. split; [reflexivity|].
    exists (replicate 240 1). split; [reflexivity|].
    split; [|left; reflexivity].
    rewrite (take_all_ones src) by assumption. reflexivity. }
  destruct (Simple8b.canPack src 120 0) eqn:H120.
  { intros [= <- <-] _. apply canPack_ones in H120 as [Hlen Hall].
    cbv zeta. replace (Z.shiftr (Z.shiftl 1 60) 60) with 1 by reflexivity.
    split; [lia|]. split; [reflexivity|].
    exists (replicate 240 1). split; [reflexivity|].
    split; [|right; split; [reflexivity|split; [reflexivity|lia]]].
    rewrite (take_all_ones src) by assumption. reflexivity. }
  destruct (find (accepts src) rows) as [r|] eqn:Hf.
  2:{ intros HE Hne. destruct src; [congruence|]. cbn in HE. discriminate. }
  intros [= <- <-] _.
  apply find_accepts_row in Hf as [Hok Hacc].
  destruct r as [[sel k] bits]. unfold row_ok in Hok. cbn [fst snd] in *.
  destruct Hok as (Hb & Hk & Hfit & Hsel & Hn & Hun).
  apply canPack_bits in Hacc as [Hlen Hsmall]; [|lia].
  assert (Forall (fun v => 0 <= v < 2 ^ bits) (take k src)) as Hrange.
  { apply valid_take with (k := k) in Hv. unfold valid in Hv.
    rewrite Forall_forall in *. intros x Hx.
    specialize (Hv x Hx). specialize (Hsmall x Hx). lia. }
  assert (length (take k src) = k) as Hlk by (rewrite length_take; lia).
  assert (forall i, (i < k)%nat -> 0 <= nth i (take k src) 0 < 2 ^ bits) as Hnth.
  { intros i Hi. rewrite Forall_forall in Hrange. apply Hrange.
    apply list_elem_of_In, nth_In. lia. }
  rewrite pack_fields_selector by (try lia; assumption).
  split; [lia|]. split; [exact Hn|].
  exists (take k src). rewrite Hun. unfold Simple8b.unpack_n.
  rewrite unpack_pack_fields by (try lia; assumption).
  split; [reflexivity|]. split; [|left; assumption].
  rewrite take_take. f_equal. lia.
Qed.

(** ** EncodeAll as a list function *)

Lemma EncodeAll_loop_step (fuel : nat) (src : list Z) (i j : nat) :
  (i < length src)%nat ->
  Simple8b.EncodeAll_loop (S fuel) src i j =
  match Simple8b.Encode (drop i src) with
  | (w, n, None) => Simple8b.EncodeAll_loop fuel (<[j:=w]> src) (i + n) (j + 1)
  | (_, _, Some er) => Fail er
  end.
Proof.
  intros Hi. cbn [Simple8b.EncodeAll_loop].
  destruct (Nat.leb_spec (length src) i); [lia|].
  unfold Simple8b.Encode.
  repeat (destruct (Simple8b.canPack _ _ _); [reflexivity|]).
  rewrite length_drop.
  destruct (Nat.ltb_spec 0 (length src - i)); [reflexivity|lia].
Qed.

Lemma take_S_insert {A} (l : list A) (j : nat) (x : A) :
  (j < length l)%nat -> take (S j) (<[j:=x]> l) = take j l ++ [x].
Proof.
  revert j. induction l as [|a l IH]; intros j Hj; [simpl in Hj; lia|].
  destruct j as [|j]; [reflexivity|].
  simpl in *. f_equal. apply IH. lia.
Qed.

Lemma EncodeAll_loop_bulk (fuel : nat) (src : list Z) (i j : nat) :
  (j <= i)%nat ->
  Simple8b.EncodeAll_loop fuel src i j
  = (ws ← bulk fuel (drop i src); Ret (take j src ++ ws)).
Proof.
  revert src i j. induction fuel as [|fuel IH]; intros src i j Hji.
  - cbn [Simple8b.EncodeAll_loop].
    destruct (Nat.leb_spec (length src) i) as [Hle|Hlt].
    + rewrite drop_ge by lia. cbn. rewrite app_nil_r. reflexivity.
    + destruct (drop i src) eqn:Hd; [|reflexivity].
      apply (f_equal length) in Hd. rewrite length_drop in Hd. simpl in Hd. lia.
  - destruct (Nat.leb_spec (length src) i) as [Hle|Hlt].
    + cbn [Simple8b.EncodeAll_loop].
      destruct (Nat.leb_spec (length src) i); [|lia].
      rewrite drop_ge by lia. cbn. rewrite app_nil_r. reflexivity.
    + rewrite EncodeAll_loop_step by assumption.
      destruct (drop i src) as [|x rest] eqn:Hd.
      { apply (f_equal length) in Hd. rewrite length_drop in Hd. simpl in Hd. lia. }
      cbn [bulk]. rewrite <- Hd.
      destruct (Simple8b.Encode (drop i src)) as [[w n] [er|]] eqn:HE; [reflexivity|].
      assert (1 <= n <= length (drop i src))%nat as Hn.
      { apply (Encode_consumes _ w); [rewrite Hd; discriminate|assumption]. }
      rewrite IH by lia.
      rewrite drop_insert_lt by lia.
      rewrite drop_drop.
      destruct (bulk fuel (drop (i + n) src)) as [ws| | |]; try reflexivity.
      cbn. f_equal. replace (j + 1)%nat with (S j) by lia.
      rewrite take_S_insert by lia. rewrite <- app_assoc. reflexivity.
Qed.

Lemma EncodeAll_bulk (src : list Z) :
  Simple8b.EncodeAll src = bulk (length src) src.
Proof.
  unfold Simple8b.EncodeAll. rewrite EncodeAll_loop_bulk by lia.
  rewrite drop_0. destruct (bulk _ _); reflexivity.
Qed.

(** ** Round trip of the bulk functions *)

Lemma store_block_Some (mem : list Z) (off : nat) (vals : list Z) :
  (off + length vals <= length mem)%nat ->
  exists mem', Simple8b.store_block mem off vals = Some mem'
    /\ length mem' = length mem
    /\ take off mem' = take off mem
    /\ take (length vals) (drop off mem') = vals.
Proof.
  intros Hfit. unfold Simple8b.store_block.
  destruct (Nat.leb_spec (off + length vals) (length mem)); [|lia].
  eexists. split; [reflexivity|].
  assert (length (take off mem) = off) as Hoff by (rewrite length_take; lia).
  split; [|split].
  - rewrite !length_app, length_take, length_drop. lia.
  - rewrite take_app_length' by lia. reflexivity.
  - rewrite drop_app_length' by lia. rewrite take_app_length. reflexivity.
Qed.

Lemma store_block_None (mem : list Z) (off : nat) (vals : list Z) :
  (length mem < off + length vals)%nat ->
  Simple8b.store_block mem off vals = None.
Proof.
  intros Hfit. unfold Simple8b.store_block.
  destruct (Nat.leb_spec (off + length vals) (length mem)); [lia|reflexivity].
Qed.

Lemma take_le_eq {A} (l1 l2 : list A) (k k' : nat) :
  (k <= k')%nat -> take k' l1 = take k' l2 -> take k l1 = take k l2.
Proof.
  intros Hk H. replace k with (min k k') by lia.
  rewrite <- !take_take. rewrite H. reflexivity.
Qed.

(** Decoding the words of [xs] at slot [j] of a destination that has room
    for [xs] and 120 slots more rebuilds [xs] there and changes nothing
    before [j]. *)
Lemma DecodeAll_loop_bulk (fuel : nat) :
  forall (xs mem : list Z) (len j : nat),
    (length xs <= fuel)%nat -> valid xs ->
    (j + length xs <= len)%nat ->
    (j + length xs + 120 <= length mem)%nat ->
    exists ws mem',
      bulk fuel xs = Ret ws
      /\ Simple8b.DecodeAll_loop mem len ws j = Ret ((j + length xs)%nat, mem')
      /\ length mem' = length mem
      /\ take j mem' = take j mem
      /\ take (length xs) (drop j mem') = xs.
Proof.
  induction fuel as [|fuel IH]; intros xs mem len j Hfuel Hv Hlen Hmem.
  - destruct xs; [|simpl in Hfuel; lia].
    exists [], mem. simpl. rewrite Nat.add_0_r. auto.
  - destruct xs as [|x rest] eqn:Hxs.
    { exists [], mem. simpl. rewrite Nat.add_0_r. auto. }
    rewrite <- Hxs in *.
    assert (xs <> []) as Hne by (rewrite Hxs; discriminate).
    destruct (Encode_valid xs Hv) as (w & n & HE).
    pose proof (Encode_consumes xs w n Hne HE) as Hn.
    destruct (Encode_word xs w n Hv HE Hne) as (Hsel & Hnp & vals & Hun & Htake & Hvals).
    assert (j + length vals <= length mem)%nat as Hfit by lia.
    destruct (store_block_Some mem j vals Hfit) as (mem1 & Hst & Hl1 & Hpre1 & Hval1).
    destruct (IH (drop n xs) mem1 len (j + n)%nat) as (ws & mem' & Hb & Hd & Hl' & Hpre' & Hval').
    { rewrite length_drop. lia. }
    { apply valid_drop, Hv. }
    { rewrite length_drop. lia. }
    { rewrite length_drop. lia. }
    rewrite length_drop in Hd, Hval'.
    exists (w :: ws), mem'.
    split.
    { rewrite Hxs at 1. cbn [bulk]. rewrite <- Hxs, HE, Hb. reflexivity. }
    split.
    { cbn [Simple8b.DecodeAll_loop].
      destruct (Z.leb_spec 16 (Z.shiftr w 60)); [lia|].
      destruct (Nat.leb_spec len j); [lia|].
      rewrite Hun, Hst, Hnp, Hd.
      replace (j + n + (length xs - n))%nat with (j + length xs)%nat by lia.
      reflexivity. }
    split; [lia|].
    split.
    { rewrite <- Hpre1. apply (take_le_eq _ _ j (j + n)); [lia|assumption]. }
    replace (length xs) with (n + (length xs - n))%nat by lia.
    rewrite <- take_take_drop, drop_drop, Hval'.
    rewrite take_drop_commute, Hpre', <- take_drop_commute.
    assert (take n (drop j mem1) = take n vals) as ->.
    { transitivity (take n (take (length vals) (drop j mem1)));
        [rewrite take_take; f_equal; lia|rewrite Hval1; reflexivity]. }
    rewrite Htake. apply take_drop.
Qed.

(** X20 ([simple8b.EncodeAll], then [DecodeAll], with room behind the
    destination): for every list [xs] of [uint64] values, none above
    [MaxValue], [EncodeAll xs] returns words [ws], and [DecodeAll] of [ws]
    into a destination slice of [length xs] elements whose memory has room
    for 120 values more returns [length xs] and leaves exactly [xs] in the
    slice: as many values, the same values, in the same order. *)
Theorem DecodeAll_EncodeAll_with_room (xs mem : list Z) :
  Forall (fun v => 0 <= v <= Simple8b.MaxValue) xs ->
  (length xs + 120 <= length mem)%nat ->
  exists ws mem',
    Simple8b.EncodeAll xs = Ret ws
    /\ Simple8b.DecodeAll mem (length xs) ws = Ret (length xs, mem')
    /\ take (length xs) mem' = xs.
Proof.
  intros Hv Hmem.
  destruct (DecodeAll_loop_bulk (length xs) xs mem (length xs) 0)
    as (ws & mem' & Hb & Hd & _ & _ & Hval); [lia|exact Hv|lia|lia|].
  exists ws, mem'. rewrite EncodeAll_bulk. unfold Simple8b.DecodeAll.
  rewrite drop_0 in Hval. auto.
Qed.

Lemma DecodeAll_EncodeAll_with_room_witness :
  exists ws mem',
    Simple8b.EncodeAll (replicate 121 1 ++ [7; 0; 1152921504606846975]) = Ret ws
    /\ Simple8b.DecodeAll (replicate 244 0) 124 ws = Ret (124%nat, mem')
    /\ take 124 mem' = replicate 121 1 ++ [7; 0; 1152921504606846975].
Proof.
  apply (DecodeAll_EncodeAll_with_room
           (replicate 121 1 ++ [7; 0; 1152921504606846975]) (replicate 244 0)).
  - repeat constructor; vm_compute; congruence.
  - vm_compute. lia.
Defined.

(** ** Encode and the runs of ones *)

Lemma find_accepts_small (src : list Z) (r : row) :
  find (accepts src) rows = Some r -> (1 <= r.1.2 <= 60)%nat.
Proof.
  intros Hf. apply find_accepts_row in Hf as [Hok _].
  destruct Hok as (Hb & Hn & Hfit & _). nia.
Qed.

(** C3.  [Encode] returns [(0, 240)] exactly when [src] has at least 240
    elements and every element of [src] is 1, and [(1<<60, 120)] exactly
    when every element of [src] is 1 and [120 <= len(src) < 240].  The test
    for ones reads all of [src]: 240 ones followed by a 2 are not packed
    with selector 0, and 120 ones followed by a 2 not with selector 1. *)
Theorem C3_Encode_runs_of_ones (src : list Z) :
  ((Simple8b.Encode src).1 = (0, 240%nat)
   <-> (240 <= length src)%nat /\ Forall (eq 1) src)
  /\ ((Simple8b.Encode src).1 = (Z.shiftl 1 60, 120%nat)
      <-> Forall (eq 1) src /\ (120 <= length src < 240)%nat)
  /\ (Simple8b.Encode (replicate 240 1 ++ [2])).1 <> (0, 240%nat)
  /\ (Simple8b.Encode (replicate 120 1 ++ [2])).1 <> (Z.shiftl 1 60, 120%nat).
Proof.
  rewrite Encode_table_eq. unfold Encode_table.
  split; [|split; [|split; vm_compute; congruence]].
  - destruct (Simple8b.canPack src 240 0) eqn:H240.
    { apply canPack_ones in H240. split; [intros _; exact H240|reflexivity]. }
    split.
    + destruct (Simple8b.canPack src 120 0); [discriminate|].
      destruct (find (accepts src) rows) as [r|] eqn:Hf.
      * apply find_accepts_small in Hf. cbn [fst]. intros [= _ Hn]. lia.
      * destruct (0 <? length src)%nat; discriminate.
    + intros H. apply canPack_ones in H. congruence.
  - destruct (Simple8b.canPack src 240 0) eqn:H240.
    { apply canPack_ones in H240. split; [discriminate|lia]. }
    destruct (Simple8b.canPack src 120 0) eqn:H120.
    { apply canPack_ones in H120 as [Hlen Hall].
      split; [intros _|reflexivity]. split; [exact Hall|].
      split; [exact Hlen|].
      destruct (Nat.lt_ge_cases (length src) 240) as [|Hge]; [assumption|].
      assert (Simple8b.canPack src 240 0 = true) by (apply canPack_ones; auto).
      congruence. }
    split.
    + destruct (find (accepts src) rows) as [r|] eqn:Hf.
      * apply find_accepts_small in Hf. cbn [fst]. intros [= _ Hn]. lia.
      * destruct (0 <? length src)%nat; discriminate.
    + intros [Hall Hlen].
      assert (Simple8b.canPack src 120 0 = true) by (apply canPack_ones; split; [lia|auto]).
      congruence.
Qed.

(** ** The unpackers of selectors 0 and 1 *)

(** C10.  For a 64-bit word whose selector is 0 or 1, [Decode] leaves the
    value 1 in all 240 slots of the destination array, whatever it held,
    and reports 240 values for selector 0 and 120 for selector 1; so a word
    of selector 1 changes the slots 120 to 239 as well.  In [DecodeAll] the
    same 240 slots are the memory of the destination from the current
    position [j] on. *)
Theorem C10_unpack_ones_writes_240 (v : Z) (dst mem : list Z) (len j : nat) :
  0 <= v < 2 ^ 64 ->
  Z.shiftr v 60 = 0 \/ Z.shiftr v 60 = 1 ->
  length dst = 240%nat ->
  (j < len)%nat -> (j + 240 <= length mem)%nat ->
  let count := if Z.shiftr v 60 =? 0 then 240%nat else 120%nat in
  Simple8b.Decode dst v = Ret (replicate 240 1, count)
  /\ (forall dst' k, Simple8b.Decode dst v = Ret (dst', k) ->
      forall i, (120 <= i < 240)%nat -> dst' !! i = Some 1)
  /\ Simple8b.DecodeAll_loop mem len [v] j
     = Ret ((j + count)%nat, take j mem ++ replicate 240 1 ++ drop (j + 240) mem).
Proof.
  intros _ Hsel Hdst Hj Hmem count.
  assert (Simple8b.Decode dst v = Ret (replicate 240 1, count)) as HD.
  { unfold Simple8b.Decode, count.
    destruct Hsel as [-> | ->].
    - change (Simple8b.unpack (Simple8b.selector_at 0)) with Simple8b.unpack240.
      change (Simple8b.n (Simple8b.selector_at 0)) with 240%nat.
      unfold Simple8b.unpack240, Simple8b.store_block.
      rewrite length_replicate, Hdst. cbn [Nat.add Nat.leb Z.leb Z.compare Z.eqb].
      rewrite drop_ge by lia. rewrite app_nil_r. reflexivity.
    - change (Simple8b.unpack (Simple8b.selector_at 1)) with Simple8b.unpack120.
      change (Simple8b.n (Simple8b.selector_at 1)) with 120%nat.
      unfold Simple8b.unpack120, Simple8b.store_block.
      rewrite length_replicate, Hdst. cbn [Nat.add Nat.leb Z.leb Z.compare Z.eqb].
      rewrite drop_ge by lia. rewrite app_nil_r. reflexivity. }
  split; [exact HD|]. split.
  - intros dst' k Heq i Hi.
    assert (dst' = replicate 240 1) as -> by congruence.
    apply lookup_replicate_2. lia.
  - cbn [Simple8b.DecodeAll_loop]. unfold count.
    destruct (Nat.leb_spec len j); [lia|].
    destruct Hsel as [-> | ->].
    + change (Simple8b.unpack (Simple8b.selector_at 0)) with Simple8b.unpack240.
      change (Simple8b.n (Simple8b.selector_at 0)) with 240%nat.
      unfold Simple8b.unpack240, Simple8b.store_block.
      rewrite length_replicate.
      destruct (Nat.leb_spec (j + 240) (length mem)); [|lia]. reflexivity.
    + change (Simple8b.unpack (Simple8b.selector_at 1)) with Simple8b.unpack120.
      change (Simple8b.n (Simple8b.selector_at 1)) with 120%nat.
      unfold Simple8b.unpack120, Simple8b.store_block.
      rewrite length_replicate.
      destruct (Nat.leb_spec (j + 240) (length mem)); [|lia]. reflexivity.
Qed.

Lemma C10_unpack_ones_writes_240_witness :
  let v := Z.shiftl 1 60 in
  let dst := replicate 240 7 in
  let mem := replicate 250 7 in
  Simple8b.Decode dst v = Ret (replicate 240 1, 120%nat)
  /\ (forall dst' k, Simple8b.Decode dst v = Ret (dst', k) ->
      forall i, (120 <= i < 240)%nat -> dst' !! i = Some 1)
  /\ Simple8b.DecodeAll_loop mem 130 [v] 3
     = Ret ((3 + 120)%nat, take 3 mem ++ replicate 240 1 ++ drop (3 + 240) mem).
Proof.
  apply (C10_unpack_ones_writes_240
           (Z.shiftl 1 60) (replicate 240 7) (replicate 250 7) 130 3).
  - vm_compute. split; congruence.
  - right. reflexivity.
  - reflexivity.
  - lia.
  - vm_compute. lia.
Defined.

(** ** The divisor loop *)

Lemma pow10_pos (k : nat) : 0 < 10 ^ Z.of_nat k.
Proof. apply Z.pow_pos_nonneg; lia. Qed.

Lemma pow10_S (k : nat) : 10 ^ Z.of_nat (S k) = 10 * 10 ^ Z.of_nat k.
Proof. rewrite Nat2Z.inj_succ, Z.pow_succ_r by lia. reflexivity. Qed.

Lemma pow10_quot (k : nat) : Z.quot (10 ^ Z.of_nat (S k)) 10 = 10 ^ Z.of_nat k.
Proof. rewrite pow10_S, Z.mul_comm. apply Z.quot_mul. lia. Qed.

Lemma pow10_le (j k : nat) : (j <= k)%nat -> 10 ^ Z.of_nat j <= 10 ^ Z.of_nat k.
Proof. intros H. apply Z.pow_le_mono_r; lia. Qed.

Lemma pow10_divide (j k : nat) :
  (j <= k)%nat -> (10 ^ Z.of_nat j | 10 ^ Z.of_nat k).
Proof.
  intros H. exists (10 ^ (Z.of_nat k - Z.of_nat j)).
  rewrite <- Z.pow_add_r by lia. f_equal. lia.
Qed.

Lemma rem_divide (v d : Z) : 0 < d -> (Z.rem v d =? 0) = true <-> (d | v).
Proof.
  intros Hd. rewrite Z.eqb_eq. apply Z.rem_divide. lia.
Qed.

Lemma p10_le (k : nat) (v : Z) : (p10 k v <= k)%nat.
Proof.
  induction k as [|k IH]; [reflexivity|].
  cbn [p10]. destruct (_ =? 0); lia.
Qed.

Lemma p10_divide (k : nat) (v : Z) : (10 ^ Z.of_nat (p10 k v) | v).
Proof.
  induction k as [|k IH]; [apply Z.divide_1_l|].
  cbn [p10]. destruct (_ =? 0) eqn:H; [|exact IH].
  apply rem_divide in H; [exact H|apply pow10_pos].
Qed.

Lemma p10_greatest (k j : nat) (v : Z) :
  (j <= k)%nat -> (10 ^ Z.of_nat j | v) -> (j <= p10 k v)%nat.
Proof.
  induction k as [|k IH]; intros Hj Hd; [lia|].
  cbn [p10]. destruct (_ =? 0) eqn:H; [exact Hj|].
  destruct (Nat.eq_dec j (S k)) as [->|Hne].
  - apply rem_divide in Hd; [congruence|apply pow10_pos].
  - apply IH; [lia|exact Hd].
Qed.

(** From a divisor [10^k] and with fuel for [k] divisions the loop stops,
    without a division by zero, at the largest power that divides [v]. *)
Lemma shrink_pow10 (fuel k : nat) (v : Z) :
  (k <= fuel)%nat ->
  shrink fuel v (10 ^ Z.of_nat k) = Ret (10 ^ Z.of_nat (p10 k v)).
Proof.
  revert fuel. induction k as [|k IH]; intros fuel Hk.
  - destruct fuel; cbn; rewrite Z.rem_1_r; reflexivity.
  - destruct fuel as [|fuel]; [lia|].
    cbn [shrink p10].
    pose proof (pow10_pos (S k)) as Hpos.
    destruct (Z.eqb_spec (10 ^ Z.of_nat (S k)) 0) as [H0|_]; [lia|].
    destruct (Z.rem v (10 ^ Z.of_nat (S k)) =? 0); [reflexivity|].
    rewrite pow10_quot. apply IH. lia.
Qed.

Lemma common_p10_le (vs : list Z) (k : nat) : (common_p10 k vs <= k)%nat.
Proof.
  unfold common_p10. revert k. induction vs as [|v vs IH]; intros k; [reflexivity|].
  cbn [foldl]. etransitivity; [apply IH|apply p10_le].
Qed.

Lemma common_p10_divide (vs : list Z) (k : nat) :
  Forall (fun v => (10 ^ Z.of_nat (common_p10 k vs) | v)) vs.
Proof.
  unfold common_p10. revert k. induction vs as [|v vs IH]; intros k; [constructor|].
  cbn [foldl]. constructor; [|apply IH].
  etransitivity; [|apply (p10_divide k v)].
  apply pow10_divide, (common_p10_le vs).
Qed.

Lemma common_p10_greatest (vs : list Z) (k j : nat) :
  (j <= k)%nat -> Forall (fun v => (10 ^ Z.of_nat j | v)) vs ->
  (j <= common_p10 k vs)%nat.
Proof.
  unfold common_p10. revert k. induction vs as [|v vs IH]; intros k Hj Hall; [exact Hj|].
  cbn [foldl]. inversion Hall; subst.
  apply IH; [apply p10_greatest; assumption|assumption].
Qed.

Lemma common_p10_perm (vs ws : list Z) (k : nat) :
  vs ≡ₚ ws -> common_p10 k vs = common_p10 k ws.
Proof.
  intros Hp. apply Nat.le_antisymm.
  - apply common_p10_greatest; [apply common_p10_le|].
    rewrite <- Hp. apply common_p10_divide.
  - apply common_p10_greatest; [apply common_p10_le|].
    rewrite Hp. apply common_p10_divide.
Qed.

(** ** reference10 *)

Lemma reference10_fold (vs : list Z) (m M : Z) (k : nat) :
  (k <= 12)%nat ->
  ofoldl Delta.reference10_step (m, M, 10 ^ Z.of_nat k) vs
  = Ret (foldl Z.min m vs, foldl Z.max M vs, 10 ^ Z.of_nat (common_p10 k vs)).
Proof.
  revert m M k. induction vs as [|v vs IH]; intros m M k Hk; [reflexivity|].
  cbn [ofoldl Delta.reference10_step]. rewrite shrink_pow10 by lia.
  cbn [mbind outcome_bind].
  pose proof (p10_le k v).
  rewrite IH by lia. unfold common_p10. cbn [foldl].
  repeat f_equal.
  - destruct (Z.ltb_spec v m); [rewrite Z.min_r|rewrite Z.min_l]; lia.
  - destruct (Z.ltb_spec M v); [rewrite Z.max_r|rewrite Z.max_l]; lia.
Qed.

Lemma reference10_spec (first : Z) (rest : list Z) :
  Delta.reference10 (first :: rest)
  = Ret (foldl Z.min first rest, foldl Z.max 0 rest,
         10 ^ Z.of_nat (common_p10 12 rest)).
Proof. apply (reference10_fold rest first 0 12). lia. Qed.

(** ** The two loops of [reduce] *)

Lemma deltas_from_snoc (l : list Z) (p b : Z) :
  deltas_from p (l ++ [b]) = deltas_from p l ++ [i64 (b - List.last (p :: l) 0)].
Proof.
  revert p. induction l as [|x l IH]; intros p; [reflexivity|].
  cbn [app deltas_from]. rewrite IH. reflexivity.
Qed.

Lemma length_deltas_from (l : list Z) (p : Z) :
  length (deltas_from p l) = length l.
Proof. revert p. induction l as [|x l IH]; intros p; simpl; auto. Qed.

Lemma nth_last {A} (l : list A) (d : A) : nth (length l - 1) l d = List.last l d.
Proof.
  induction l as [|x l IH]; [reflexivity|].
  destruct l as [|y l]; [reflexivity|].
  change (List.last (x :: y :: l) d) with (List.last (y :: l) d).
  rewrite <- IH. cbn [length].
  replace (S (S (length l)) - 1)%nat with (S (length l)) by lia.
  replace (S (length l) - 1)%nat with (length l) by lia.
  reflexivity.
Qed.

Lemma insert_middle {A} (pre post : list A) (x y : A) :
  <[length pre := y]> (pre ++ x :: post) = pre ++ y :: post.
Proof.
  rewrite insert_app_r_alt by lia.
  rewrite Nat.sub_diag. reflexivity.
Qed.

Lemma nth_middle' {A} (pre post : list A) (x d : A) :
  nth (length pre) (pre ++ x :: post) d = x.
Proof. apply nth_middle. Qed.

(** The first loop of [reduce], run on the indices [m, m-1, .., 1] of
    [init ++ done] where [init] has [m + 1] elements: [init] becomes its
    first element followed by its differences, and the minimum, the maximum
    and the divisor have gone over these differences from the last one. *)
Lemma reduce_loop (m : nat) :
  forall (x : Z) (init done : list Z) (mn mx : Z) (k : nat),
    (k <= 12)%nat -> length init = m ->
    ofoldl Timestamp.reduce_step ((x :: init) ++ done, mn, mx, 10 ^ Z.of_nat k)
           (rev (seq 1 m))
    = Ret (x :: deltas_from x init ++ done,
           foldl Z.min mn (rev (deltas_from x init)),
           foldl Z.max mx (rev (deltas_from x init)),
           10 ^ Z.of_nat (common_p10 k (rev (deltas_from x init)))).
Proof.
  induction m as [|m IH]; intros x init done mn mx k Hk Hlen.
  - destruct init; [reflexivity|discriminate].
  - destruct (exists_last (l := init)) as (init' & b & ->).
    { intros ->. discriminate. }
    rewrite length_app in Hlen. cbn in Hlen.
    assert (length init' = m) as Hlen' by lia.
    rewrite seq_S, rev_app_distr. cbn [rev app ofoldl].
    replace (1 + m)%nat with (length (x :: init')) by (cbn; lia).
    cbn [Timestamp.reduce_step].
    replace (x :: (init' ++ [b]) ++ done)
      with ((x :: init') ++ b :: done) by (cbn; rewrite <- app_assoc; reflexivity).
    rewrite insert_middle, !nth_middle'.
    replace (nth (length (x :: init') - 1) ((x :: init') ++ b :: done) 0)
      with (List.last (x :: init') 0).
    2:{ rewrite app_nth1 by (cbn; lia). symmetry. apply nth_last. }
    set (v := i64 (b - List.last (x :: init') 0)).
    rewrite shrink_pow10 by lia. cbn [mbind outcome_bind].
    pose proof (p10_le k v).
    rewrite (IH x init' (v :: done)) by lia.
    rewrite deltas_from_snoc. fold v.
    rewrite rev_app_distr. cbn [rev app foldl]. unfold common_p10. cbn [foldl].
    rewrite <- !app_assoc. cbn [app].
    repeat f_equal.
    + destruct (Z.ltb_spec v mn); [rewrite Z.min_r|rewrite Z.min_l]; lia.
    + destruct (Z.ltb_spec mx v); [rewrite Z.max_r|rewrite Z.max_l]; lia.
Qed.

Lemma rle_from_false (l : list Z) (p : Z) : rle_from p false l = false.
Proof. revert p. induction l as [|y l IH]; intros p; [reflexivity|apply IH]. Qed.

Lemma rle_from_true (l : list Z) (p : Z) :
  rle_from p true l = adjacent_equal (p :: l).
Proof.
  revert p. induction l as [|y l IH]; intros p; [reflexivity|].
  cbn [rle_from adjacent_equal andb].
  destruct (p =? y); [apply IH|apply rle_from_false].
Qed.

Lemma nth_pred_snoc {A} (pre rest : list A) (p d : A) :
  nth (length (pre ++ [p]) - 1) ((pre ++ [p]) ++ rest) d = p.
Proof.
  rewrite app_nth1 by (rewrite length_app; cbn; lia).
  rewrite length_app. cbn [length].
  replace (length pre + 1 - 1)%nat with (length pre) by lia.
  apply nth_middle.
Qed.

(** The scaling loop from an index [>= 2] on: [pre ++ [p]] is done, [post]
    is to do. *)
Lemma scale_loop (mn md : Z) (post : list Z) :
  forall (pre : list Z) (p : Z) (rle : bool),
    (1 <= length pre)%nat ->
    foldl (scale_step mn md) ((pre ++ [p]) ++ post, rle)
          (seq (length (pre ++ [p])) (length post))
    = ((pre ++ [p]) ++ map (scaled mn md) post,
       rle_from p rle (map (scaled mn md) post)).
Proof.
  induction post as [|y post IH]; intros pre p rle Hpre; [reflexivity|].
  cbn [length seq foldl scale_step map rle_from].
  rewrite insert_middle, !nth_middle'.
  fold (scaled mn md y).
  rewrite nth_pred_snoc.
  destruct (Nat.eqb_spec (length (pre ++ [p])) 1) as [H1|_].
  { rewrite length_app in H1. cbn in H1. lia. }
  cbn [orb].
  replace ((pre ++ [p]) ++ scaled mn md y :: post)
    with (((pre ++ [p]) ++ [scaled mn md y]) ++ post)
    by (rewrite <- app_assoc; reflexivity).
  replace (S (length (pre ++ [p]))) with (length ((pre ++ [p]) ++ [scaled mn md y]))
    by (rewrite (length_app _ [_]); cbn; lia).
  rewrite IH by (rewrite length_app; cbn; lia).
  rewrite <- !app_assoc. reflexivity.
Qed.

Lemma scale_spec (mn md x : Z) (ds : list Z) :
  scale mn md (x :: ds)
  = (x :: map (scaled mn md) ds, adjacent_equal (map (scaled mn md) ds)).
Proof.
  unfold scale. cbn [length]. replace (S (length ds) - 1)%nat with (length ds) by lia.
  destruct ds as [|y ds]; [reflexivity|].
  cbn [length seq foldl scale_step map].
  cbn [insert list_insert nth Nat.eqb orb Nat.sub].
  fold (scaled mn md y).
  pose proof (scale_loop mn md ds [x] (scaled mn md y) true) as H.
  cbn [app length] in H. rewrite H by lia.
  rewrite rle_from_true. reflexivity.
Qed.

(** [reduce] on a non-empty buffer. *)
Lemma reduce_spec (x : Z) (rest : list Z) :
  let ds := deltas_from x rest in
  let mn := foldl Z.min x (rev ds) in
  let mx := foldl Z.max 0 (rev ds) in
  let md := 10 ^ Z.of_nat (common_p10 12 (rev ds)) in
  Timestamp.reduce (x :: rest)
  = Ret (mn, mx, md,
         adjacent_equal (map (scaled mn md) ds) && (1 <? length (x :: rest))%nat,
         x :: map (scaled mn md) ds).
Proof.
  intros ds mn mx md. unfold Timestamp.reduce.
  cbn [length]. replace (S (length rest) - 1)%nat with (length rest) by lia.
  pose proof (reduce_loop (length rest) x rest [] x 0 12) as H.
  rewrite !app_nil_r in H. change (10 ^ 12) with (10 ^ Z.of_nat 12).
  rewrite H by lia. cbn [mbind outcome_bind].
  fold ds. fold mn mx md. rewrite scale_spec.
  cbn [length]. rewrite length_map. unfold ds. rewrite length_deltas_from.
  reflexivity.
Qed.

(** ** The divisor, the minimum and the maximum *)

Lemma common_p10_is_common (vs : list Z) :
  is_common_pow10 (10 ^ Z.of_nat (common_p10 12 vs)) vs.
Proof.
  exists (common_p10 12 vs).
  split; [apply common_p10_le|]. split; [reflexivity|].
  split; [apply common_p10_divide|].
  intros e' He' Hall. apply pow10_le, common_p10_greatest; assumption.
Qed.

Lemma is_common_pow10_perm (d : Z) (vs ws : list Z) :
  vs ≡ₚ ws -> is_common_pow10 d vs -> is_common_pow10 d ws.
Proof.
  intros Hp (e & He & Hd & Hall & Hmax). exists e.
  split; [exact He|]. split; [exact Hd|].
  split; [rewrite <- Hp; exact Hall|].
  intros e' He' Hall'. apply Hmax; [exact He'|rewrite Hp; exact Hall'].
Qed.

Lemma is_common_pow10_range (d : Z) (vs : list Z) :
  is_common_pow10 d vs -> 1 <= d <= 10 ^ 12 /\ d <> 0.
Proof.
  intros (e & He & -> & _).
  pose proof (pow10_le 0 e ltac:(lia)) as H0.
  pose proof (pow10_le e 12 He) as H12.
  change (10 ^ Z.of_nat 0) with 1 in H0.
  change (10 ^ Z.of_nat 12) with (10 ^ 12) in H12. lia.
Qed.

(** C7.  For every sequence of length at least 1, [reference10] returns a
    divisor that is a power of ten between [1] and [10^12], divides every
    element at the indices from 1 on, and is the largest power of ten up to
    [10^12] that does; it is never 0.  The same holds for the divisor that
    [reduce] of the timestamp encoder computes for the differences of its
    buffer. *)
Theorem C7_reference10_divisor (src : list Z) :
  (1 <= length src)%nat ->
  (exists min max divisor,
      Delta.reference10 src = Ret (min, max, divisor)
      /\ 1 <= divisor <= 10 ^ 12 /\ divisor <> 0
      /\ is_common_pow10 divisor (drop 1 src))
  /\ (exists min max divisor rle deltas,
         Timestamp.reduce src = Ret (min, max, divisor, rle, deltas)
         /\ 1 <= divisor <= 10 ^ 12 /\ divisor <> 0
         /\ is_common_pow10 divisor (deltas_of src)).
Proof.
  intros Hlen. destruct src as [|x rest]; [simpl in Hlen; lia|].
  split.
  - rewrite reference10_spec. do 3 eexists. split; [reflexivity|].
    pose proof (common_p10_is_common rest) as H.
    split; [apply (is_common_pow10_range _ rest H)|].
    split; [apply (is_common_pow10_range _ rest H)|exact H].
  - rewrite reduce_spec. do 5 eexists. split; [reflexivity|].
    cbn [deltas_of].
    pose proof (common_p10_is_common (rev (deltas_from x rest))) as H.
    split; [apply (is_common_pow10_range _ _ H)|].
    split; [apply (is_common_pow10_range _ _ H)|].
    apply (is_common_pow10_perm _ (rev (deltas_from x rest))); [|exact H].
    symmetry. apply Permutation_rev.
Qed.

Lemma C7_reference10_divisor_witness :
  (exists min max divisor,
      Delta.reference10 [7; 3000; -200; 0] = Ret (min, max, divisor)
      /\ 1 <= divisor <= 10 ^ 12 /\ divisor <> 0
      /\ is_common_pow10 divisor (drop 1 [7; 3000; -200; 0]))
  /\ (exists min max divisor rle deltas,
         Timestamp.reduce [7; 3000; -200; 0] = Ret (min, max, divisor, rle, deltas)
         /\ 1 <= divisor <= 10 ^ 12 /\ divisor <> 0
         /\ is_common_pow10 divisor (deltas_of [7; 3000; -200; 0])).
Proof.
  apply (C7_reference10_divisor [7; 3000; -200; 0]). simpl. lia.
Defined.

(** What [reference10] and [reduce] return as minimum and maximum: the
    maximum is taken over the elements after the first, starting from 0;
    the minimum is taken over all the elements, the first included. *)
Lemma reference10_min_max (first : Z) (rest : list Z) :
  exists divisor,
    Delta.reference10 (first :: rest)
    = Ret (foldl Z.min first rest, foldl Z.max 0 rest, divisor).
Proof. rewrite reference10_spec. eauto. Qed.

(** C6.  On the delta-encoded sequence [3, 10, 10], whose elements after
    the first are both 10, [reference10] returns the minimum 3, the element
    at index 0, and not 10; [reduce] does the same on the timestamps
    [3, 13, 23].  The maximum, 10, is the largest of the elements after the
    first.  With the minimum 3 and the divisor 10 the scaled differences
    are [(10 - 3) / 10 = 0], and the inverse transform returns [3, 6, 9]:
    [FORDelta10] followed by [InverseFORDelta10], and the Packed frame of
    the timestamp codec, do not give the input back. *)
Theorem C6_min_takes_first_element :
  Delta.reference10 [3; 10; 10] = Ret (3, 10, 10)
  /\ Timestamp.reduce [3; 13; 23] = Ret (3, 10, 10, true, [3; 0; 0])
  /\ Delta.FORDelta10 [3; 13; 23] = Ret (3, 10, 10, true, [3; 0; 0])
  /\ Delta.InverseFORDelta10 3 10 [3; 0; 0] = [3; 6; 9]
  /\ (b ← Timestamp.Bytes [3; 13; 23]; Timestamp.decode (2 ^ 48) b) = Ret [3; 6; 9].
Proof. repeat split; vm_compute; reflexivity. Qed.

(** ** The streaming encoder refines its abstract machine *)

Lemma length_PutUint64 (w : Z) : length (Binary.PutUint64 w) = 8%nat.
Proof. reflexivity. Qed.

Lemma wf_enc_pending_length (e : Simple8b.Encoder) :
  wf_enc e -> length (pending e) = (Simple8b.t e - Simple8b.h e)%nat.
Proof.
  intros (Hbuf & Hht & _). unfold pending.
  rewrite length_take, length_drop. lia.
Qed.

Lemma wf_enc_pending_nil (e : Simple8b.Encoder) :
  wf_enc e -> (pending e = [] <-> Simple8b.t e = 0%nat).
Proof.
  intros Hwf. pose proof (wf_enc_pending_length e Hwf) as Hlen.
  destruct Hwf as (Hbuf & Hht & Hne & _).
  split.
  - intros H. rewrite H in Hlen. simpl in Hlen. lia.
  - intros H. apply length_zero_iff_nil. lia.
Qed.

Lemma NewEncoder_wf : wf_write Simple8b.NewEncoder.
Proof.
  repeat split; cbn; try lia. exists 16%nat. reflexivity.
Qed.

(** [flush] with something pending: one step of [Encode] on the pending
    values. *)
Lemma flush_spec (e : Simple8b.Encoder) :
  wf_enc e -> pending e <> [] ->
  match Simple8b.Encode (pending e) with
  | (w, n, None) =>
      exists e', Simple8b.flush e = Ret e'
        /\ wf_enc e'
        /\ pending e' = drop n (pending e)
        /\ written e' = written e ++ Binary.PutUint64 w
        /\ Simple8b.buf e' = Simple8b.buf e
        /\ ((Simple8b.h e' = 0%nat /\ Simple8b.t e' = 0%nat
             /\ n = length (pending e))
            \/ (Simple8b.h e' = (Simple8b.h e + n)%nat
                /\ Simple8b.t e' = Simple8b.t e
                /\ (n < length (pending e))%nat))
  | (_, _, Some er) => Simple8b.flush e = Fail er
  end.
Proof.
  intros Hwf Hne.
  pose proof (wf_enc_pending_length e Hwf) as Hplen.
  assert (Simple8b.t e <> 0%nat) as Ht.
  { intros H. apply Hne. apply wf_enc_pending_nil; assumption. }
  destruct Hwf as (Hbuf & Hht & Hhlt & k & Hbytes).
  unfold Simple8b.flush.
  destruct (Nat.eqb_spec (Simple8b.t e) 0) as [|_]; [contradiction|].
  destruct (Nat.leb_spec (Simple8b.h e) (Simple8b.t e)) as [_|]; [|lia].
  destruct (Nat.leb_spec (Simple8b.t e) (length (Simple8b.buf e))) as [_|]; [|lia].
  cbn [andb negb]. fold (pending e).
  destruct (Simple8b.Encode (pending e)) as [[w n] [er|]] eqn:HE; [reflexivity|].
  pose proof (Encode_consumes _ _ _ Hne HE) as Hn.
  set (b' := Binary.PutUint64 w).
  assert (written e ++ b'
          = take (if (length (Simple8b.bytes e) <? Simple8b.bp e + 8)%nat
                  then length (Simple8b.bytes e ++ b')
                  else (Simple8b.bp e + 8)%nat)
                 (if (length (Simple8b.bytes e) <? Simple8b.bp e + 8)%nat
                  then Simple8b.bytes e ++ b'
                  else take (Simple8b.bp e) (Simple8b.bytes e) ++ b'
                       ++ drop (Simple8b.bp e + 8) (Simple8b.bytes e))) as Hw.
  { unfold written.
    destruct (Nat.ltb_spec (length (Simple8b.bytes e)) (Simple8b.bp e + 8)).
    - rewrite firstn_all. rewrite take_ge by lia. reflexivity.
    - rewrite app_assoc. rewrite take_app_length'; [reflexivity|].
      rewrite length_app, length_take. unfold b'. rewrite length_PutUint64. lia. }
  assert (exists k',
             length (if (length (Simple8b.bytes e) <? Simple8b.bp e + 8)%nat
                     then Simple8b.bytes e ++ b'
                     else take (Simple8b.bp e) (Simple8b.bytes e) ++ b'
                          ++ drop (Simple8b.bp e + 8) (Simple8b.bytes e))
             = ((if (length (Simple8b.bytes e) <? Simple8b.bp e + 8)%nat
                 then length (Simple8b.bytes e ++ b')
                 else (Simple8b.bp e + 8)%nat) + 8 * k')%nat) as Hk.
  { destruct (Nat.ltb_spec (length (Simple8b.bytes e)) (Simple8b.bp e + 8)).
    - exists 0%nat. lia.
    - exists (k - 1)%nat.
      rewrite !length_app, length_take, length_drop. unfold b'.
      rewrite length_PutUint64. lia. }
  destruct (Nat.eqb_spec (Simple8b.h e + n) (Simple8b.t e)) as [Heq|Hneq].
  - eexists. split; [reflexivity|].
    split; [repeat split; cbn; try lia; exact Hk|].
    split; [|split; [symmetry; exact Hw|split; [reflexivity|left; cbn; lia]]].
    unfold pending at 1. cbn. symmetry. apply drop_ge. lia.
  - eexists. split; [reflexivity|].
    split; [repeat split; cbn; try lia; exact Hk|].
    split; [|split; [symmetry; exact Hw|split; [reflexivity|right; cbn; lia]]].
    unfold pending. cbn.
    rewrite <- drop_drop, take_drop_commute. do 2 f_equal. lia.
Qed.

Lemma flush_idle (e : Simple8b.Encoder) :
  Simple8b.t e = 0%nat -> Simple8b.flush e = Ret e.
Proof. intros H. unfold Simple8b.flush. rewrite H. reflexivity. Qed.

Lemma wf_write_pending (e : Simple8b.Encoder) :
  wf_write e -> pending e = take (Simple8b.t e) (Simple8b.buf e)
                /\ length (pending e) = Simple8b.t e.
Proof.
  intros [Hwf Hh]. pose proof (wf_enc_pending_length e Hwf) as Hlen.
  unfold pending in *. rewrite Hh in *. rewrite Nat.sub_0_r in *.
  rewrite drop_0 in *. auto.
Qed.

(** Storing [v] behind the pending values. *)
Lemma append_spec (e : Simple8b.Encoder) (v : Z) :
  wf_write e -> (Simple8b.t e < 240)%nat ->
  let e' := Simple8b.mkEncoder (<[Simple8b.t e := v]> (Simple8b.buf e))
              (Simple8b.h e) (Simple8b.t e + 1)
              (Simple8b.bp e) (Simple8b.bytes e) (Simple8b.b e) in
  wf_write e' /\ written e' = written e /\ pending e' = pending e ++ [v].
Proof.
  intros Hw Ht e'.
  destruct (wf_write_pending e Hw) as [Hp _].
  destruct Hw as [(Hbuf & Hht & Hhlt & Hk) Hh].
  split; [|split; [reflexivity|]].
  - repeat split; cbn; try lia; [rewrite length_insert; lia|exact Hk].
  - rewrite Hp. unfold pending, e'. cbn. rewrite Hh, Nat.sub_0_r, drop_0.
    replace (Simple8b.t e + 1)%nat with (S (Simple8b.t e)) by lia.
    apply take_S_insert. lia.
Qed.

Lemma Write_sim (e : Simple8b.Encoder) (v : Z) :
  wf_write e ->
  match a_write (written e, pending e) v with
  | ((out', pend'), true) =>
      exists e', Simple8b.Write e v = Ret e' /\ wf_write e'
                 /\ written e' = out' /\ pending e' = pend'
  | (_, false) => Simple8b.Write e v = Fail ErrValueOutOfBounds
  end.
Proof.
  intros Hw. destruct (wf_write_pending e Hw) as [Hp Hplen].
  pose proof Hw as [(Hbuf & Hht & Hhlt & Hk) Hh].
  unfold a_write. rewrite Hplen.
  destruct (Nat.ltb_spec (Simple8b.t e) 240) as [Hlt|Hge].
  - destruct (append_spec e v Hw Hlt) as (Hw' & Hwr & Hpe).
    eexists. split; [|split; [exact Hw'|split; [exact Hwr|exact Hpe]]].
    assert ((length (Simple8b.buf e) <=? Simple8b.t e)%nat = false) as Hleb
      by (apply Nat.leb_gt; lia).
    unfold Simple8b.Write. do 3 (rewrite ?Hleb; cbv beta iota zeta).
    reflexivity.
  - assert (Simple8b.t e = 240%nat) as Ht by lia.
    assert (pending e <> []) as Hne.
    { intros H. rewrite H in Hplen. simpl in Hplen. lia. }
    pose proof (flush_spec e (proj1 Hw) Hne) as Hf.
    assert ((length (Simple8b.buf e) <=? Simple8b.t e)%nat = true) as Hleb
      by (apply Nat.leb_le; lia).
    unfold Simple8b.Write. rewrite Hleb.
    destruct (Simple8b.Encode (pending e)) as [[w n] [er|]] eqn:HE.
    { rewrite Hf. apply Encode_error in HE as (_ & _ & -> & _). reflexivity. }
    pose proof (Encode_consumes _ _ _ Hne HE) as Hn.
    destruct Hf as (e1 & Hfl & Hwf1 & Hp1 & Hwr1 & Hb1 & Hcase).
    rewrite Hfl. cbv beta iota zeta.
    destruct Hcase as [(Hh1 & Ht1 & Hnall) | (Hh1 & Ht1 & Hnlt)].
    + assert ((length (Simple8b.buf e1) <=? Simple8b.t e1)%nat = false) as Hleb1
        by (apply Nat.leb_gt; rewrite Hb1; lia).
      do 2 (rewrite ?Hleb1; cbv beta iota zeta).
      assert (wf_write e1) as Hw1 by (split; assumption).
      destruct (append_spec e1 v Hw1 ltac:(lia)) as (Hw' & Hwr' & Hpe').
      eexists. split; [reflexivity|].
      split; [exact Hw'|]. split; [congruence|]. rewrite Hpe', Hp1. reflexivity.
    + assert ((length (Simple8b.buf e1) <=? Simple8b.t e1)%nat = true) as Hleb1
        by (apply Nat.leb_le; rewrite Hb1; lia).
      rewrite Hleb1.
      set (e2 := Simple8b.shift_down e1).
      assert (length (Simple8b.buf e2) = 240%nat) as Hbuf2.
      { unfold e2, Simple8b.shift_down. cbn. rewrite Hb1.
        rewrite length_app, !length_drop. lia. }
      assert (Simple8b.t e2 = (240 - n)%nat) as Ht2.
      { unfold e2, Simple8b.shift_down. cbn. lia. }
      assert (wf_write e2 /\ written e2 = written e1 /\ pending e2 = pending e1)
        as (Hw2 & Hwr2 & Hp2).
      { destruct Hwf1 as (_ & _ & _ & Hk1).
        split; [|split; [reflexivity|]].
        - split; [|reflexivity].
          unfold wf_enc. rewrite Hbuf2, Ht2.
          change (Simple8b.h e2) with 0%nat.
          change (Simple8b.bp e2) with (Simple8b.bp e1).
          change (Simple8b.bytes e2) with (Simple8b.bytes e1).
          repeat split; try lia. exact Hk1.
        - unfold pending, e2, Simple8b.shift_down. cbn.
          rewrite Nat.sub_0_r, drop_0, Hb1.
          rewrite take_app_le by (rewrite length_drop; lia).
          rewrite take_drop_commute. reflexivity. }
      assert ((length (Simple8b.buf e2) <=? Simple8b.t e2)%nat = false) as Hleb2
        by (apply Nat.leb_gt; lia).
      rewrite Hleb2.
      destruct (append_spec e2 v Hw2 ltac:(lia)) as (Hw' & Hwr' & Hpe').
      eexists. split; [reflexivity|].
      split; [exact Hw'|]. split; [congruence|].
      rewrite Hpe', Hp2, Hp1. reflexivity.
Qed.

Lemma write_all_sim (vs : list Z) :
  forall e : Simple8b.Encoder,
    wf_write e ->
    exists e',
      Simple8b.write_all e vs
      = (Ret e', (a_write_all (written e, pending e) vs).2)
      /\ wf_write e'
      /\ (written e', pending e') = (a_write_all (written e, pending e) vs).1.
Proof.
  induction vs as [|v vs IH]; intros e Hw.
  - exists e. cbn. auto.
  - cbn [Simple8b.write_all a_write_all].
    pose proof (Write_sim e v Hw) as Hs.
    destruct (a_write (written e, pending e) v) as [[out' pend'] [|]] eqn:Ha.
    + destruct Hs as (e1 & HW & Hw1 & Hwr1 & Hp1). rewrite HW.
      destruct (IH e1 Hw1) as (e' & Hall & Hw' & Hst).
      rewrite Hwr1, Hp1 in Hall, Hst.
      destruct (a_write_all (out', pend') vs) as [s'' ok'].
      exists e'. cbn in *. auto.
    + rewrite Hs.
      assert ((out', pend') = (written e, pending e)) as Hsame.
      { unfold a_write in Ha. repeat case_match; congruence. }
      rewrite Hsame.
      destruct (IH e Hw) as (e' & Hall & Hw' & Hst).
      destruct (a_write_all (written e, pending e) vs) as [s'' ok'].
      exists e'. rewrite Hall. cbn in *. auto.
Qed.

Lemma Bytes_loop_sim (fuel : nat) :
  forall e : Simple8b.Encoder,
    wf_enc e ->
    (r ← Simple8b.Bytes_loop fuel e; Ret r.2)
    = a_drain fuel (written e) (pending e).
Proof.
  induction fuel as [|fuel IH]; intros e Hwf.
  - cbn [Simple8b.Bytes_loop].
    destruct (Nat.eqb_spec (Simple8b.t e) 0) as [Ht|Ht].
    + apply (wf_enc_pending_nil e Hwf) in Ht. rewrite Ht. reflexivity.
    + destruct (pending e) eqn:Hp; [|reflexivity].
      apply (wf_enc_pending_nil e Hwf) in Hp. contradiction.
  - cbn [Simple8b.Bytes_loop].
    destruct (Nat.eqb_spec (Simple8b.t e) 0) as [Ht|Ht].
    + apply (wf_enc_pending_nil e Hwf) in Ht. rewrite Ht. reflexivity.
    + assert (pending e <> []) as Hne.
      { intros Hp. apply (wf_enc_pending_nil e Hwf) in Hp. contradiction. }
      pose proof (flush_spec e Hwf Hne) as Hf.
      destruct (pending e) as [|x rest] eqn:Hp; [contradiction|].
      cbn [a_drain].
      destruct (Simple8b.Encode (x :: rest)) as [[w n] [er|]].
      * rewrite Hf. reflexivity.
      * destruct Hf as (e1 & Hfl & Hwf1 & Hp1 & Hwr1 & _).
        rewrite Hfl, (IH e1 Hwf1), Hwr1, Hp1. reflexivity.
Qed.

Lemma Bytes_sim (e : Simple8b.Encoder) :
  wf_enc e ->
  (r ← Simple8b.Bytes e; Ret r.2) = a_drain 241 (written e) (pending e).
Proof.
  intros Hwf. unfold Simple8b.Bytes.
  destruct Hwf as (Hbuf & Hrest). rewrite Hbuf.
  apply Bytes_loop_sim. split; assumption.
Qed.

(** ** When [Encode] fails *)




(** The values [Encode] consumes are in range. *)
Lemma Encode_consumed_in_range (src : list Z) (w : Z) (n : nat) :
  Simple8b.Encode src = (w, n, None) ->
  Forall (fun v => v <= Simple8b.MaxValue) (take n src).
Proof.
  rewrite Encode_table_eq. unfold Encode_table. rewrite MaxValue_eq.
  destruct (Simple8b.canPack src 240 0) eqn:H240.
  { intros [= <- <-]. apply canPack_ones in H240 as [_ H].
    apply Forall_take. eapply Forall_impl; [exact H|]. intros v <-. lia. }
  destruct (Simple8b.canPack src 120 0) eqn:H120.
  { intros [= <- <-]. apply canPack_ones in H120 as [_ H].
    apply Forall_take. eapply Forall_impl; [exact H|]. intros v <-. lia. }
  destruct (find (accepts src) rows) as [r|] eqn:Hf.
  - intros [= <- <-]. apply find_accepts_row in Hf as [Hok Hacc].
    destruct Hok as (Hb & Hn & Hfit & _).
    apply canPack_bits in Hacc as [_ Hall]; [|lia].
    eapply Forall_impl; [exact Hall|]. intros v Hv. cbn beta in Hv.
    assert (2 ^ r.2 <= 2 ^ 60) by (apply Z.pow_le_mono_r; nia). lia.
  - destruct (0 <? length src)%nat; intros [= <- <-]; constructor.
Qed.

(** ** The abstract machine *)

Lemma words_bytes_cons (w : Z) (ws : list Z) :
  words_bytes (w :: ws) = Binary.PutUint64 w ++ words_bytes ws.
Proof. reflexivity. Qed.

Lemma words_bytes_app (ws1 ws2 : list Z) :
  words_bytes (ws1 ++ ws2) = words_bytes ws1 ++ words_bytes ws2.
Proof. unfold words_bytes. rewrite map_app, concat_app. reflexivity. Qed.

Lemma encodes_exists (n : nat) :
  forall xs, (length xs <= n)%nat -> valid xs -> exists ws, encodes xs ws.
Proof.
  induction n as [|n IH]; intros xs Hlen Hv.
  - destruct xs; [|simpl in Hlen; lia]. exists []. constructor.
  - destruct xs as [|x rest] eqn:Hxs; [exists []; constructor|].
    rewrite <- Hxs in *. assert (xs <> []) as Hne by (rewrite Hxs; discriminate).
    destruct (Encode_valid xs Hv) as (w & k & HE).
    pose proof (Encode_consumes xs w k Hne HE) as Hk.
    destruct (IH (drop k xs)) as [ws Hws].
    { rewrite length_drop. lia. }
    { apply valid_drop, Hv. }
    exists (w :: ws). econstructor; eassumption.
Qed.

Lemma encodes_bulk (xs ws : list Z) :
  encodes xs ws -> forall fuel, (length xs <= fuel)%nat -> bulk fuel xs = Ret ws.
Proof.
  induction 1 as [|xs w n ws Hne HE Hrest IH]; intros fuel Hfuel.
  - destruct fuel; reflexivity.
  - pose proof (Encode_consumes xs w n Hne HE) as Hn.
    destruct xs as [|x rest]; [congruence|].
    destruct fuel as [|fuel]; [simpl in Hfuel; lia|].
    cbn [bulk]. rewrite HE. rewrite IH; [reflexivity|].
    rewrite length_drop. simpl in *. lia.
Qed.

Lemma a_drain_encodes (pend ws : list Z) :
  encodes pend ws ->
  forall fuel out, (length pend <= fuel)%nat ->
    a_drain fuel out pend = Ret (out ++ words_bytes ws).
Proof.
  induction 1 as [|xs w n ws Hne HE Hrest IH]; intros fuel out Hfuel.
  - destruct fuel; cbn; rewrite app_nil_r; reflexivity.
  - pose proof (Encode_consumes xs w n Hne HE) as Hn.
    destruct xs as [|x rest]; [congruence|].
    destruct fuel as [|fuel]; [simpl in Hfuel; lia|].
    cbn [a_drain]. rewrite HE. rewrite IH.
    + rewrite words_bytes_cons, app_assoc. reflexivity.
    + rewrite length_drop. simpl in *. lia.
Qed.

Lemma has_too_big_drop (src : list Z) (w : Z) (n : nat) :
  Simple8b.Encode src = (w, n, None) -> has_too_big src ->
  has_too_big (drop n src).
Proof.
  intros HE (x & Hin & Hx). exists x. split; [|exact Hx].
  rewrite <- (take_drop n src) in Hin. apply elem_of_app in Hin as [Hin|Hin];
    [|exact Hin].
  apply Encode_consumed_in_range in HE. rewrite Forall_forall in HE.
  specialize (HE x Hin). cbn beta in HE. lia.
Qed.

Lemma a_drain_too_big (fuel : nat) :
  forall out pend, (length pend <= fuel)%nat -> has_too_big pend ->
    a_drain fuel out pend = Fail ErrValueOutOfBounds.
Proof.
  induction fuel as [|fuel IH]; intros out pend Hfuel Hbad.
  - destruct pend; [|simpl in Hfuel; lia].
    destruct Hbad as (x & Hin & _). inversion Hin.
  - destruct pend as [|x rest] eqn:Hp.
    { destruct Hbad as (y & Hin & _). inversion Hin. }
    rewrite <- Hp in *. assert (pend <> []) as Hne by (rewrite Hp; discriminate).
    rewrite Hp at 1. cbn [a_drain]. rewrite <- Hp.
    destruct (Simple8b.Encode pend) as [[w n] [er|]] eqn:HE.
    + apply Encode_error in HE as (_ & _ & -> & _). reflexivity.
    + pose proof (Encode_consumes pend w n Hne HE) as Hn.
      apply IH; [rewrite length_drop; lia|].
      eapply has_too_big_drop; eassumption.
Qed.

(** ** Streaming against bulk *)

Lemma bool_eq_iff (a b : bool) : (a = true <-> b = true) -> a = b.
Proof.
  destruct a, b; intros [H1 H2]; try reflexivity.
  - symmetry. apply H1. reflexivity.
  - apply H2. reflexivity.
Qed.

Lemma find_ext_in {A} (f g : A -> bool) (l : list A) :
  (forall x, In x l -> f x = g x) -> find f l = find g l.
Proof.
  induction l as [|a l IH]; intros H; [reflexivity|].
  cbn [find]. rewrite <- (H a) by (left; reflexivity).
  destruct (f a); [reflexivity|]. apply IH. intros x Hx. apply H. right. exact Hx.
Qed.

(** With 240 values in hand [Encode] does not look further, unless they are
    all ones. *)
Lemma Encode_prefix (p r : list Z) :
  (240 <= length p)%nat ->
  (Forall (eq 1) p -> Forall (eq 1) (p ++ r)) ->
  Simple8b.Encode (p ++ r) = Simple8b.Encode p.
Proof.
  intros Hlen Hones. rewrite !Encode_table_eq. unfold Encode_table.
  assert (forall n, (n <= 240)%nat ->
            Simple8b.canPack (p ++ r) n 0 = Simple8b.canPack p n 0) as H0.
  { intros n Hn. apply bool_eq_iff. rewrite !canPack_ones, length_app.
    split.
    - intros [_ H]. split; [lia|]. apply Forall_app in H as [H _]. exact H.
    - intros [_ H]. split; [lia|]. auto. }
  rewrite !H0 by lia.
  assert (find (accepts (p ++ r)) rows = find (accepts p) rows) as ->.
  { apply find_ext_in. intros x Hx.
    pose proof rows_ok as Hok. rewrite Forall_forall in Hok.
    apply list_elem_of_In, Hok in Hx. destruct Hx as (Hb & Hn & Hfit & _).
    unfold accepts. apply bool_eq_iff.
    rewrite !canPack_bits by lia. rewrite length_app.
    rewrite take_app_le by nia. split; intros [? ?]; split; auto; nia. }
  destruct (Simple8b.canPack p 240 0); [reflexivity|].
  destruct (Simple8b.canPack p 120 0); [reflexivity|].
  destruct (find (accepts p) rows) as [x|] eqn:Hf.
  - apply find_accepts_small in Hf. rewrite take_app_le by lia. reflexivity.
  - rewrite length_app.
    destruct (Nat.ltb_spec 0 (length p + length r)); [|lia].
    destruct (Nat.ltb_spec 0 (length p)); [reflexivity|lia].
Qed.

Lemma ones_closed_drop (xs : list Z) (n : nat) :
  ones_closed xs -> ones_closed (drop n xs).
Proof.
  intros H k Hk. rewrite length_drop in Hk. rewrite !drop_drop.
  apply H. lia.
Qed.

Lemma ones_closed_short (xs : list Z) :
  (length xs <= 240)%nat -> ones_closed xs.
Proof.
  intros Hlen k Hk. assert (k = 0)%nat as -> by lia.
  rewrite drop_0. rewrite take_ge by lia. auto.
Qed.

(** Writing [vs] behind [pend] produces a first part of the words of the
    bulk encoder for [pend ++ vs] and leaves pending what the rest of them
    encode. *)
Lemma a_write_all_encodes (vs : list Z) :
  forall out pend ws,
    (length pend <= 240)%nat ->
    ones_closed (pend ++ vs) ->
    encodes (pend ++ vs) ws ->
    exists ws1 ws2 pend',
      a_write_all (out, pend) vs = ((out ++ words_bytes ws1, pend'), true)
      /\ ws = ws1 ++ ws2
      /\ encodes pend' ws2
      /\ (length pend' <= 240)%nat.
Proof.
  induction vs as [|v vs IH]; intros out pend ws Hlen Hclosed Henc.
  - rewrite app_nil_r in Henc. exists [], ws, pend. cbn.
    rewrite app_nil_r. auto.
  - cbn [a_write_all a_write].
    destruct (Nat.ltb_spec (length pend) 240) as [Hlt|Hge].
    + destruct (IH out (pend ++ [v]) ws) as (ws1 & ws2 & pend' & Ha & Hws & He & Hl).
      { rewrite length_app. cbn. lia. }
      { rewrite <- app_assoc. exact Hclosed. }
      { rewrite <- app_assoc. exact Henc. }
      exists ws1, ws2, pend'. rewrite Ha. auto.
    + assert (length pend = 240%nat) as Hl240 by lia.
      assert (Simple8b.Encode (pend ++ v :: vs) = Simple8b.Encode pend) as Hpre.
      { apply Encode_prefix; [lia|]. intros Hones.
        specialize (Hclosed 0%nat). rewrite drop_0 in Hclosed.
        apply Hclosed; [rewrite length_app; lia|].
        rewrite take_app_le by lia. rewrite take_ge by lia. exact Hones. }
      inversion Henc as [Hnil|xs w n ws' Hne HE Hrest]; subst.
      { destruct pend; discriminate. }
      rewrite Hpre in HE. rewrite HE.
      assert (pend <> []) as Hpne by (intros ->; simpl in Hl240; lia).
      pose proof (Encode_consumes pend w n Hpne HE) as Hn.
      rewrite drop_app_le in Hrest by lia.
      destruct (IH (out ++ Binary.PutUint64 w) (drop n pend ++ [v]) ws')
        as (ws1 & ws2 & pend' & Ha & Hws & He & Hl).
      { rewrite length_app, length_drop. cbn. lia. }
      { rewrite <- app_assoc. cbn [app].
        rewrite <- drop_app_le by lia. apply ones_closed_drop, Hclosed. }
      { rewrite <- app_assoc. exact Hrest. }
      exists (w :: ws1), ws2, pend'. rewrite Ha.
      rewrite words_bytes_cons, app_assoc, Hws. auto.
Qed.

(** Streaming and bulk encoding give the same bytes on an input in which
    no run of 240 ones is followed by another value. *)
Lemma stream_bulk (xs : list Z) :
  valid xs -> ones_closed xs ->
  exists e ws e',
    Simple8b.write_all Simple8b.NewEncoder xs = (Ret e, true)
    /\ Simple8b.Bytes e = Ret (e', words_bytes ws)
    /\ Simple8b.EncodeAll xs = Ret ws.
Proof.
  intros Hv Hclosed.
  destruct (encodes_exists (length xs) xs (Nat.le_refl _) Hv) as [ws Henc].
  destruct (write_all_sim xs Simple8b.NewEncoder NewEncoder_wf)
    as (e & Hall & Hwf & Hst).
  change (written Simple8b.NewEncoder) with (@nil Z) in *.
  change (pending Simple8b.NewEncoder) with (@nil Z) in *.
  destruct (a_write_all_encodes xs [] [] ws) as (ws1 & ws2 & pend' & Ha & Hws & He & Hl).
  { simpl. lia. } { exact Hclosed. } { exact Henc. }
  rewrite Ha in Hall, Hst. cbn [fst snd app] in Hall, Hst.
  injection Hst as Hwr Hp.
  pose proof (Bytes_sim e (proj1 Hwf)) as HB.
  rewrite Hwr, Hp in HB.
  rewrite (a_drain_encodes pend' ws2 He) in HB by lia.
  rewrite <- words_bytes_app, <- Hws in HB.
  destruct (Simple8b.Bytes e) as [[e' bs]| | |] eqn:HBe; try discriminate.
  cbn in HB. injection HB as ->.
  exists e, ws, e'. split; [exact Hall|]. split; [exact HBe|].
  rewrite EncodeAll_bulk. apply encodes_bulk; [exact Henc|lia].
Qed.

(** C2, as stated, fails: 240 ones followed by a 2.  The streaming encoder
    flushes when its 240 slots are full of ones and packs them with
    selector 0; the bulk encoder sees the 2 behind them and packs the ones
    sixty at a time. *)
Lemma C2_streaming_differs_from_bulk :
  Forall (fun v => 0 <= v <= Simple8b.MaxValue) (replicate 240 1 ++ [2])
  /\ ~ streaming_equals_bulk (replicate 240 1 ++ [2]).
Proof.
  split.
  - apply Forall_app. split.
    + apply Forall_replicate. vm_compute. split; congruence.
    + constructor; [vm_compute; split; congruence|constructor].
  - intros (e & ws & e' & Hw & Hb & He).
    vm_compute in He. injection He as <-.
    vm_compute in Hw. injection Hw as <-.
    vm_compute in Hb. discriminate Hb.
Qed.

(** C2, amended.  For every list [xs] of [uint64] values, none above
    [MaxValue], in which 240 successive ones are only ever followed by
    ones: every [Write] of the values of [xs], in order, to a fresh
    streaming encoder returns [nil], and [Bytes] then returns exactly the
    words of [EncodeAll xs], each as eight big-endian bytes, in order. *)
Theorem C2_streaming_equals_bulk (xs : list Z) :
  Forall (fun v => 0 <= v <= Simple8b.MaxValue) xs ->
  ones_closed xs ->
  streaming_equals_bulk xs.
Proof. intros Hv Hc. apply stream_bulk; assumption. Qed.

Lemma C2_streaming_equals_bulk_witness :
  streaming_equals_bulk (map Z.of_nat (seq 0 30)).
Proof.
  apply (C2_streaming_equals_bulk (map Z.of_nat (seq 0 30))).
  - repeat constructor; vm_compute; congruence.
  - apply ones_closed_short. vm_compute. lia.
Defined.

(** ** Values out of range in the streaming encoder *)






Lemma Bytes_outcome (e : Simple8b.Encoder) (o : outcome (list Z)) :
  (r ← Simple8b.Bytes e; Ret r.2) = o ->
  match o with
  | Ret bs => exists e', Simple8b.Bytes e = Ret (e', bs)
  | Fail er => Simple8b.Bytes e = Fail er
  | Crash p => Simple8b.Bytes e = Crash p
  | Timeout => Simple8b.Bytes e = Timeout
  end.
Proof.
  destruct (Simple8b.Bytes e) as [[e' bs]| | |]; cbn; intros <-; eauto.
Qed.






(** ** The exactly sized destination of DecodeAll *)

Lemma Encode_ones_120 (k : nat) :
  (120 <= k < 240)%nat ->
  Simple8b.Encode (replicate k 1) = (Z.shiftl 1 60, 120%nat, None).
Proof.
  intros Hk.
  assert (Simple8b.canPack (replicate k 1) 240 0 = false) as H240.
  { apply not_true_iff_false. intros H.
    apply canPack_ones in H as [Hl _]. rewrite length_replicate in Hl. lia. }
  assert (Simple8b.canPack (replicate k 1) 120 0 = true) as H120.
  { apply canPack_ones. split; [rewrite length_replicate; lia|].
    apply Forall_replicate. reflexivity. }
  unfold Simple8b.Encode. rewrite H240, H120. reflexivity.
Qed.

(** C1.  The round trip through [EncodeAll] and [DecodeAll] fails on a
    destination of exactly the number of values: for [k] ones,
    [120 <= k < 240], [EncodeAll] returns words that start with the word
    of selector 1, whose unpacker writes 240 slots; in a destination whose
    memory holds [k] values [DecodeAll] writes behind the end of that
    memory. *)
Theorem C1_DecodeAll_overruns_exact_destination (k : nat) (mem : list Z) :
  (120 <= k < 240)%nat -> length mem = k ->
  Forall (fun v => 0 <= v <= Simple8b.MaxValue) (replicate k 1)
  /\ exists ws,
      Simple8b.EncodeAll (replicate k 1) = Ret ws
      /\ Simple8b.DecodeAll mem k ws = Crash PanicMemory.
Proof.
  intros Hk Hmem.
  assert (valid (replicate k 1)) as Hv
    by (apply Forall_replicate; rewrite MaxValue_eq; lia).
  split; [exact Hv|].
  destruct (encodes_exists k (replicate k 1)
              ltac:(rewrite length_replicate; lia) Hv) as [ws Hws].
  exists ws. split.
  { rewrite EncodeAll_bulk. apply encodes_bulk; [exact Hws|lia]. }
  inversion Hws as [Hnil|xs w n ws' Hne HE Hrest Hxs Hw].
  { destruct k; [lia|discriminate]. }
  rewrite Encode_ones_120 in HE by exact Hk. injection HE as <- <-.
  unfold Simple8b.DecodeAll. cbn [Simple8b.DecodeAll_loop].
  change (Z.shiftr (Z.shiftl 1 60) 60) with 1.
  change (16 <=? 1) with false. cbv iota.
  destruct (Nat.leb_spec k 0%nat) as [|_]; [lia|].
  change (Simple8b.unpack (Simple8b.selector_at 1) (Z.shiftl 1 60) mem 0%nat)
    with (Simple8b.store_block mem 0%nat (replicate 240 1)).
  rewrite store_block_None by (rewrite length_replicate; lia).
  reflexivity.
Qed.

Lemma C1_DecodeAll_overruns_exact_destination_witness :
  Forall (fun v => 0 <= v <= Simple8b.MaxValue) (replicate 120 1)
  /\ exists ws,
      Simple8b.EncodeAll (replicate 120 1) = Ret ws
      /\ Simple8b.DecodeAll (replicate 120 0) 120 ws = Crash PanicMemory.
Proof.
  apply (C1_DecodeAll_overruns_exact_destination 120 (replicate 120 0));
    [lia|reflexivity].
Defined.

(** ** encoding/binary *)

Lemma u64_small (x : Z) : 0 <= x < 2 ^ 64 -> u64 x = x.
Proof. intros H. unfold u64. apply Z.mod_small. exact H. Qed.

Lemma u64_range (x : Z) : 0 <= u64 x < 2 ^ 64.
Proof. unfold u64. apply Z.mod_pos_bound. lia. Qed.

Lemma i64_small (x : Z) : - 2 ^ 63 <= x < 2 ^ 63 -> i64 x = x.
Proof. intros H. unfold i64. rewrite Z.mod_small by lia. lia. Qed.

Lemma i64_u64 (x : Z) : - 2 ^ 63 <= x < 2 ^ 63 -> i64 (u64 x) = x.
Proof. intros H. unfold i64, u64. Z.div_mod_to_equations. lia. Qed.

Lemma byte_of_range (x : Z) : 0 <= Binary.byte_of x < 256.
Proof. unfold Binary.byte_of. apply Z.mod_pos_bound. lia. Qed.

Lemma byte_of_testbit (x i : Z) :
  0 <= i -> Z.testbit (Binary.byte_of x) i = (i <? 8) && Z.testbit x i.
Proof.
  intros Hi. unfold Binary.byte_of. change 256 with (2 ^ 8).
  apply Z.testbit_mod_pow2. lia.
Qed.

(** Bit [i] of the byte taken at bit [s] and put back at bit [s]. *)
Lemma byte_window_testbit (x s i : Z) :
  0 <= s -> s + 8 <= 64 -> 0 <= i ->
  Z.testbit (shl64 (Binary.byte_of (Z.shiftr x s)) s) i
  = (s <=? i) && (i <? s + 8) && Z.testbit x i.
Proof.
  intros Hs Hfit Hi. rewrite testbit_shl64 by lia.
  destruct (Z.leb_spec s i) as [Hle|Hgt].
  - rewrite byte_of_testbit, Z.shiftr_spec by lia.
    replace (i - s + s) with i by lia.
    destruct (Z.ltb_spec (i - s) 8), (Z.ltb_spec i (s + 8)), (Z.ltb_spec i 64);
      try lia; reflexivity.
  - rewrite (Z.testbit_neg_r _ (i - s)) by lia. apply andb_false_r.
Qed.

Lemma Uint64_PutUint64 (x : Z) :
  0 <= x < 2 ^ 64 -> Binary.Uint64 (Binary.PutUint64 x) = x.
Proof.
  intros Hx. unfold Binary.Uint64, Binary.PutUint64. cbn [nth].
  apply Z.bits_inj'. intros i Hi.
  rewrite !Z.lor_spec, !byte_window_testbit, byte_of_testbit by lia.
  destruct (Z.lt_ge_cases i 64) as [Hlt|Hge].
  - destruct (Z.testbit x i); [|rewrite !andb_false_r; reflexivity].
    rewrite !andb_true_r.
    repeat match goal with
           | |- context [Z.leb ?a ?b] => destruct (Z.leb_spec a b); try lia
           | |- context [Z.ltb ?a ?b] => destruct (Z.ltb_spec a b); try lia
           end; reflexivity.
  - rewrite (testbit_small x 64 i) by lia. rewrite !andb_false_r. reflexivity.
Qed.

Lemma length_put_uvarint (fuel : nat) (x : Z) :
  (1 <= length (Binary.put_uvarint fuel x) <= S fuel)%nat.
Proof.
  revert x. induction fuel as [|fuel IH]; intros x; [simpl; lia|].
  cbn [Binary.put_uvarint]. destruct (128 <=? x); [|simpl; lia].
  specialize (IH (Z.shiftr x 7)). cbn [length]. lia.
Qed.

Lemma shl64_fits (x s k : Z) :
  0 <= s -> 0 <= k -> 0 <= x < 2 ^ k -> s + k <= 64 -> shl64 x s = Z.shiftl x s.
Proof.
  intros Hs Hk Hx Hfit. unfold shl64, u64. apply Z.mod_small.
  rewrite Z.shiftl_mul_pow2 by lia. split; [nia|].
  apply Z.lt_le_trans with (2 ^ k * 2 ^ s); [nia|].
  rewrite <- Z.pow_add_r by lia. apply Z.pow_le_mono_r; lia.
Qed.

(** [Uvarint] reads back what [PutUvarint] wrote, from byte [i] on. *)
Lemma uvarint_put (fuel : nat) :
  forall (i : nat) (v acc : Z) (rest : list Z),
    (i + fuel = 9)%nat ->
    0 <= v < 2 ^ (64 - 7 * Z.of_nat i) ->
    Binary.uvarint_loop (Binary.put_uvarint fuel v ++ rest) i acc (7 * Z.of_nat i)
    = (Z.lor acc (Z.shiftl v (7 * Z.of_nat i)),
       Z.of_nat i + Z.of_nat (length (Binary.put_uvarint fuel v))).
Proof.
  induction fuel as [|fuel IH]; intros i v acc rest Hi Hv.
  - assert (i = 9%nat) as -> by lia.
    change (64 - 7 * Z.of_nat 9) with 1 in Hv. change (2 ^ 1) with 2 in Hv.
    cbn [Binary.put_uvarint app Binary.uvarint_loop length].
    unfold Binary.byte_of. rewrite (Z.mod_small v 256) by lia.
    change (9 =? Binary.MaxVarintLen64)%nat with false.
    change (9 =? Binary.MaxVarintLen64 - 1)%nat with true.
    destruct (Z.ltb_spec v 128); [|lia].
    destruct (Z.ltb_spec 1 v); [lia|]. cbn [andb].
    rewrite (shl64_fits v _ 1) by lia. reflexivity.
  - cbn [Binary.put_uvarint].
    assert (0 < 2 ^ (64 - 7 * Z.of_nat i)) by (apply Z.pow_pos_nonneg; lia).
    destruct (Z.leb_spec 128 v) as [Hbig|Hsmall].
    + cbn [app Binary.uvarint_loop length].
      destruct (Nat.eqb_spec i Binary.MaxVarintLen64) as [Hten|_];
        [unfold Binary.MaxVarintLen64 in Hten; lia|].
      assert (128 <= Z.lor (Binary.byte_of v) 128) as Hb.
      { assert (Z.testbit (Z.lor (Binary.byte_of v) 128) 7 = true) as Hbit
          by (rewrite Z.lor_spec; apply orb_true_r).
        pose proof (byte_of_range v).
        destruct (Z.lt_ge_cases (Z.lor (Binary.byte_of v) 128) 128) as [Hlt|]; [|lia].
        assert (0 <= Z.lor (Binary.byte_of v) 128) by (apply Z.lor_nonneg; lia).
        rewrite (testbit_small _ 7 7) in Hbit by lia. discriminate. }
      destruct (Z.ltb_spec (Z.lor (Binary.byte_of v) 128) 128); [lia|].
      replace (7 * Z.of_nat i + 7) with (7 * Z.of_nat (S i)) by lia.
      assert (Z.land (Z.lor (Binary.byte_of v) 128) 127 = v mod 2 ^ 7) as ->.
      { change 127 with (Z.ones 7). rewrite Z.land_ones by lia.
        apply Z.bits_inj'. intros j Hj.
        rewrite !Z.testbit_mod_pow2, Z.lor_spec, byte_of_testbit by lia.
        change 128 with (2 ^ 7). rewrite Z.pow2_bits_eqb by lia.
        destruct (Z.ltb_spec j 7); [|reflexivity].
        destruct (Z.ltb_spec j 8); [|lia].
        destruct (Z.eqb_spec 7 j); [lia|].
        cbn. rewrite orb_false_r. reflexivity. }
      rewrite (shl64_fits (v mod 2 ^ 7) _ 7)
        by (first [lia | apply Z.mod_pos_bound; lia]).
      rewrite IH; [|lia|].
      2:{ rewrite Z.shiftr_div_pow2 by lia. split; [apply Z.div_pos; lia|].
          apply Z.div_lt_upper_bound; [lia|].
          rewrite <- Z.pow_add_r by lia.
          replace (7 + (64 - 7 * Z.of_nat (S i))) with (64 - 7 * Z.of_nat i) by lia.
          lia. }
      f_equal; [|lia].
      rewrite <- Z.lor_assoc. f_equal.
      replace (7 * Z.of_nat (S i)) with (7 * Z.of_nat i + 7) by lia.
      set (s := 7 * Z.of_nat i). assert (0 <= s) by lia. clearbody s.
      apply Z.bits_inj'. intros j Hj.
      rewrite Z.lor_spec, !Z.shiftl_spec by lia.
      destruct (Z.lt_ge_cases j s) as [Hjs|Hjs].
      { rewrite !Z.testbit_neg_r by lia. reflexivity. }
      rewrite Z.testbit_mod_pow2 by lia.
      destruct (Z.ltb_spec (j - s) 7) as [Hlow|Hhigh].
      * rewrite (Z.testbit_neg_r _ (j - (s + 7))) by lia.
        cbn. rewrite orb_false_r. reflexivity.
      * rewrite Z.shiftr_spec by lia. cbn. f_equal. lia.
    + cbn [app Binary.uvarint_loop length].
      destruct (Nat.eqb_spec i Binary.MaxVarintLen64) as [Hten|_];
        [unfold Binary.MaxVarintLen64 in Hten; lia|].
      unfold Binary.byte_of. rewrite (Z.mod_small v 256) by lia.
      destruct (Z.ltb_spec v 128); [|lia].
      destruct (Nat.eqb_spec i (Binary.MaxVarintLen64 - 1)) as [Hnine|_];
        [unfold Binary.MaxVarintLen64 in Hnine; lia|].
      cbn [andb]. rewrite (shl64_fits v _ 7) by lia. f_equal; lia.
Qed.

Lemma Uvarint_PutUvarint (x : Z) (rest : list Z) :
  0 <= x < 2 ^ 64 ->
  Binary.Uvarint (Binary.PutUvarint x ++ rest)
  = (x, Z.of_nat (length (Binary.PutUvarint x))).
Proof.
  intros Hx. unfold Binary.Uvarint, Binary.PutUvarint.
  pose proof (uvarint_put 9 0 x 0 rest eq_refl) as H.
  change (7 * Z.of_nat 0) with 0 in H. change (64 - 0) with 64 in H.
  rewrite H by exact Hx. rewrite Z.shiftl_0_r, Z.lor_0_l. f_equal.
Qed.

(** ** The RLE frame *)

Lemma Log10_pow10 (e : nat) :
  (e <= 12)%nat -> Timestamp.Log10 (10 ^ Z.of_nat e) = Z.of_nat e.
Proof.
  intros He. do 13 (destruct e as [|e]; [reflexivity|]). lia.
Qed.

Lemma header_pow10 (tag : Z) (e : nat) :
  tag = Timestamp.EncodingPacked \/ tag = Timestamp.EncodingRLE
  \/ tag = Timestamp.EncodingRaw ->
  (e <= 12)%nat ->
  Z.shiftr (Timestamp.header tag (10 ^ Z.of_nat e)) 4 = tag
  /\ Z.land (Timestamp.header tag (10 ^ Z.of_nat e)) 15 = Z.of_nat e.
Proof.
  intros Htag He.
  do 13 (destruct e as [|e];
         [destruct Htag as [ -> | [ -> | -> ] ]; split; reflexivity|]).
  lia.
Qed.

Lemma p10_idem (k : nat) (v : Z) : p10 (p10 k v) v = p10 k v.
Proof.
  apply Nat.le_antisymm; [apply p10_le|].
  apply p10_greatest; [reflexivity|apply p10_divide].
Qed.

Lemma common_p10_replicate (k m : nat) (v : Z) :
  common_p10 k (replicate (S m) v) = p10 k v.
Proof.
  unfold common_p10. cbn [replicate foldl].
  induction m as [|m IH]; [reflexivity|].
  cbn [replicate foldl]. rewrite p10_idem. exact IH.
Qed.

Lemma adjacent_equal_replicate (m : nat) (c : Z) :
  adjacent_equal (replicate m c) = true.
Proof.
  induction m as [|m IH]; [reflexivity|].
  destruct m as [|m]; [reflexivity|].
  cbn [replicate adjacent_equal] in *. rewrite Z.eqb_refl. exact IH.
Qed.

Lemma progression_cons (t0 s : Z) (n : nat) :
  progression t0 s (S n)
  = t0 :: map (fun i => t0 + Z.of_nat i * s) (seq 1 n).
Proof. unfold progression. cbn [seq map]. f_equal. lia. Qed.

Lemma deltas_from_progression (t0 s : Z) (m : nat) :
  forall k : nat,
    deltas_from (t0 + Z.of_nat k * s)
                (map (fun i => t0 + Z.of_nat i * s) (seq (S k) m))
    = replicate m (i64 s).
Proof.
  induction m as [|m IH]; intros k; [reflexivity|].
  cbn [seq map deltas_from replicate]. rewrite IH. f_equal. f_equal. lia.
Qed.

Lemma sums_from_replicate (t0 s : Z) (m : nat) :
  forall k : nat,
    (forall j : nat, (j <= k + m)%nat -> - 2 ^ 63 <= t0 + Z.of_nat j * s < 2 ^ 63) ->
    sums_from (t0 + Z.of_nat k * s) (replicate m s)
    = map (fun i => t0 + Z.of_nat i * s) (seq (S k) m).
Proof.
  induction m as [|m IH]; intros k Hr; [reflexivity|].
  cbn [replicate sums_from seq map].
  replace (t0 + Z.of_nat k * s + s) with (t0 + Z.of_nat (S k) * s) by lia.
  rewrite i64_small by (apply Hr; lia).
  f_equal. apply IH. intros j Hj. apply Hr. lia.
Qed.

(** The prefix sums of the decoders, from an index [>= 1] on. *)
Lemma prefix_sum_loop (post : list Z) :
  forall (pre : list Z) (p : Z),
    foldl (fun d i => <[i := i64 (nth (i - 1) d 0 + nth i d 0)]> d)
          ((pre ++ [p]) ++ post)
          (seq (length (pre ++ [p])) (length post))
    = (pre ++ [p]) ++ sums_from p post.
Proof.
  induction post as [|y post IH]; intros pre p; [reflexivity|].
  cbn [length seq foldl sums_from].
  rewrite nth_pred_snoc, nth_middle', insert_middle.
  replace ((pre ++ [p]) ++ i64 (p + y) :: post)
    with (((pre ++ [p]) ++ [i64 (p + y)]) ++ post)
    by (rewrite <- app_assoc; reflexivity).
  replace (S (length (pre ++ [p]))) with (length ((pre ++ [p]) ++ [i64 (p + y)]))
    by (rewrite (length_app _ [_]); cbn; lia).
  rewrite IH. rewrite <- !app_assoc. reflexivity.
Qed.

Lemma prefix_sum_spec (x : Z) (ds : list Z) :
  foldl (fun d i => <[i := i64 (nth (i - 1) d 0 + nth i d 0)]> d)
        (x :: ds) (seq 1 (length (x :: ds) - 1))
  = x :: sums_from x ds.
Proof.
  cbn [length]. replace (S (length ds) - 1)%nat with (length ds) by lia.
  apply (prefix_sum_loop ds [] x).
Qed.

(** ** The RLE frame of the timestamp codec *)


Lemma header_RLE_value (e : nat) :
  (e <= 12)%nat ->
  Timestamp.header Timestamp.EncodingRLE (10 ^ Z.of_nat e) = 16 + Z.of_nat e.
Proof.
  intros He. do 13 (destruct e as [|e]; [reflexivity|]). lia.
Qed.

Lemma map_replicate {A B} (f : A -> B) (n : nat) (x : A) :
  map f (replicate n x) = replicate n (f x).
Proof. induction n as [|n IH]; [reflexivity|]. cbn. rewrite IH. reflexivity. Qed.

Lemma length_progression (t0 s : Z) (n : nat) : length (progression t0 s n) = n.
Proof. unfold progression. rewrite length_map, length_seq. reflexivity. Qed.

Lemma length_PutUvarint (x : Z) :
  (1 <= length (Binary.PutUvarint x) <= 10)%nat.
Proof. apply (length_put_uvarint 9 x). Qed.

(** [reduce] on a progression: every difference is the step. *)
Lemma reduce_progression (t0 s : Z) (m : nat) :
  - 2 ^ 63 <= s < 2 ^ 63 ->
  exists mn mx dts,
    Timestamp.reduce (progression t0 s (S (S m)))
    = Ret (mn, mx, 10 ^ Z.of_nat (p10 12 s), true, dts).
Proof.
  intros Hs. rewrite progression_cons, reduce_spec.
  pose proof (deltas_from_progression t0 s (S m) 0) as Hd.
  replace (t0 + Z.of_nat 0 * s) with t0 in Hd by lia.
  rewrite Hd, (i64_small s) by exact Hs.
  rewrite (common_p10_perm (rev (replicate (S m) s)) (replicate (S m) s))
    by (symmetry; apply Permutation_rev).
  rewrite common_p10_replicate, map_replicate, adjacent_equal_replicate.
  cbn [length]. do 3 eexists. reflexivity.
Qed.

Lemma quot_exact_div (a b : Z) : 0 < b -> (b | a) -> Z.quot a b = a / b.
Proof.
  intros Hb [q ->]. rewrite Z.quot_mul, Z.div_mul by lia. reflexivity.
Qed.

Lemma Bytes_progression (t0 s : Z) (n : nat) :
  (60 < n)%nat -> - 2 ^ 63 <= s < 2 ^ 63 -> Z.of_nat n < 2 ^ 64 ->
  Timestamp.Bytes (progression t0 s n) = Ret (rle_frame t0 s n).
Proof.
  intros Hn Hs Hn64.
  destruct n as [|[|m]]; [lia|lia|].
  unfold Timestamp.Bytes. rewrite length_progression.
  destruct (reduce_progression t0 s m ltac:(lia)) as (mn & mx & dts & Hr).
  rewrite Hr. cbn [Nat.eqb mbind outcome_bind andb].
  destruct (Nat.ltb_spec 60 (S (S m))); [|lia].
  unfold Timestamp.encodeRLE, rle_frame.
  pose proof (p10_le 12 s) as He.
  rewrite header_RLE_value by exact He.
  rewrite progression_cons. cbn [nth seq map].
  replace (t0 + Z.of_nat 1 * s - t0) with s by lia.
  rewrite (i64_small s) by lia.
  rewrite quot_exact_div by (first [apply pow10_pos | apply p10_divide]).
  rewrite (u64_small (Z.of_nat (S (S m)))) by lia.
  reflexivity.
Qed.

Lemma progression_in_range (t0 s : Z) (n j : nat) :
  - 2 ^ 63 <= t0 < 2 ^ 63 ->
  - 2 ^ 63 <= t0 + (Z.of_nat n - 1) * s < 2 ^ 63 ->
  (j <= n - 1)%nat -> (1 <= n)%nat ->
  - 2 ^ 63 <= t0 + Z.of_nat j * s < 2 ^ 63.
Proof.
  intros Hlo Hhi Hj Hn. destruct (Z.le_ge_cases 0 s); nia.
Qed.

Lemma progression_step_range (t0 s : Z) (n : nat) :
  (3 <= n)%nat ->
  - 2 ^ 63 <= t0 < 2 ^ 63 ->
  - 2 ^ 63 <= t0 + (Z.of_nat n - 1) * s < 2 ^ 63 ->
  - 2 ^ 63 <= s < 2 ^ 63.
Proof. intros Hn Hlo Hhi. nia. Qed.

Lemma rle_tag_bits (e : nat) :
  (e <= 12)%nat ->
  Z.shiftr (16 + Z.of_nat e) 4 = 1 /\ Z.land (16 + Z.of_nat e) 15 = Z.of_nat e.
Proof.
  intros He. do 13 (destruct e as [|e]; [split; reflexivity|]). lia.
Qed.

Lemma u64_mul_l (a b : Z) : u64 (u64 a * b) = u64 (a * b).
Proof. unfold u64. apply Z.mul_mod_idemp_l. lia. Qed.

(** Decoding an RLE frame: the first value, then the running sums of the
    step, on [int64]. *)
Lemma decode_rle_frame_sums (maxAlloc t0 s : Z) (n : nat) :
  (1 <= n)%nat -> - 2 ^ 63 <= s < 2 ^ 63 ->
  - 2 ^ 63 <= t0 < 2 ^ 63 ->
  Z.of_nat n < 2 ^ 63 -> Z.of_nat n * 8 <= maxAlloc ->
  Timestamp.decode maxAlloc (rle_frame t0 s n)
  = Ret (t0 :: sums_from t0 (replicate (n - 1) s)).
Proof.
  intros Hn Hs Hlo Hn63 Halloc.
  pose proof (p10_le 12 s) as He.
  pose proof (pow10_pos (p10 12 s)) as Hpos.
  destruct (rle_tag_bits (p10 12 s) He) as [Htag Hexp].
  destruct (p10_divide 12 s) as [q Hq].
  assert (s / 10 ^ Z.of_nat (p10 12 s) = q) as Hdiv.
  { rewrite Hq at 1. apply Z.div_mul. lia. }
  unfold rle_frame. rewrite Hdiv.
  set (be := Binary.PutUint64 (u64 t0)).
  set (uv1 := Binary.PutUvarint (u64 q)).
  set (uv2 := Binary.PutUvarint (Z.of_nat n)).
  pose proof (length_PutUvarint (u64 q)) as Hl1. fold uv1 in Hl1.
  pose proof (length_PutUvarint (Z.of_nat n)) as Hl2. fold uv2 in Hl2.
  assert (length be = 8%nat) as Hlbe by reflexivity.
  unfold Timestamp.decode. rewrite Htag.
  change (1 =? Timestamp.EncodingRaw) with false.
  change (1 =? Timestamp.EncodingRLE) with true. cbv iota.
  unfold Timestamp.decodeRLE. rewrite Hexp.
  assert (length (16 + Z.of_nat (p10 12 s) :: be ++ uv1 ++ uv2)
          = (9 + length uv1 + length uv2)%nat) as Hlen.
  { cbn [length]. rewrite !length_app, Hlbe. lia. }
  rewrite Hlen.
  destruct (Nat.ltb_spec (9 + length uv1 + length uv2) 9) as [|_]; [lia|].
  assert (take 8 (drop 1 (16 + Z.of_nat (p10 12 s) :: be ++ uv1 ++ uv2)) = be) as ->.
  { cbn [drop]. rewrite drop_0. apply take_app_length'. exact (eq_sym Hlbe). }
  assert (drop 9 (16 + Z.of_nat (p10 12 s) :: be ++ uv1 ++ uv2) = uv1 ++ uv2) as ->.
  { change (drop 9 (?x :: ?l)) with (drop 8 l). apply drop_app_length'.
    exact (eq_sym Hlbe). }
  unfold uv1 at 1. rewrite Uvarint_PutUvarint by apply u64_range. fold uv1.
  assert (u64 (u64 q * u64 (Timestamp.Pow10 (Z.of_nat (p10 12 s)))) = u64 s) as ->.
  { unfold Timestamp.Pow10.
    assert (10 ^ Z.of_nat (p10 12 s) <= 10 ^ Z.of_nat 12) by (apply pow10_le, He).
    change (10 ^ Z.of_nat 12) with 1000000000000 in *.
    rewrite (u64_small (10 ^ _)) by lia. rewrite u64_mul_l, <- Hq. reflexivity. }
  destruct (Z.ltb_spec (9 + Z.of_nat (length uv1)) 0) as [|_]; [lia|].
  destruct (Z.ltb_spec (Z.of_nat (9 + length uv1 + length uv2))
                        (9 + Z.of_nat (length uv1))) as [|_]; [lia|].
  cbn [orb].
  assert (drop (Z.to_nat (9 + Z.of_nat (length uv1)))
               (16 + Z.of_nat (p10 12 s) :: be ++ uv1 ++ uv2) = uv2 ++ []) as ->.
  { replace (Z.to_nat (9 + Z.of_nat (length uv1))) with (S (8 + length uv1)) by lia.
    cbn [drop]. rewrite app_assoc, app_nil_r. apply drop_app_length'.
    rewrite length_app, Hlbe. reflexivity. }
  unfold uv2 at 1. rewrite Uvarint_PutUvarint by lia. fold uv2.
  destruct (Z.leb_spec (2 ^ 63) (Z.of_nat n)) as [|_]; [lia|].
  destruct (Z.ltb_spec maxAlloc (Z.of_nat n * 8)) as [|_]; [lia|].
  cbn [orb]. rewrite Nat2Z.id, length_replicate.
  destruct (Nat.eqb_spec n 0) as [|_]; [lia|].
  unfold be. rewrite Uint64_PutUint64 by apply u64_range.
  rewrite !i64_u64 by lia.
  destruct n as [|m]; [lia|].
  cbn [replicate insert list_insert].
  change (length (s :: replicate m s)) with (length (t0 :: replicate m s)).
  rewrite prefix_sum_spec. replace (S m - 1)%nat with m by lia. reflexivity.
Qed.

Lemma decode_rle_frame (maxAlloc t0 s : Z) (n : nat) :
  (2 <= n)%nat -> - 2 ^ 63 <= s < 2 ^ 63 ->
  - 2 ^ 63 <= t0 < 2 ^ 63 ->
  - 2 ^ 63 <= t0 + (Z.of_nat n - 1) * s < 2 ^ 63 ->
  Z.of_nat n < 2 ^ 63 -> Z.of_nat n * 8 <= maxAlloc ->
  Timestamp.decode maxAlloc (rle_frame t0 s n) = Ret (progression t0 s n).
Proof.
  intros Hn Hs Hlo Hhi Hn63 Halloc.
  rewrite decode_rle_frame_sums by lia.
  destruct n as [|m]; [lia|].
  rewrite progression_cons. do 2 f_equal.
  replace (S m - 1)%nat with m by lia.
  pose proof (sums_from_replicate t0 s m 0) as Hsum.
  replace (t0 + Z.of_nat 0 * s) with t0 in Hsum by lia.
  apply Hsum. intros j Hj.
  apply (progression_in_range t0 s (S m)); try lia.
Qed.


Lemma length_rle_frame (t0 s : Z) (n : nat) :
  (11 <= length (rle_frame t0 s n) <= 29)%nat.
Proof.
  unfold rle_frame. cbn [length]. rewrite !length_app.
  pose proof (length_PutUvarint (u64 (s / 10 ^ Z.of_nat (p10 12 s)))).
  pose proof (length_PutUvarint (Z.of_nat n)).
  change (length (Binary.PutUint64 (u64 t0))) with 8%nat. lia.
Qed.

Lemma progression_ends (t0 s : Z) (n : nat) :
  (1 <= n)%nat ->
  Forall (fun t => - 2 ^ 63 <= t < 2 ^ 63) (progression t0 s n) ->
  - 2 ^ 63 <= t0 < 2 ^ 63
  /\ - 2 ^ 63 <= t0 + (Z.of_nat n - 1) * s < 2 ^ 63.
Proof.
  intros Hn Hall. rewrite Forall_forall in Hall. unfold progression in Hall.
  split.
  - replace t0 with (t0 + Z.of_nat 0 * s) by lia.
    apply Hall. apply (list_elem_of_fmap_2 (fun i => t0 + Z.of_nat i * s)).
    apply elem_of_seq. lia.
  - replace (Z.of_nat n - 1) with (Z.of_nat (n - 1)) by lia.
    apply Hall. apply (list_elem_of_fmap_2 (fun i => t0 + Z.of_nat i * s)).
    apply elem_of_seq. lia.
Qed.

(** X1 (timestamp [Bytes], [encodeRLE], [decodeRLE]): more than 60 equally
    spaced [int64] timestamps, whatever the step (zero and negative steps
    included), are encoded as one RLE frame of at most 29 bytes, and
    decoding that frame returns exactly the timestamps that were written. *)
Theorem Timestamp_rle_round_trip (maxAlloc t0 s : Z) (n : nat) :
  (60 < n)%nat -> Z.of_nat n < 2 ^ 63 -> Z.of_nat n * 8 <= maxAlloc ->
  Forall (fun t => - 2 ^ 63 <= t < 2 ^ 63) (progression t0 s n) ->
  exists b,
    Timestamp.Bytes (progression t0 s n) = Ret b
    /\ (length b <= 29)%nat
    /\ Z.shiftr (nth 0 b 0) 4 = Timestamp.EncodingRLE
    /\ Timestamp.decode maxAlloc b = Ret (progression t0 s n).
Proof.
  intros Hn Hn63 Halloc Hall.
  destruct (progression_ends t0 s n ltac:(lia) Hall) as [Hlo Hhi].
  pose proof (progression_step_range t0 s n ltac:(lia) Hlo Hhi) as Hs.
  exists (rle_frame t0 s n). split; [|split; [|split]].
  - apply Bytes_progression; lia.
  - apply length_rle_frame.
  - apply (rle_tag_bits (p10 12 s)), p10_le.
  - apply decode_rle_frame; lia.
Qed.

Lemma Timestamp_rle_round_trip_witness :
  exists b,
    Timestamp.Bytes (progression 1400000000000000000 (-10000) 61) = Ret b
    /\ (length b <= 29)%nat
    /\ Z.shiftr (nth 0 b 0) 4 = Timestamp.EncodingRLE
    /\ Timestamp.decode (2 ^ 48) b
       = Ret (progression 1400000000000000000 (-10000) 61).
Proof.
  apply (Timestamp_rle_round_trip (2 ^ 48) 1400000000000000000 (-10000) 61);
    [lia | lia | lia |].
  apply Forall_forall. intros t Ht. unfold progression in Ht.
  apply list_elem_of_fmap in Ht as (i & -> & Hi). apply elem_of_seq in Hi. lia.
Defined.


(** ** The raw frame of the timestamp codec *)

Lemma length_words_bytes (ws : list Z) :
  length (words_bytes ws) = (8 * length ws)%nat.
Proof.
  induction ws as [|w ws IH]; [reflexivity|].
  rewrite words_bytes_cons, length_app, length_PutUint64, IH. cbn [length]. lia.
Qed.

(** Reading word [i] of a byte list made of eight-byte words. *)
Lemma map_blocks {A} (g : list Z -> A) (ws extra : list Z) :
  map (fun i : nat => g (take 8 (drop (i * 8) (words_bytes ws ++ extra))))
      (seq 0 (length ws))
  = map (fun w => g (Binary.PutUint64 w)) ws.
Proof.
  induction ws as [|w ws IH]; [reflexivity|].
  cbn [length seq map]. f_equal.
  rewrite <- fmap_S_seq, <- list_fmap_compose, <- IH.
  apply list_fmap_ext. intros _ i _. reflexivity.
Qed.

Lemma decodeRaw_words (maxAlloc : Z) (ts extra : list Z) :
  Forall (fun t => - 2 ^ 63 <= t < 2 ^ 63) ts -> (length extra < 8)%nat ->
  Timestamp.decodeRaw (words_bytes (map u64 ts) ++ extra) = Ret ts.
Proof.
  intros Hts Hextra. unfold Timestamp.decodeRaw. f_equal.
  assert (length (words_bytes (map u64 ts) ++ extra) / 8 = length (map u64 ts))%nat
    as ->.
  { rewrite length_app, length_words_bytes.
    rewrite (Nat.mul_comm 8), Nat.div_add_l by lia.
    rewrite (Nat.div_small (length extra)) by lia. lia. }
  rewrite (map_blocks (fun b => i64 (Binary.Uint64 b))).
  rewrite map_map. rewrite <- (map_id ts) at 2. apply map_ext_Forall.
  eapply Forall_impl; [exact Hts|]. intros t Ht. cbn beta.
  rewrite Uint64_PutUint64 by apply u64_range. apply i64_u64, Ht.
Qed.

Lemma encodeRaw_frame (ts : list Z) :
  Timestamp.encodeRaw ts = Ret (32 :: words_bytes (map u64 ts)).
Proof.
  unfold Timestamp.encodeRaw, words_bytes. rewrite map_map. reflexivity.
Qed.

Lemma decode_raw_frame (maxAlloc : Z) (ts extra : list Z) :
  Forall (fun t => - 2 ^ 63 <= t < 2 ^ 63) ts -> (length extra < 8)%nat ->
  Timestamp.decode maxAlloc (32 :: words_bytes (map u64 ts) ++ extra) = Ret ts.
Proof.
  intros Hts Hextra. unfold Timestamp.decode.
  change (Z.shiftr 32 4 =? Timestamp.EncodingRaw) with true. cbv iota.
  cbn [drop]. rewrite drop_0. apply decodeRaw_words; assumption.
Qed.

Lemma foldl_max_base (l : list Z) (m : Z) : m <= foldl Z.max m l.
Proof. revert m. induction l as [|y l IH]; intros m; cbn; [lia|].
  specialize (IH (Z.max m y)). lia. Qed.

Lemma foldl_max_ge (l : list Z) (m x : Z) : x ∈ l -> x <= foldl Z.max m l.
Proof.
  revert m. induction l as [|y l IH]; intros m Hx; [inversion Hx|].
  cbn [foldl]. apply elem_of_cons in Hx as [->|Hx].
  - pose proof (foldl_max_base l (Z.max m y)). lia.
  - apply IH, Hx.
Qed.

Lemma foldl_min_base (l : list Z) (m : Z) : foldl Z.min m l <= m.
Proof. revert m. induction l as [|y l IH]; intros m; cbn; [lia|].
  specialize (IH (Z.min m y)). lia. Qed.

Lemma foldl_min_le (l : list Z) (m x : Z) : x ∈ l -> foldl Z.min m l <= x.
Proof.
  revert m. induction l as [|y l IH]; intros m Hx; [inversion Hx|].
  cbn [foldl]. apply elem_of_cons in Hx as [->|Hx].
  - pose proof (foldl_min_base l (Z.min m y)). lia.
  - apply IH, Hx.
Qed.

Lemma Bytes_raw (ts : list Z) :
  (length ts <= 60)%nat -> has_too_big (deltas_of ts) ->
  Timestamp.Bytes ts = Ret (32 :: words_bytes (map u64 ts)).
Proof.
  intros Hlen (d & Hd & Hbig).
  destruct ts as [|x rest]; [inversion Hd|].
  unfold Timestamp.Bytes. cbn [length Nat.eqb].
  rewrite reduce_spec. cbn [mbind outcome_bind].
  destruct (Nat.ltb_spec 60 (S (length rest))) as [Hgt|_];
    [cbn [length] in Hlen; lia|].
  rewrite andb_false_r.
  cbn [deltas_of] in Hd.
  pose proof (foldl_max_ge (rev (deltas_from x rest)) 0 d
                ltac:(apply list_elem_of_In, in_rev; rewrite rev_involutive;
                      apply list_elem_of_In; exact Hd)) as Hmax.
  destruct (Z.ltb_spec Simple8b.MaxValue
              (foldl Z.max 0 (rev (deltas_from x rest)))) as [_|Hle]; [|lia].
  apply encodeRaw_frame.
Qed.

(** X2 (timestamp [Bytes], [encodeRaw], [decodeRaw]): at most 60 [int64]
    timestamps with a difference of successive values above [2^60 - 1] are
    written as a raw frame of [1 + 8 n] bytes, and decoding it returns the
    timestamps; up to seven bytes after the frame are ignored. *)
Theorem Timestamp_raw_round_trip (maxAlloc : Z) (ts extra : list Z) :
  (length ts <= 60)%nat ->
  Forall (fun t => - 2 ^ 63 <= t < 2 ^ 63) ts ->
  has_too_big (deltas_of ts) ->
  (length extra < 8)%nat ->
  exists b,
    Timestamp.Bytes ts = Ret b
    /\ length b = (1 + 8 * length ts)%nat
    /\ Z.shiftr (nth 0 b 0) 4 = Timestamp.EncodingRaw
    /\ Timestamp.decode maxAlloc (b ++ extra) = Ret ts.
Proof.
  intros Hlen Hts Hbig Hextra.
  exists (32 :: words_bytes (map u64 ts)). split; [|split; [|split]].
  - apply Bytes_raw; assumption.
  - cbn [length]. rewrite length_words_bytes, length_map. reflexivity.
  - reflexivity.
  - apply decode_raw_frame; assumption.
Qed.

Lemma Timestamp_raw_round_trip_witness :
  exists b,
    Timestamp.Bytes [0; 2 ^ 61; 2 ^ 61 + 5] = Ret b
    /\ length b = (1 + 8 * 3)%nat
    /\ Z.shiftr (nth 0 b 0) 4 = Timestamp.EncodingRaw
    /\ Timestamp.decode (2 ^ 48) (b ++ [7; 7; 7]) = Ret [0; 2 ^ 61; 2 ^ 61 + 5].
Proof.
  apply (Timestamp_raw_round_trip (2 ^ 48) [0; 2 ^ 61; 2 ^ 61 + 5] [7; 7; 7]).
  - cbn [length]. lia.
  - repeat constructor; lia.
  - exists (2 ^ 61). split; [|reflexivity].
    apply list_elem_of_here.
  - cbn [length]. lia.
Defined.


(** ** One word: Encode, Decode, Count *)

Lemma bits_above_zero (w : Z) :
  (forall p, 64 <= p -> Z.testbit w p = false) -> 0 <= w < 2 ^ 64.
Proof.
  intros Hhigh.
  assert (w = w mod 2 ^ 64) as ->.
  { apply Z.bits_inj'. intros p Hp. rewrite Z.testbit_mod_pow2 by lia.
    destruct (Z.ltb_spec p 64); [reflexivity|]. apply Hhigh. lia. }
  apply Z.mod_pos_bound. lia.
Qed.

Lemma pack_fields_range (sel bits : Z) (src : list Z) (k : nat) :
  0 < bits -> 0 <= sel < 16 ->
  (1 <= k)%nat -> Z.of_nat k * bits <= 60 ->
  (forall i, (i < k)%nat -> 0 <= nth i src 0 < 2 ^ bits) ->
  0 <= Simple8b.pack_fields sel bits k src < 2 ^ 64.
Proof.
  intros Hb Hsel Hk Hfit Hsrc. apply bits_above_zero. intros p Hp.
  rewrite pack_fields_testbit by (try lia; assumption).
  unfold field_bit.
  destruct (Z.ltb_spec p (Z.of_nat k * bits)); [lia|].
  rewrite orb_false_r, Z.shiftl_spec by lia.
  apply (testbit_small sel 4); lia.
Qed.

(** The word of [Encode] on unsigned values: its range, its selector and
    what its unpacker writes. *)
Lemma Encode_word_unsigned (src : list Z) (w : Z) (n : nat) :
  Forall (fun v => 0 <= v) src -> Simple8b.Encode src = (w, n, None) -> src <> [] ->
  let p := Simple8b.selector_at (Z.shiftr w 60) in
  0 <= w < 2 ^ 64 /\ Z.shiftr w 60 < 16 /\ Simple8b.n p = n
  /\ exists vals,
      (forall mem off, Simple8b.unpack p w mem off = Simple8b.store_block mem off vals)
      /\ take n vals = take n src
      /\ (length vals = n
          \/ (length vals = 240%nat /\ n = 120%nat /\ (120 <= length src)%nat)).
Proof.
  intros Hv. rewrite Encode_table_eq. unfold Encode_table.
  destruct (Simple8b.canPack src 240 0) eqn:H240.
  { intros [= <- <-] _. apply canPack_ones in H240 as [Hlen Hall].
    cbv zeta. replace (Z.shiftr 0 60) with 0 by reflexivity.
    split; [lia|]. split; [lia|]. split; [reflexivity|].
    exists (replicate 240 1). split; [reflexivity|].
    split; [|left; reflexivity].
    rewrite (take_all_ones src) by assumption. reflexivity. }
  destruct (Simple8b.canPack src 120 0) eqn:H120.
  { intros [= <- <-] _. apply canPack_ones in H120 as [Hlen Hall].
    cbv zeta. replace (Z.shiftr (Z.shiftl 1 60) 60) with 1 by reflexivity.
    split; [change (Z.shiftl 1 60) with (2 ^ 60); lia|].
    split; [lia|]. split; [reflexivity|].
    exists (replicate 240 1). split; [reflexivity|].
    split; [|right; split; [reflexivity|split; [reflexivity|lia]]].
    rewrite (take_all_ones src) by assumption. reflexivity. }
  destruct (find (accepts src) rows) as [r|] eqn:Hf.
  2:{ intros HE Hne. destruct src; [congruence|]. cbn in HE. discriminate. }
  intros [= <- <-] _.
  apply find_accepts_row in Hf as [Hok Hacc].
  destruct r as [[sel k] bits]. unfold row_ok in Hok. cbn [fst snd] in *.
  destruct Hok as (Hb & Hk & Hfit & Hsel & Hn & Hun).
  apply canPack_bits in Hacc as [Hlen Hsmall]; [|lia].
  assert (Forall (fun v => 0 <= v < 2 ^ bits) (take k src)) as Hrange.
  { apply Forall_take with (n := k) in Hv.
    rewrite Forall_forall in *. intros x Hx.
    specialize (Hv x Hx). specialize (Hsmall x Hx). lia. }
  assert (length (take k src) = k) as Hlk by (rewrite length_take; lia).
  assert (forall i, (i < k)%nat -> 0 <= nth i (take k src) 0 < 2 ^ bits) as Hnth.
  { intros i Hi. rewrite Forall_forall in Hrange. apply Hrange.
    apply list_elem_of_In, nth_In. lia. }
  split; [apply pack_fields_range; (try lia; assumption)|].
  rewrite pack_fields_selector by (try lia; assumption).
  split; [lia|]. split; [exact Hn|].
  exists (take k src). rewrite Hun. unfold Simple8b.unpack_n.
  rewrite unpack_pack_fields by (try lia; assumption).
  split; [reflexivity|]. split; [|left; assumption].
  rewrite take_take. f_equal. lia.
Qed.

Lemma Count_spec (w : Z) :
  Z.shiftr w 60 < 16 ->
  Simple8b.Count w = Ret (Simple8b.n (Simple8b.selector_at (Z.shiftr w 60))).
Proof.
  intros Hsel. unfold Simple8b.Count.
  destruct (Z.leb_spec 16 (Z.shiftr w 60)); [lia|]. reflexivity.
Qed.

Lemma shiftr60_u64 (w : Z) : 0 <= w < 2 ^ 64 -> 0 <= Z.shiftr w 60 < 16.
Proof.
  intros Hw. rewrite Z.shiftr_div_pow2 by lia. split.
  - apply Z.div_pos; lia.
  - apply Z.div_lt_upper_bound; lia.
Qed.

(** X3 ([simple8b.Encode], [Decode], [Count]): when [Encode] packs [n]
    values of a non-empty slice of [uint64]s into a word, [Count] of the
    word is [n], and [Decode] of the word writes those [n] values, in
    order, at the start of its 240-slot array. *)
Theorem Encode_Decode_Count (src dst : list Z) (w : Z) (n : nat) :
  src <> [] -> Forall (fun v => 0 <= v < 2 ^ 64) src ->
  length dst = 240%nat ->
  Simple8b.Encode src = (w, n, None) ->
  (1 <= n <= length src)%nat
  /\ 0 <= w < 2 ^ 64
  /\ Simple8b.Count w = Ret n
  /\ exists dst',
      Simple8b.Decode dst w = Ret (dst', n)
      /\ length dst' = 240%nat
      /\ take n dst' = take n src.
Proof.
  intros Hne Hsrc Hdst HE.
  assert (Forall (fun v => 0 <= v) src) as Hpos
    by (eapply Forall_impl; [exact Hsrc|]; intros v Hv; cbn beta in Hv; lia).
  pose proof (Encode_consumes src w n Hne HE) as Hn.
  destruct (Encode_word_unsigned src w n Hpos HE Hne)
    as (Hw & Hsel & Hcnt & vals & Hun & Htake & Hlen).
  split; [exact Hn|]. split; [exact Hw|].
  split; [rewrite Count_spec by exact Hsel; rewrite Hcnt; reflexivity|].
  unfold Simple8b.Decode.
  destruct (Z.leb_spec 16 (Z.shiftr w 60)); [lia|].
  rewrite Hun, Hcnt.
  assert (length vals <= 240)%nat as Hfit.
  { destruct Hlen as [->|[-> _]]; [|lia].
    rewrite <- Hcnt.
    pose proof (shiftr60_u64 w Hw) as Hs.
    assert (exists k : nat, (k < 16)%nat /\ Z.shiftr w 60 = Z.of_nat k)
      as (k & Hk & ->) by (exists (Z.to_nat (Z.shiftr w 60)); lia).
    do 16 (destruct k as [|k]; [vm_compute; lia|]). lia. }
  destruct (store_block_Some dst 0 vals ltac:(lia))
    as (dst' & -> & Hl & _ & Hvals).
  exists dst'. split; [reflexivity|]. split; [lia|].
  rewrite drop_0 in Hvals. rewrite <- Htake, <- Hvals, take_take.
  f_equal. destruct Hlen as [->|[-> [-> _]]]; lia.
Qed.

Lemma Encode_Decode_Count_witness :
  (1 <= 3 <= 3)%nat
  /\ 0 <= Simple8b.pack3 [5; 1000; 70000] < 2 ^ 64
  /\ Simple8b.Count (Simple8b.pack3 [5; 1000; 70000]) = Ret 3%nat
  /\ exists dst',
      Simple8b.Decode (replicate 240 0) (Simple8b.pack3 [5; 1000; 70000])
      = Ret (dst', 3%nat)
      /\ length dst' = 240%nat
      /\ take 3 dst' = take 3 [5; 1000; 70000].
Proof.
  apply (Encode_Decode_Count [5; 1000; 70000] (replicate 240 0)).
  - discriminate.
  - repeat constructor; lia.
  - reflexivity.
  - reflexivity.
Defined.


(** ** EncodeAll as a whole; CountBytes *)

Lemma bulk_encodes (fuel : nat) :
  forall xs ws, bulk fuel xs = Ret ws -> encodes xs ws.
Proof.
  induction fuel as [|fuel IH]; intros xs ws H.
  - destruct xs; cbn in H; [|discriminate].
    injection H as <-. constructor.
  - destruct xs as [|x xs']; cbn [bulk] in H.
    { injection H as <-. constructor. }
    destruct (Simple8b.Encode (x :: xs')) as [[w n] [er|]] eqn:HE; [discriminate|].
    destruct (bulk fuel (drop n (x :: xs'))) as [ws'| | |] eqn:Hb;
      cbn in H; try discriminate.
    injection H as <-.
    apply (encodes_cons (x :: xs') w n ws'); [discriminate|exact HE|].
    apply IH, Hb.
Qed.

Lemma bulk_too_big (fuel : nat) :
  forall xs, (length xs <= fuel)%nat -> has_too_big xs ->
    bulk fuel xs = Fail ErrValueOutOfBounds.
Proof.
  induction fuel as [|fuel IH]; intros xs Hlen Hbig.
  - destruct xs; [|cbn in Hlen; lia].
    destruct Hbig as (x & Hx & _). inversion Hx.
  - destruct xs as [|x xs']; [destruct Hbig as (y & Hy & _); inversion Hy|].
    cbn [bulk].
    destruct (Simple8b.Encode (x :: xs')) as [[w n] [er|]] eqn:HE.
    + destruct (Encode_error _ _ _ _ HE) as (_ & _ & -> & _). reflexivity.
    + pose proof (Encode_consumes (x :: xs') w n ltac:(discriminate) HE) as Hn.
      rewrite IH; [reflexivity| |].
      * rewrite length_drop. cbn [length] in *. lia.
      * eapply has_too_big_drop; eassumption.
Qed.

Lemma encodes_lengths (xs ws : list Z) :
  encodes xs ws -> (length ws <= length xs <= 240 * length ws)%nat.
Proof.
  induction 1 as [|xs w n ws Hne HE _ IH]; [cbn; lia|].
  pose proof (Encode_consumes _ _ _ Hne HE) as Hn.
  rewrite length_drop in IH. cbn [length].
  assert (n <= 240)%nat; [|lia].
  revert HE. rewrite Encode_table_eq. unfold Encode_table.
  destruct (Simple8b.canPack xs 240 0); [intros [= _ <-]; lia|].
  destruct (Simple8b.canPack xs 120 0); [intros [= _ <-]; lia|].
  destruct (find (accepts xs) rows) as [r|] eqn:Hf.
  - intros [= _ <-]. apply find_accepts_small in Hf. lia.
  - destruct (0 <? length xs)%nat; intros [= _ <-]; lia.
Qed.

Lemma encodes_words_range (xs ws : list Z) :
  Forall (fun v => 0 <= v) xs -> encodes xs ws ->
  Forall (fun w => 0 <= w < 2 ^ 64) ws.
Proof.
  intros Hxs H. induction H as [|xs w n ws Hne HE _ IH]; [constructor|].
  constructor.
  - apply (Encode_word_unsigned xs w n Hxs HE Hne).
  - apply IH, Forall_drop, Hxs.
Qed.

(** X4 ([simple8b.EncodeAll]): on [uint64]s [EncodeAll] fails exactly when
    some value is above [MaxValue], wherever it stands, and then it
    returns no word at all; otherwise it returns at least one word for
    240 values and at most one word for each value. *)
Theorem EncodeAll_all_or_nothing (xs : list Z) :
  Forall (fun v => 0 <= v < 2 ^ 64) xs ->
  (has_too_big xs -> Simple8b.EncodeAll xs = Fail ErrValueOutOfBounds)
  /\ (~ has_too_big xs ->
      exists ws, Simple8b.EncodeAll xs = Ret ws
                 /\ (length ws <= length xs <= 240 * length ws)%nat
                 /\ Forall (fun w => 0 <= w < 2 ^ 64) ws).
Proof.
  intros Hxs. rewrite EncodeAll_bulk. split.
  - intros Hbig. apply bulk_too_big; [lia|exact Hbig].
  - intros Hsmall.
    assert (valid xs) as Hv.
    { unfold valid. rewrite Forall_forall in *. intros x Hx.
      specialize (Hxs x Hx).
      destruct (Z.le_gt_cases x Simple8b.MaxValue); [lia|].
      exfalso. apply Hsmall. exists x. split; [exact Hx|lia]. }
    destruct (encodes_exists (length xs) xs ltac:(lia) Hv) as [ws Hws].
    exists ws. split; [apply encodes_bulk; [exact Hws|lia]|].
    split; [apply encodes_lengths, Hws|].
    apply (encodes_words_range xs); [|exact Hws].
    eapply Forall_impl; [exact Hxs|]. intros v Hr. cbn beta in Hr. lia.
Qed.

Lemma EncodeAll_all_or_nothing_witness :
  (has_too_big [1; 2; 2 ^ 60; 3] ->
   Simple8b.EncodeAll [1; 2; 2 ^ 60; 3] = Fail ErrValueOutOfBounds)
  /\ (~ has_too_big [1; 2; 2 ^ 60; 3] ->
      exists ws, Simple8b.EncodeAll [1; 2; 2 ^ 60; 3] = Ret ws
                 /\ (length ws <= 4 <= 240 * length ws)%nat
                 /\ Forall (fun w => 0 <= w < 2 ^ 64) ws).
Proof.
  apply (EncodeAll_all_or_nothing [1; 2; 2 ^ 60; 3]).
  repeat constructor; lia.
Defined.

(** *** CountBytes *)

Lemma lor_u64 (a b : Z) :
  0 <= a < 2 ^ 64 -> 0 <= b < 2 ^ 64 -> 0 <= Z.lor a b < 2 ^ 64.
Proof.
  intros Ha Hb. apply bits_above_zero. intros p Hp.
  rewrite Z.lor_spec, (testbit_small a 64), (testbit_small b 64) by lia.
  reflexivity.
Qed.

Lemma shl64_range (x s : Z) : 0 <= shl64 x s < 2 ^ 64.
Proof. apply u64_range. Qed.

Lemma Uint64_range (bs : list Z) :
  0 <= nth 7 bs 0 < 256 -> 0 <= Binary.Uint64 bs < 2 ^ 64.
Proof.
  intros H7. unfold Binary.Uint64.
  repeat apply lor_u64; try apply shl64_range. lia.
Qed.

Lemma nth_byte (bs : list Z) (i : nat) :
  Forall (fun x => 0 <= x < 256) bs -> 0 <= nth i bs 0 < 256.
Proof.
  intros H. destruct (Nat.lt_ge_cases i (length bs)) as [Hi|Hi].
  - rewrite Forall_forall in H. apply H, list_elem_of_In, nth_In, Hi.
  - rewrite nth_overflow by lia. lia.
Qed.

Lemma selector_n_range (sel : Z) :
  0 <= sel < 16 -> (1 <= Simple8b.n (Simple8b.selector_at sel) <= 240)%nat.
Proof.
  intros Hs.
  assert (exists k : nat, (k < 16)%nat /\ sel = Z.of_nat k)
    as (k & Hk & ->) by (exists (Z.to_nat sel); lia).
  do 16 (destruct k as [|k]; [vm_compute; lia|]). lia.
Qed.

Lemma CountBytes_loop_bytes (fuel : nat) :
  forall (bs : list Z) (c : nat),
    (length bs <= 8 * fuel)%nat ->
    Forall (fun x => 0 <= x < 256) bs ->
    if (length bs mod 8 =? 0)%nat
    then exists k, Simple8b.CountBytes_loop fuel bs c = Simple8b.Counted (c + k)
                   /\ (length bs / 8 <= k <= 240 * (length bs / 8))%nat
    else Simple8b.CountBytes_loop fuel bs c
         = Simple8b.InvalidSliceLen (length bs mod 8).
Proof.
  induction fuel as [|fuel IH]; intros bs c Hlen Hbs.
  - destruct bs; [|cbn in Hlen; lia]. cbn. exists 0%nat. split; [f_equal; lia|lia].
  - destruct (Nat.leb_spec 8 (length bs)) as [Hge|Hlt].
    + assert (Simple8b.CountBytes_loop (S fuel) bs c
              = match Simple8b.Count (Binary.Uint64 (take 8 bs)) with
                | Ret k => Simple8b.CountBytes_loop fuel (drop 8 bs) (c + k)
                | Fail e => Simple8b.CountFail e
                | Crash p => Simple8b.CountCrash p
                | Timeout => Simple8b.CountTimeout
                end) as ->.
      { cbn [Simple8b.CountBytes_loop].
        destruct (Nat.leb_spec 8 (length bs)); [reflexivity|lia]. }
      pose proof (Uint64_range (take 8 bs)
                    (nth_byte _ 7 (Forall_take _ 8%nat _ Hbs))) as Hw.
      pose proof (shiftr60_u64 _ Hw) as Hsel.
      rewrite Count_spec by lia.
      pose proof (selector_n_range _ Hsel) as Hn.
      set (n0 := Simple8b.n _) in *. clearbody n0.
      specialize (IH (drop 8 bs) (c + n0)%nat).
      rewrite length_drop in IH.
      specialize (IH ltac:(lia) (Forall_drop _ 8%nat _ Hbs)).
      assert (length bs mod 8 = (length bs - 8) mod 8)%nat as Hm1.
      { replace (length bs) with ((length bs - 8) + 1 * 8)%nat at 1 by lia.
        apply Nat.Div0.mod_add. }
      assert (length bs / 8 = S ((length bs - 8) / 8))%nat as Hd1.
      { replace (length bs) with ((length bs - 8) + 1 * 8)%nat at 1 by lia.
        rewrite Nat.div_add by lia. lia. }
      rewrite Hm1, Hd1.
      destruct ((length bs - 8) mod 8 =? 0)%nat; [|exact IH].
      destruct IH as (k & -> & Hk).
      exists (n0 + k)%nat. split; [f_equal; lia|lia].
    + assert (length bs mod 8 = length bs)%nat as Hm by (apply Nat.mod_small; lia).
      rewrite Hm.
      cbn [Simple8b.CountBytes_loop].
      destruct (Nat.leb_spec 8 (length bs)); [lia|].
      destruct bs as [|x bs'].
      * cbn. exists 0%nat. split; [f_equal; lia|lia].
      * cbn [length Nat.eqb Nat.ltb Nat.leb]. reflexivity.
Qed.

(** X5 ([simple8b.CountBytes], [Count]): on a slice of bytes [CountBytes]
    never reports an invalid selector.  A length that is not a multiple of
    eight gives the error about the bytes left over, with their number;
    otherwise the count is returned, between one and 240 for each word. *)
Theorem CountBytes_outcome (bs : list Z) :
  Forall (fun x => 0 <= x < 256) bs ->
  if (length bs mod 8 =? 0)%nat
  then exists k, Simple8b.CountBytes bs = Simple8b.Counted k
                 /\ (length bs / 8 <= k <= 240 * (length bs / 8))%nat
  else Simple8b.CountBytes bs = Simple8b.InvalidSliceLen (length bs mod 8).
Proof.
  intros Hbs. unfold Simple8b.CountBytes.
  apply (CountBytes_loop_bytes (length bs) bs 0); [lia|exact Hbs].
Qed.

Lemma CountBytes_outcome_witness :
  Simple8b.CountBytes [16; 0; 0; 0; 0; 0; 0; 0; 255; 1; 2]
  = Simple8b.InvalidSliceLen 3.
Proof.
  apply (CountBytes_outcome [16; 0; 0; 0; 0; 0; 0; 0; 255; 1; 2]).
  repeat constructor; lia.
Defined.

Lemma CountBytes_loop_encodes (xs ws : list Z) :
  encodes xs ws -> Forall (fun v => 0 <= v) xs ->
  forall fuel c, (length ws <= fuel)%nat ->
    Simple8b.CountBytes_loop fuel (words_bytes ws) c
    = Simple8b.Counted (c + length xs).
Proof.
  induction 1 as [|xs w n ws Hne HE _ IH]; intros Hxs fuel c Hfuel.
  - destruct fuel; cbn; f_equal; lia.
  - destruct fuel as [|fuel]; [cbn in Hfuel; lia|].
    destruct (Encode_word_unsigned xs w n Hxs HE Hne) as (Hw & Hsel & Hcnt & _).
    pose proof (Encode_consumes _ _ _ Hne HE) as Hn.
    rewrite words_bytes_cons. cbn [Simple8b.CountBytes_loop].
    rewrite length_app, length_PutUint64.
    destruct (Nat.leb_spec 8 (8 + length (words_bytes ws))); [|lia].
    rewrite take_app_length' by (rewrite length_PutUint64; reflexivity).
    rewrite drop_app_length' by (rewrite length_PutUint64; reflexivity).
    rewrite Uint64_PutUint64 by exact Hw.
    rewrite Count_spec by exact Hsel. rewrite Hcnt.
    rewrite IH; [|apply Forall_drop, Hxs|cbn [length] in Hfuel; lia].
    rewrite length_drop. f_equal. lia.
Qed.

(** X6 ([simple8b.CountBytes] after [EncodeAll]): the bytes of the words
    that [EncodeAll] returns for a slice of [uint64]s count as many values
    as the slice has. *)
Theorem CountBytes_EncodeAll (xs ws : list Z) :
  Forall (fun v => 0 <= v < 2 ^ 64) xs ->
  Simple8b.EncodeAll xs = Ret ws ->
  Simple8b.CountBytes (words_bytes ws) = Simple8b.Counted (length xs).
Proof.
  intros Hxs HE. rewrite EncodeAll_bulk in HE. apply bulk_encodes in HE.
  unfold Simple8b.CountBytes.
  rewrite (CountBytes_loop_encodes xs ws HE).
  - reflexivity.
  - eapply Forall_impl; [exact Hxs|]. intros v Hv. cbn beta in Hv. lia.
  - rewrite length_words_bytes. lia.
Qed.

Lemma CountBytes_EncodeAll_witness :
  Simple8b.CountBytes
    (words_bytes [Simple8b.pack2 [7; 2 ^ 29]; Simple8b.pack1 [2 ^ 59]])
  = Simple8b.Counted 3.
Proof.
  apply (CountBytes_EncodeAll [7; 2 ^ 29; 2 ^ 59]).
  - repeat constructor; lia.
  - reflexivity.
Defined.


(** ** The streaming Decoder *)

Lemma encodes_chunks (xs ws : list Z) :
  Forall (fun v => 0 <= v) xs -> encodes xs ws -> chunks xs ws.
Proof.
  intros Hxs H. induction H as [|xs w n ws Hne HE _ IH]; [constructor|].
  rewrite <- (take_drop n xs) at 1.
  apply chunks_cons; [exact Hne|exact Hxs|exact HE|].
  apply IH, Forall_drop, Hxs.
Qed.

Lemma chunks_app (xs1 ws1 xs2 ws2 : list Z) :
  chunks xs1 ws1 -> chunks xs2 ws2 -> chunks (xs1 ++ xs2) (ws1 ++ ws2).
Proof.
  intros H1 H2. induction H1 as [|src rest w n ws Hne Hpos HE _ IH]; [exact H2|].
  rewrite <- app_assoc. cbn [app]. apply chunks_cons; assumption.
Qed.

Lemma Encode_count_le (src : list Z) (w : Z) (n : nat) :
  Simple8b.Encode src = (w, n, None) -> (n <= 240)%nat.
Proof.
  rewrite Encode_table_eq. unfold Encode_table.
  destruct (Simple8b.canPack src 240 0); [intros [= _ <-]; lia|].
  destruct (Simple8b.canPack src 120 0); [intros [= _ <-]; lia|].
  destruct (find (accepts src) rows) as [r|] eqn:Hf.
  - intros [= _ <-]. apply find_accepts_small in Hf. lia.
  - destruct (0 <? length src)%nat; intros [= _ <-]; lia.
Qed.

Lemma chunks_lengths (xs ws : list Z) :
  chunks xs ws -> (length ws <= length xs <= 240 * length ws)%nat.
Proof.
  induction 1 as [|src rest w n ws Hne Hpos HE _ IH]; [cbn; lia|].
  pose proof (Encode_consumes _ _ _ Hne HE) as Hn.
  pose proof (Encode_count_le _ _ _ HE) as Hn'.
  rewrite length_app, length_take. cbn [length]. lia.
Qed.

Lemma chunks_valid (xs ws : list Z) : chunks xs ws -> valid xs.
Proof.
  induction 1 as [|src rest w n ws Hne Hpos HE _ IH]; [constructor|].
  apply Forall_app. split; [|exact IH].
  pose proof (Encode_consumed_in_range _ _ _ HE) as Hle.
  apply (Forall_take _ n) in Hpos.
  rewrite Forall_forall in *. intros x Hx.
  specialize (Hle x Hx). specialize (Hpos x Hx). cbn beta in *. lia.
Qed.

Lemma chunks_words_range (xs ws : list Z) :
  chunks xs ws -> Forall (fun w => 0 <= w < 2 ^ 64) ws.
Proof.
  induction 1 as [|src rest w n ws Hne Hpos HE _ IH]; [constructor|].
  constructor; [|exact IH].
  apply (Encode_word_unsigned src w n Hpos HE Hne).
Qed.

Lemma map_i64_valid (xs : list Z) : valid xs -> map i64 xs = xs.
Proof.
  intros Hv. rewrite <- (map_id xs) at 2. apply map_ext_Forall.
  eapply Forall_impl; [exact Hv|]. intros v Hr. cbn beta in Hr.
  rewrite MaxValue_eq in Hr. apply i64_small. lia.
Qed.

(** What the streaming encoder has produced after some writes. *)
Lemma a_write_all_chunks (vs : list Z) :
  forall out pend,
    valid pend -> valid vs -> (length pend <= 240)%nat ->
    exists ws1 xs1 pend',
      a_write_all (out, pend) vs = ((out ++ words_bytes ws1, pend'), true)
      /\ chunks xs1 ws1 /\ pend ++ vs = xs1 ++ pend'
      /\ valid pend' /\ (length pend' <= 240)%nat.
Proof.
  induction vs as [|v vs IH]; intros out pend Hp Hvs Hl.
  - exists [], [], pend. cbn. rewrite !app_nil_r. repeat split; auto. constructor.
  - apply Forall_cons in Hvs as [Hv Hvs].
    cbn [a_write_all]. unfold a_write.
    destruct (Nat.ltb_spec (length pend) 240) as [Hlt|Hge].
    + destruct (IH out (pend ++ [v])) as (ws1 & xs1 & pend' & Ha & Hc & Heq & Hp' & Hl').
      { apply Forall_app. split; [exact Hp|]. repeat constructor; apply Hv. }
      { exact Hvs. }
      { rewrite length_app. cbn. lia. }
      exists ws1, xs1, pend'. rewrite Ha. cbn [andb].
      rewrite <- Heq, <- app_assoc. repeat split; auto.
    + assert (pend <> []) as Hne by (intros ->; cbn in Hge; lia).
      destruct (Encode_valid pend Hp) as (w & n & HE). rewrite HE.
      pose proof (Encode_consumes _ _ _ Hne HE) as Hn.
      destruct (IH (out ++ Binary.PutUint64 w) (drop n pend ++ [v]))
        as (ws1 & xs1 & pend' & Ha & Hc & Heq & Hp' & Hl').
      { apply Forall_app. split; [apply valid_drop, Hp|].
        repeat constructor; apply Hv. }
      { exact Hvs. }
      { rewrite length_app, length_drop. cbn. lia. }
      exists (w :: ws1), (take n pend ++ xs1), pend'. rewrite Ha. cbn [andb].
      rewrite words_bytes_cons, <- !app_assoc.
      split; [reflexivity|]. split; [|split; [|auto]].
      * apply chunks_cons; try assumption.
        eapply Forall_impl; [exact Hp|]. intros x Hx. cbn beta in Hx. lia.
      * rewrite <- Heq, <- app_assoc.
        rewrite <- (take_drop n pend) at 1. rewrite <- app_assoc. reflexivity.
Qed.

(** The bytes of the streaming encoder hold, in chunks, the values written. *)
Lemma stream_chunks (vs : list Z) :
  valid vs ->
  exists e e' ws,
    Simple8b.write_all Simple8b.NewEncoder vs = (Ret e, true)
    /\ Simple8b.Bytes e = Ret (e', words_bytes ws)
    /\ chunks vs ws.
Proof.
  intros Hv.
  destruct (write_all_sim vs Simple8b.NewEncoder NewEncoder_wf)
    as (e & Hall & Hwf & Hst).
  change (written Simple8b.NewEncoder) with (@nil Z) in *.
  change (pending Simple8b.NewEncoder) with (@nil Z) in *.
  destruct (a_write_all_chunks vs [] [])
    as (ws1 & xs1 & pend' & Ha & Hc & Heq & Hp & Hl);
    [constructor|exact Hv|simpl; lia|].
  rewrite Ha in Hall, Hst. cbn [fst snd app] in Hall, Hst, Heq.
  injection Hst as Hwr Hpe.
  destruct (encodes_exists (length pend') pend' (Nat.le_refl _) Hp) as [ws2 Hws].
  pose proof (Bytes_sim e (proj1 Hwf)) as HB.
  rewrite Hpe, Hwr in HB. rewrite (a_drain_encodes pend' ws2 Hws) in HB by lia.
  rewrite <- words_bytes_app in HB.
  apply Bytes_outcome in HB as [e' HB].
  exists e, e', (ws1 ++ ws2). split; [exact Hall|]. split; [exact HB|].
  rewrite Heq. apply chunks_app; [exact Hc|].
  apply encodes_chunks; [|exact Hws].
  eapply Forall_impl; [exact Hp|]. intros x Hx. cbn beta in Hx. lia.
Qed.

(** *** [for dec.Next() { .. dec.Read() .. }] *)

(** The values left in the buffer of the decoder are read one by one. *)
Lemma drain_buffer (k : nat) :
  forall (d : Simple8b.Decoder) (acc : list Z) (fuel : nat),
    (S (Simple8b.d_i d) + k = Simple8b.d_n d)%nat ->
    length (Simple8b.d_buf d) = 240%nat -> (Simple8b.d_n d <= 240)%nat ->
    Timestamp.drain (k + fuel) d acc
    = Timestamp.drain fuel
        (Simple8b.mkDecoder (Simple8b.d_bytes d) (Simple8b.d_buf d)
                            (Simple8b.d_i d + k) (Simple8b.d_n d))
        (acc ++ map i64 (take k (drop (S (Simple8b.d_i d)) (Simple8b.d_buf d)))).
Proof.
  induction k as [|k IH]; intros [bs buf i n] acc fuel Hk Hbuf Hn;
    cbn [Simple8b.d_i Simple8b.d_n Simple8b.d_buf Simple8b.d_bytes] in *.
  - cbn [Nat.add take map]. rewrite Nat.add_0_r, app_nil_r. reflexivity.
  - cbn [Nat.add Timestamp.drain]. unfold Simple8b.Next.
    cbn [Simple8b.d_i Simple8b.d_n Simple8b.d_buf Simple8b.d_bytes].
    destruct (Nat.leb_spec n (i + 1)) as [|_]; [lia|].
    cbn [mbind outcome_bind].
    cbn [Simple8b.d_i Simple8b.d_n Simple8b.d_buf Simple8b.d_bytes].
    destruct (Nat.ltb_spec (i + 1) n) as [_|]; [|lia].
    rewrite orb_true_r. unfold Simple8b.Read.
    cbn [Simple8b.d_i Simple8b.d_n Simple8b.d_buf Simple8b.d_bytes].
    destruct (Nat.ltb_spec (i + 1) 240) as [_|]; [|lia].
    cbn [mbind outcome_bind].
    rewrite (IH _ _ fuel) by (cbn; lia).
    cbn [Simple8b.d_i Simple8b.d_n Simple8b.d_buf Simple8b.d_bytes].
    replace (i + 1 + k)%nat with (i + S k)%nat by lia.
    f_equal. rewrite <- app_assoc. f_equal.
    assert (buf !! S i = Some (nth (i + 1) buf 0)) as Hlk.
    { replace (i + 1)%nat with (S i) by lia.
      rewrite nth_lookup. destruct (buf !! S i) eqn:E; [reflexivity|].
      apply lookup_ge_None in E. lia. }
    rewrite (drop_S _ _ _ Hlk). cbn [take map app].
    replace (S (i + 1)) with (S (S i)) by lia. reflexivity.
Qed.

(** With the buffer used up, [Next] reads the next word. *)
Lemma drain_word (d : Simple8b.Decoder) (w : Z) (rest vals acc : list Z)
      (fuel : nat) :
  (Simple8b.d_n d <= S (Simple8b.d_i d))%nat ->
  length (Simple8b.d_buf d) = 240%nat ->
  Simple8b.d_bytes d = Binary.PutUint64 w ++ rest ->
  0 <= w < 2 ^ 64 -> Z.shiftr w 60 < 16 ->
  (forall mem off,
      Simple8b.unpack (Simple8b.selector_at (Z.shiftr w 60)) w mem off
      = Simple8b.store_block mem off vals) ->
  (1 <= Simple8b.n (Simple8b.selector_at (Z.shiftr w 60)) <= length vals)%nat ->
  (length vals <= 240)%nat ->
  exists buf',
    length buf' = 240%nat
    /\ take (length vals) buf' = vals
    /\ Timestamp.drain (S fuel) d acc
       = Timestamp.drain fuel
           (Simple8b.mkDecoder rest buf' 0
              (Simple8b.n (Simple8b.selector_at (Z.shiftr w 60))))
           (acc ++ [i64 (nth 0 vals 0)]).
Proof.
  destruct d as [bs buf i n].
  cbn [Simple8b.d_i Simple8b.d_n Simple8b.d_buf Simple8b.d_bytes].
  intros Hex Hbuf -> Hw Hsel Hun Hn Hvals.
  destruct (store_block_Some buf 0 vals ltac:(lia))
    as (buf' & Hst & Hl & _ & Htake).
  rewrite drop_0 in Htake.
  exists buf'. split; [lia|]. split; [exact Htake|].
  cbn [Timestamp.drain]. unfold Simple8b.Next.
  cbn [Simple8b.d_i Simple8b.d_n Simple8b.d_buf Simple8b.d_bytes].
  destruct (Nat.leb_spec n (i + 1)) as [_|]; [|lia].
  unfold Simple8b.read.
  cbn [Simple8b.d_i Simple8b.d_n Simple8b.d_buf Simple8b.d_bytes].
  rewrite length_app, length_PutUint64.
  destruct (Nat.ltb_spec (8 + length rest) 8) as [|_]; [lia|].
  rewrite take_app_length' by (rewrite length_PutUint64; reflexivity).
  rewrite drop_app_length' by (rewrite length_PutUint64; reflexivity).
  rewrite Uint64_PutUint64 by exact Hw.
  unfold Simple8b.Decode.
  destruct (Z.leb_spec 16 (Z.shiftr w 60)) as [|_]; [lia|].
  rewrite Hun, Hst.
  cbn [Simple8b.d_i Simple8b.d_n Simple8b.d_buf Simple8b.d_bytes
       mbind outcome_bind].
  destruct (Nat.ltb_spec 0 (Simple8b.n (Simple8b.selector_at (Z.shiftr w 60))))
    as [_|]; [|lia].
  rewrite orb_true_r. unfold Simple8b.Read.
  cbn [Simple8b.d_i Simple8b.d_n Simple8b.d_buf Simple8b.d_bytes
       mbind outcome_bind Nat.ltb Nat.leb].
  do 3 f_equal.
  rewrite <- Htake. destruct buf' as [|x buf'']; [cbn in Hl; lia|].
  destruct vals as [|y vals']; [cbn in Hn; lia|].
  cbn [length take nth]. reflexivity.
Qed.

(** With the buffer used up and fewer than eight bytes left, the loop ends. *)
Lemma drain_end (d : Simple8b.Decoder) (acc : list Z) (fuel : nat) :
  (Simple8b.d_n d <= S (Simple8b.d_i d))%nat ->
  (length (Simple8b.d_bytes d) < 8)%nat ->
  Timestamp.drain (S fuel) d acc = Ret acc.
Proof.
  destruct d as [bs buf i n].
  cbn [Simple8b.d_i Simple8b.d_n Simple8b.d_buf Simple8b.d_bytes].
  intros Hex Hlen.
  cbn [Timestamp.drain]. unfold Simple8b.Next.
  cbn [Simple8b.d_i Simple8b.d_n Simple8b.d_buf Simple8b.d_bytes].
  destruct (Nat.leb_spec n (i + 1)) as [_|]; [|lia].
  unfold Simple8b.read.
  cbn [Simple8b.d_i Simple8b.d_n Simple8b.d_buf Simple8b.d_bytes].
  destruct (Nat.ltb_spec (length bs) 8) as [_|]; [|lia].
  cbn [Simple8b.d_i Simple8b.d_n Simple8b.d_buf Simple8b.d_bytes
       mbind outcome_bind].
  destruct (Nat.leb_spec 8 (length bs)) as [|_]; [lia|].
  destruct (Nat.ltb_spec (i + 1) n) as [|_]; [lia|].
  reflexivity.
Qed.

(** The loop over the words of a chunked encoding reads the values. *)
Lemma drain_chunks (xs ws : list Z) :
  chunks xs ws ->
  forall (d : Simple8b.Decoder) (acc extra : list Z) (fuel : nat),
    Simple8b.d_bytes d = words_bytes ws ++ extra -> (length extra < 8)%nat ->
    (Simple8b.d_n d <= S (Simple8b.d_i d))%nat ->
    length (Simple8b.d_buf d) = 240%nat ->
    Timestamp.drain (length xs + S fuel) d acc = Ret (acc ++ xs).
Proof.
  induction 1 as [|src rest w n ws Hne Hpos HE Hch IH];
    intros d acc extra fuel Hbytes Hextra Hex Hbuf.
  - cbn [length Nat.add]. rewrite app_nil_r.
    apply drain_end; [exact Hex|]. rewrite Hbytes. cbn. exact Hextra.
  - pose proof (Encode_consumes _ _ _ Hne HE) as Hn.
    pose proof (Encode_count_le _ _ _ HE) as Hn240.
    destruct (Encode_word_unsigned src w n Hpos HE Hne)
      as (Hw & Hsel & Hcnt & vals & Hun & Htake & Hlen).
    assert (n <= length vals <= 240)%nat as Hvals
      by (destruct Hlen as [->|[-> [-> _]]]; lia).
    rewrite words_bytes_cons, <- app_assoc in Hbytes.
    rewrite length_app, length_take.
    replace (n `min` length src + length rest + S fuel)%nat
      with (S ((n - 1) + (length rest + S fuel)))%nat by lia.
    destruct (drain_word d w (words_bytes ws ++ extra) vals acc
                ((n - 1) + (length rest + S fuel)) Hex Hbuf Hbytes Hw Hsel Hun
                ltac:(rewrite Hcnt; lia) ltac:(lia))
      as (buf' & Hl' & Htk & ->).
    rewrite Hcnt.
    rewrite drain_buffer
      by (cbn [Simple8b.d_i Simple8b.d_n Simple8b.d_buf]; lia).
    cbn [Simple8b.d_i Simple8b.d_n Simple8b.d_buf Simple8b.d_bytes].
    rewrite (IH _ _ extra fuel);
      cbn [Simple8b.d_i Simple8b.d_n Simple8b.d_buf Simple8b.d_bytes];
      [|reflexivity|exact Hextra|lia|exact Hl'].
    f_equal. rewrite <- !app_assoc. f_equal. rewrite app_assoc. f_equal.
    assert (valid (take n src)) as Hv.
    { pose proof (Encode_consumed_in_range _ _ _ HE) as Hle.
      apply (Forall_take _ n) in Hpos.
      unfold valid. rewrite Forall_forall in *. intros x Hx.
      specialize (Hle x Hx). specialize (Hpos x Hx). cbn beta in *. lia. }
    rewrite <- (map_i64_valid (take n src) Hv).
    change [i64 (nth 0 vals 0)] with (map i64 [nth 0 vals 0]).
    rewrite <- map_app. f_equal.
    rewrite <- Htake.
    assert (take n vals = take n buf') as ->.
    { rewrite <- Htk, take_take. f_equal. lia. }
    destruct buf' as [|x buf'']; [cbn in Hl'; lia|].
    destruct n as [|m]; [lia|].
    replace (nth 0 vals 0) with x.
    2:{ rewrite <- Htk. destruct vals; [cbn in Hvals; lia|]. reflexivity. }
    cbn [take drop app]. replace (S m - 1)%nat with m by lia. reflexivity.
Qed.

Lemma CountBytes_loop_chunks (xs ws : list Z) :
  chunks xs ws ->
  forall fuel c, (length ws <= fuel)%nat ->
    Simple8b.CountBytes_loop fuel (words_bytes ws) c
    = Simple8b.Counted (c + length xs).
Proof.
  induction 1 as [|src rest w n ws Hne Hpos HE _ IH]; intros fuel c Hfuel.
  - destruct fuel; cbn; f_equal; lia.
  - destruct fuel as [|fuel]; [cbn in Hfuel; lia|].
    destruct (Encode_word_unsigned src w n Hpos HE Hne)
      as (Hw & Hsel & Hcnt & _).
    pose proof (Encode_consumes _ _ _ Hne HE) as Hn.
    rewrite words_bytes_cons. cbn [Simple8b.CountBytes_loop].
    rewrite length_app, length_PutUint64.
    destruct (Nat.leb_spec 8 (8 + length (words_bytes ws))); [|lia].
    rewrite take_app_length' by (rewrite length_PutUint64; reflexivity).
    rewrite drop_app_length' by (rewrite length_PutUint64; reflexivity).
    rewrite Uint64_PutUint64 by exact Hw.
    rewrite Count_spec by exact Hsel. rewrite Hcnt.
    rewrite IH by (cbn [length] in Hfuel; lia).
    rewrite length_app, length_take. f_equal. lia.
Qed.

(** X7 ([simple8b] streaming [Encoder] and [Decoder]): values in
    [0, MaxValue] written one by one to a new [Encoder] are all accepted;
    the bytes of [Bytes], read back with [for dec.Next() { dec.Read() }] on
    a [Decoder] over them, give the same values in the same order, and
    [CountBytes] of the bytes is their number. *)
Theorem stream_round_trip (xs acc : list Z) :
  Forall (fun v => 0 <= v <= Simple8b.MaxValue) xs ->
  exists e e' bs,
    Simple8b.write_all Simple8b.NewEncoder xs = (Ret e, true)
    /\ Simple8b.Bytes e = Ret (e', bs)
    /\ Timestamp.drain (31 * length bs + 1) (Simple8b.NewDecoder bs) acc
       = Ret (acc ++ xs)
    /\ Simple8b.CountBytes bs = Simple8b.Counted (length xs).
Proof.
  intros Hv. destruct (stream_chunks xs Hv) as (e & e' & ws & Hw & HB & Hch).
  exists e, e', (words_bytes ws). split; [exact Hw|]. split; [exact HB|].
  pose proof (chunks_lengths xs ws Hch) as Hlen.
  split.
  - rewrite length_words_bytes.
    replace (31 * (8 * length ws) + 1)%nat
      with (length xs + S (31 * (8 * length ws) - length xs))%nat by lia.
    apply (drain_chunks xs ws Hch _ acc []).
    + cbn. rewrite app_nil_r. reflexivity.
    + cbn. lia.
    + cbn. lia.
    + reflexivity.
  - unfold Simple8b.CountBytes. rewrite length_words_bytes.
    rewrite (CountBytes_loop_chunks xs ws Hch) by lia. reflexivity.
Qed.

Lemma stream_round_trip_witness :
  exists e e' bs,
    Simple8b.write_all Simple8b.NewEncoder [1; 1; 9; 2 ^ 60 - 1; 0] = (Ret e, true)
    /\ Simple8b.Bytes e = Ret (e', bs)
    /\ Timestamp.drain (31 * length bs + 1) (Simple8b.NewDecoder bs) [42]
       = Ret ([42] ++ [1; 1; 9; 2 ^ 60 - 1; 0])
    /\ Simple8b.CountBytes bs = Simple8b.Counted 5.
Proof.
  apply (stream_round_trip [1; 1; 9; 2 ^ 60 - 1; 0] [42]).
  repeat constructor; rewrite ?MaxValue_eq; lia.
Defined.

(** X8 ([simple8b.EncodeAll] read by the streaming [Decoder]): the words
    that [EncodeAll] returns for [uint64]s, laid out as bytes, are read
    back by [for dec.Next() { dec.Read() }] as the values that were
    encoded; up to seven bytes after the last word are ignored. *)
Theorem EncodeAll_streaming_decode (xs ws acc extra : list Z) :
  Forall (fun v => 0 <= v < 2 ^ 64) xs ->
  Simple8b.EncodeAll xs = Ret ws ->
  (length extra < 8)%nat ->
  Timestamp.drain (31 * length (words_bytes ws ++ extra) + 1)
                  (Simple8b.NewDecoder (words_bytes ws ++ extra)) acc
  = Ret (acc ++ xs).
Proof.
  intros Hxs HE Hextra. rewrite EncodeAll_bulk in HE. apply bulk_encodes in HE.
  apply encodes_chunks in HE.
  2:{ eapply Forall_impl; [exact Hxs|]. intros v Hv. cbn beta in Hv. lia. }
  pose proof (chunks_lengths xs ws HE) as Hlen.
  rewrite length_app, length_words_bytes.
  replace (31 * (8 * length ws + length extra) + 1)%nat
    with (length xs + S (31 * (8 * length ws + length extra) - length xs))%nat
    by lia.
  apply (drain_chunks xs ws HE _ acc extra).
  - reflexivity.
  - exact Hextra.
  - cbn. lia.
  - reflexivity.
Qed.

Lemma EncodeAll_streaming_decode_witness :
  Timestamp.drain
    (31 * length (words_bytes [Simple8b.pack2 [7; 2 ^ 29]; Simple8b.pack1 [2 ^ 59]]
                  ++ [9; 9]) + 1)
    (Simple8b.NewDecoder
       (words_bytes [Simple8b.pack2 [7; 2 ^ 29]; Simple8b.pack1 [2 ^ 59]]
        ++ [9; 9])) []
  = Ret ([] ++ [7; 2 ^ 29; 2 ^ 59]).
Proof.
  apply (EncodeAll_streaming_decode [7; 2 ^ 29; 2 ^ 59]).
  - repeat constructor; lia.
  - reflexivity.
  - cbn. lia.
Defined.


(** ** The packed frame, and the timestamp codec as a whole *)

Lemma foldl_min_attains (l : list Z) (m : Z) :
  foldl Z.min m l = m \/ foldl Z.min m l ∈ l.
Proof.
  revert m. induction l as [|y l IH]; intros m; [left; reflexivity|].
  cbn [foldl]. destruct (IH (Z.min m y)) as [H|H].
  - rewrite H. destruct (Z.le_ge_cases m y).
    + left. lia.
    + right. replace (Z.min m y) with y by lia. apply list_elem_of_here.
  - right. apply list_elem_of_further, H.
Qed.

Lemma i64_add_sub (p y : Z) :
  - 2 ^ 63 <= y < 2 ^ 63 -> i64 (p + i64 (y - p)) = y.
Proof. intros Hy. unfold i64. Z.div_mod_to_equations. lia. Qed.

(** The running sums undo the differences, whatever wraps around. *)
Lemma sums_deltas (rest : list Z) :
  forall x, Forall (fun t => - 2 ^ 63 <= t < 2 ^ 63) rest ->
            sums_from x (deltas_from x rest) = rest.
Proof.
  induction rest as [|y rest IH]; intros x Hr; [reflexivity|].
  apply Forall_cons in Hr as [Hy Hr].
  cbn [deltas_from sums_from]. rewrite i64_add_sub by exact Hy.
  rewrite IH by exact Hr. reflexivity.
Qed.

Lemma adjacent_equal_replicate_inv (l : list Z) (c : Z) :
  adjacent_equal (c :: l) = true -> l = replicate (length l) c.
Proof.
  revert c. induction l as [|y l IH]; intros c H; [reflexivity|].
  cbn [adjacent_equal] in H. apply andb_true_iff in H as [Hc H].
  apply Z.eqb_eq in Hc. subst y. cbn [length replicate]. f_equal.
  apply IH. exact H.
Qed.

(** The loop of [decodePacked]: scale back, add the minimum, sum up. *)
Lemma unscale_sum_loop (md mn : Z) (post : list Z) :
  forall (pre : list Z) (p : Z),
    foldl (fun d i =>
             let d := <[i := i64 (i64 (nth i d 0 * md) + mn)]> d in
             <[i := i64 (nth (i - 1) d 0 + nth i d 0)]> d)
          ((pre ++ [p]) ++ post)
          (seq (length (pre ++ [p])) (length post))
    = (pre ++ [p])
      ++ sums_from p (map (fun v => i64 (i64 (v * md) + mn)) post).
Proof.
  induction post as [|y post IH]; intros pre p; [reflexivity|].
  cbn [length seq foldl sums_from map]. cbv zeta.
  rewrite nth_middle', insert_middle.
  rewrite nth_pred_snoc, nth_middle', insert_middle.
  set (z := i64 (p + i64 (i64 (y * md) + mn))).
  replace ((pre ++ [p]) ++ z :: post)
    with (((pre ++ [p]) ++ [z]) ++ post)
    by (rewrite <- app_assoc; reflexivity).
  replace (S (length (pre ++ [p]))) with (length ((pre ++ [p]) ++ [z]))
    by (rewrite (length_app _ [_]); cbn; lia).
  rewrite IH. rewrite <- !app_assoc. reflexivity.
Qed.

Lemma unscale_sum_spec (md mn x : Z) (vs : list Z) :
  foldl (fun d i =>
           let d := <[i := i64 (i64 (nth i d 0 * md) + mn)]> d in
           <[i := i64 (nth (i - 1) d 0 + nth i d 0)]> d)
        (x :: vs) (seq 1 (length (x :: vs) - 1))
  = x :: sums_from x (map (fun v => i64 (i64 (v * md) + mn)) vs).
Proof.
  cbn [length]. replace (S (length vs) - 1)%nat with (length vs) by lia.
  apply (unscale_sum_loop md mn vs [] x).
Qed.

Lemma header_Packed_value (e : nat) :
  (e <= 12)%nat ->
  Timestamp.header Timestamp.EncodingPacked (10 ^ Z.of_nat e) = Z.of_nat e.
Proof.
  intros He. do 13 (destruct e as [|e]; [reflexivity|]). lia.
Qed.

Lemma map_u64_valid (xs : list Z) : valid xs -> map u64 xs = xs.
Proof.
  intros Hv. rewrite <- (map_id xs) at 2. apply map_ext_Forall.
  eapply Forall_impl; [exact Hv|]. intros v Hr. cbn beta in Hr.
  rewrite MaxValue_eq in Hr. apply u64_small. lia.
Qed.

(** The packed frame of a first value and scaled differences in range. *)
Lemma encodePacked_frame (mn x : Z) (e : nat) (svals : list Z) :
  (e <= 12)%nat -> valid svals ->
  exists ws,
    Timestamp.encodePacked mn (10 ^ Z.of_nat e) (x :: svals)
    = Ret (Z.of_nat e :: Binary.PutUint64 (u64 mn)
           ++ Binary.PutUint64 (u64 x) ++ words_bytes ws)
    /\ chunks svals ws.
Proof.
  intros He Hv. unfold Timestamp.encodePacked.
  cbn [drop nth]. rewrite drop_0, map_u64_valid by exact Hv.
  destruct (stream_chunks svals Hv) as (enc & enc' & ws & Hw & HB & Hch).
  rewrite Hw, HB. cbn [mbind outcome_bind].
  exists ws. split; [|exact Hch].
  rewrite header_Packed_value by exact He.
  cbn [app]. rewrite <- app_assoc. reflexivity.
Qed.

Lemma packed_tag_bits (e : nat) :
  (e <= 12)%nat ->
  Z.shiftr (Z.of_nat e) 4 = 0 /\ Z.land (Z.of_nat e) 15 = Z.of_nat e.
Proof.
  intros He. do 13 (destruct e as [|e]; [split; reflexivity|]). lia.
Qed.

Lemma decode_packed_frame (maxAlloc mn x : Z) (e : nat) (svals ws extra : list Z) :
  (e <= 12)%nat -> chunks svals ws -> (length extra < 8)%nat ->
  - 2 ^ 63 <= mn < 2 ^ 63 -> - 2 ^ 63 <= x < 2 ^ 63 ->
  Timestamp.decode maxAlloc
    (Z.of_nat e :: Binary.PutUint64 (u64 mn)
     ++ Binary.PutUint64 (u64 x) ++ words_bytes ws ++ extra)
  = Ret (x :: sums_from x
                (map (fun v => i64 (i64 (v * 10 ^ Z.of_nat e) + mn)) svals)).
Proof.
  intros He Hch Hextra Hmn Hx.
  destruct (packed_tag_bits e He) as [Htag Hexp].
  unfold Timestamp.decode. rewrite Htag.
  change (0 =? Timestamp.EncodingRaw) with false.
  change (0 =? Timestamp.EncodingRLE) with false. cbv iota.
  unfold Timestamp.decodePacked. rewrite Hexp.
  set (b1 := Binary.PutUint64 (u64 mn)).
  set (b2 := Binary.PutUint64 (u64 x)).
  set (tail := words_bytes ws ++ extra).
  assert (length b1 = 8%nat) as Hl1 by reflexivity.
  assert (length b2 = 8%nat) as Hl2 by reflexivity.
  assert (length (Z.of_nat e :: b1 ++ b2 ++ tail) = (17 + length tail)%nat) as Hlen.
  { cbn [length]. rewrite !length_app, Hl1, Hl2. lia. }
  rewrite Hlen.
  destruct (Nat.ltb_spec (17 + length tail) 17) as [|_]; [lia|].
  assert (take 8 (drop 1 (Z.of_nat e :: b1 ++ b2 ++ tail)) = b1) as ->.
  { cbn [drop]. rewrite drop_0. apply take_app_length'. exact (eq_sym Hl1). }
  assert (take 8 (drop 9 (Z.of_nat e :: b1 ++ b2 ++ tail)) = b2) as ->.
  { change (drop 9 (?y :: ?l)) with (drop 8 l).
    rewrite drop_app_length' by exact (eq_sym Hl1).
    apply take_app_length'. exact (eq_sym Hl2). }
  assert (drop 17 (Z.of_nat e :: b1 ++ b2 ++ tail) = tail) as ->.
  { change (drop 17 (?y :: ?l)) with (drop 16 l).
    rewrite app_assoc. apply drop_app_length'.
    rewrite length_app, Hl1, Hl2. reflexivity. }
  unfold b1, b2. rewrite !Uint64_PutUint64 by apply u64_range.
  rewrite !i64_u64 by assumption.
  pose proof (chunks_lengths svals ws Hch) as Hcl.
  unfold tail. rewrite length_app, length_words_bytes.
  replace (31 * (8 * length ws + length extra) + 1)%nat
    with (length svals + S (31 * (8 * length ws + length extra) - length svals))%nat
    by lia.
  rewrite (drain_chunks svals ws Hch _ [x] extra);
    [|reflexivity|exact Hextra|cbn; lia|reflexivity].
  cbn [mbind outcome_bind app]. f_equal.
  unfold Timestamp.Pow10. apply unscale_sum_spec.
Qed.

Lemma encodeRLE_frame (x s : Z) (n : nat) :
  - 2 ^ 63 <= s < 2 ^ 63 -> Z.of_nat n < 2 ^ 64 ->
  Timestamp.encodeRLE x s (10 ^ Z.of_nat (p10 12 s)) n = Ret (rle_frame x s n).
Proof.
  intros Hs Hn. unfold Timestamp.encodeRLE, rle_frame.
  rewrite header_RLE_value by apply p10_le.
  rewrite quot_exact_div by (first [apply pow10_pos | apply p10_divide]).
  rewrite (u64_small (Z.of_nat n)) by lia. reflexivity.
Qed.

Lemma Forall_rev_iff {A} (P : A -> Prop) (l : list A) :
  Forall P (rev l) <-> Forall P l.
Proof.
  rewrite !Forall_forall. split; intros H x Hx; apply H.
  - apply list_elem_of_In, in_rev. rewrite rev_involutive.
    apply list_elem_of_In, Hx.
  - apply list_elem_of_In, in_rev, list_elem_of_In, Hx.
Qed.

Lemma deltas_from_range (rest : list Z) (x : Z) :
  Forall (fun d => - 2 ^ 63 <= d < 2 ^ 63) (deltas_from x rest).
Proof.
  revert x. induction rest as [|y rest IH]; intros x; [constructor|].
  cbn [deltas_from]. constructor; [|apply IH].
  unfold i64. pose proof (Z.mod_pos_bound (y - x + 2 ^ 63) (2 ^ 64)). lia.
Qed.

Section Reduced.

Variables (x : Z) (rest : list Z).

Let ds := deltas_from x rest.
Let mn := foldl Z.min x (rev ds).
Let e := common_p10 12 (rev ds).
Let md := 10 ^ Z.of_nat e.

Hypothesis Hnn : Forall (fun d => 0 <= d) ds.
Hypothesis Hfirst : ds = [] \/ Exists (fun d => d <= x) ds.
Hypothesis Hx : - 2 ^ 63 <= x < 2 ^ 63.

Lemma reduced_min :
  mn <= x /\ Forall (fun d => mn <= d) ds
  /\ - 2 ^ 63 <= mn < 2 ^ 63
  /\ (ds <> [] -> 0 <= mn /\ (md | mn)).
Proof.
  assert (mn <= x) as Hle by apply foldl_min_base.
  assert (Forall (fun d => mn <= d) ds) as Hall.
  { apply Forall_forall. intros d Hd. apply foldl_min_le.
    apply list_elem_of_In, in_rev. rewrite rev_involutive.
    apply list_elem_of_In, Hd. }
  assert (Forall (fun d => (md | d)) ds) as Hdiv.
  { apply Forall_rev_iff. apply common_p10_divide. }
  assert (ds <> [] -> mn ∈ ds) as Hin.
  { intros Hne. destruct Hfirst as [->|Hex]; [congruence|].
    destruct (foldl_min_attains (rev ds) x) as [Hm|Hm].
    - apply Exists_exists in Hex as (d & Hd & Hdx).
      rewrite Forall_forall in Hall. pose proof (Hall d Hd) as Hmd.
      fold mn in Hm. replace mn with d by lia. exact Hd.
    - fold mn in Hm. apply list_elem_of_In, in_rev, list_elem_of_In in Hm.
      exact Hm. }
  split; [exact Hle|]. split; [exact Hall|]. split.
  - assert (ds = [] \/ ds <> []) as [E|E].
    { unfold ds. destruct (deltas_from x rest);
        [left; reflexivity|right; discriminate]. }
    + unfold mn. rewrite E. cbn. exact Hx.
    + specialize (Hin E).
      rewrite Forall_forall in Hnn. specialize (Hnn mn Hin). lia.
  - intros Hne. specialize (Hin Hne).
    rewrite Forall_forall in Hnn, Hdiv. split; [apply Hnn, Hin|apply Hdiv, Hin].
Qed.

Lemma reduced_scaled (d : Z) :
  d ∈ ds ->
  0 <= scaled mn md d <= d - mn
  /\ i64 (i64 (scaled mn md d * md) + mn) = d.
Proof.
  intros Hd.
  destruct reduced_min as (Hle & Hall & Hr & Hne).
  destruct (Hne ltac:(intros E; rewrite E in Hd; inversion Hd)) as [Hpos Hdm].
  pose proof (deltas_from_range rest x) as Hrange. fold ds in Hrange.
  rewrite Forall_forall in Hall, Hrange, Hnn.
  pose proof (Hall d Hd) as H1. pose proof (Hrange d Hd) as H2.
  assert ((md | d)) as Hdd.
  { assert (Forall (fun d => (md | d)) ds) as Hdiv
      by (apply Forall_rev_iff; apply common_p10_divide).
    rewrite Forall_forall in Hdiv. apply Hdiv, Hd. }
  assert (0 < md) as Hmd by apply pow10_pos.
  unfold scaled. rewrite (i64_small (d - mn)) by lia.
  assert ((md | d - mn)) as [q Hq] by (apply Z.divide_sub_r; assumption).
  rewrite Hq, Z.quot_mul by lia.
  assert (0 <= q <= d - mn) by nia.
  split; [lia|]. rewrite <- Hq.
  rewrite (i64_small (d - mn)) by lia.
  replace (d - mn + mn) with d by lia. apply i64_small. lia.
Qed.

Lemma reduced_unscale :
  map (fun v => i64 (i64 (v * md) + mn)) (map (scaled mn md) ds) = ds.
Proof.
  rewrite map_map. rewrite <- (map_id ds) at 2. apply map_ext_Forall.
  apply Forall_forall. intros d Hd. apply reduced_scaled, Hd.
Qed.

End Reduced.

(** X9 (the timestamp codec as a whole): [int64] timestamps that never
    decrease, with the first one at least as large as the smallest step
    between two of them, survive [Bytes] followed by [decode] unchanged,
    whichever of the three frames [Bytes] chooses.  (When the first
    timestamp is smaller than every step, [reduce] takes it as the minimum
    and the packed frame does not decode to the input.) *)
Theorem Timestamp_round_trip (maxAlloc : Z) (ts : list Z) :
  Forall (fun t => - 2 ^ 63 <= t < 2 ^ 63) ts ->
  Forall (fun d => 0 <= d) (deltas_of ts) ->
  deltas_of ts = [] \/ Exists (fun d => d <= nth 0 ts 0) (deltas_of ts) ->
  Z.of_nat (length ts) < 2 ^ 63 -> Z.of_nat (length ts) * 8 <= maxAlloc ->
  exists b, Timestamp.Bytes ts = Ret b /\ Timestamp.decode maxAlloc b = Ret ts.
Proof.
  intros Hts Hnn Hfirst Hlen Halloc.
  destruct ts as [|x rest]; [exists []; split; reflexivity|].
  cbn [deltas_of nth] in Hnn, Hfirst.
  apply Forall_cons in Hts as [Hx Hrest].
  pose proof (reduced_min x rest Hnn Hfirst Hx) as (Hmx & Hall & Hmr & Hmne).
  pose proof (reduced_scaled x rest Hnn Hfirst Hx) as Hsc.
  pose proof (reduced_unscale x rest Hnn Hfirst Hx) as Hun.
  pose proof (sums_deltas rest x Hrest) as Hsum.
  pose proof (deltas_from_range rest x) as Hdr.
  pose proof (length_deltas_from rest x) as Hdl.
  set (ds := deltas_from x rest) in *.
  set (mn := foldl Z.min x (rev ds)) in *.
  set (e := common_p10 12 (rev ds)) in *.
  set (svals := map (scaled mn (10 ^ Z.of_nat e)) ds) in *.
  assert (e <= 12)%nat as He by apply common_p10_le.
  unfold Timestamp.Bytes. cbn [length Nat.eqb].
  rewrite reduce_spec. cbn [mbind outcome_bind].
  fold ds. fold mn. fold e. fold svals.
  destruct (adjacent_equal svals && (1 <? length (x :: rest))%nat
            && (60 <? S (length rest))%nat) eqn:Hrle.
  - (* RLE *)
    apply andb_true_iff in Hrle as [Hrle H60].
    apply andb_true_iff in Hrle as [Hadj _].
    apply Nat.ltb_lt in H60.
    destruct rest as [|y rest']; [cbn in H60; lia|].
    set (s := i64 (y - x)).
    assert (ds = replicate (length (y :: rest')) s) as Hds.
    { unfold svals in Hadj. unfold ds in *. cbn [deltas_from map] in *.
      fold s in Hadj, Hun, Hsc |- *.
      apply adjacent_equal_replicate_inv in Hadj.
      rewrite length_map in Hadj.
      injection Hun as Hs Hun'. rewrite Hadj, map_replicate in Hun'.
      cbn beta in Hun'. fold s in Hs. rewrite Hs in Hun'.
      cbn [length replicate]. f_equal.
      rewrite length_deltas_from in Hun'. symmetry. exact Hun'. }
    assert (10 ^ Z.of_nat e = 10 ^ Z.of_nat (p10 12 s)) as ->.
    { unfold e. rewrite Hds.
      rewrite (common_p10_perm (rev (replicate (length (y :: rest')) s))
                 (replicate (length (y :: rest')) s))
        by (symmetry; apply Permutation_rev).
      cbn [length]. rewrite common_p10_replicate. reflexivity. }
    cbn [nth]. fold s.
    assert (- 2 ^ 63 <= s < 2 ^ 63) as Hs.
    { rewrite Forall_forall in Hdr. apply Hdr. rewrite Hds.
      cbn [length replicate]. apply list_elem_of_here. }
    rewrite encodeRLE_frame by (try exact Hs; cbn [length] in *; lia).
    exists (rle_frame x s (S (length (y :: rest')))). split; [reflexivity|].
    rewrite decode_rle_frame_sums by (try assumption; cbn [length] in *; lia).
    replace (S (length (y :: rest')) - 1)%nat with (length (y :: rest')) by lia.
    rewrite <- Hds, Hsum. reflexivity.
  - clear Hrle.
    destruct (Z.ltb_spec Simple8b.MaxValue (foldl Z.max 0 (rev ds))) as [Hbig|Hsmall].
    + (* Raw *)
      rewrite encodeRaw_frame.
      exists (32 :: words_bytes (map u64 (x :: rest))). split; [reflexivity|].
      rewrite <- (app_nil_r (words_bytes _)).
      apply decode_raw_frame; [constructor; assumption|cbn; lia].
    + (* Packed *)
      assert (valid svals) as Hv.
      { unfold valid, svals. apply Forall_map, Forall_forall. intros d Hd.
        destruct (Hsc d Hd) as [Hr _].
        pose proof (foldl_max_ge (rev ds) 0 d
                      ltac:(apply list_elem_of_In, in_rev; rewrite rev_involutive;
                            apply list_elem_of_In; exact Hd)) as Hmax.
        assert (0 <= mn).
        { apply Hmne. intros E. rewrite E in Hd. inversion Hd. }
        cbn beta. lia. }
      destruct (encodePacked_frame mn x e svals He Hv) as (ws & -> & Hch).
      eexists. split; [reflexivity|].
      rewrite <- (app_nil_r (words_bytes ws)).
      rewrite (decode_packed_frame maxAlloc mn x e svals ws [])
        by (try assumption; cbn; lia).
      rewrite Hun, Hsum. reflexivity.
Qed.

Lemma Timestamp_round_trip_witness :
  exists b,
    Timestamp.Bytes [1400000000; 1400000010; 1400000010; 1400000250] = Ret b
    /\ Timestamp.decode (2 ^ 48) b
       = Ret [1400000000; 1400000010; 1400000010; 1400000250].
Proof.
  apply (Timestamp_round_trip (2 ^ 48)
           [1400000000; 1400000010; 1400000010; 1400000250]).
  - repeat constructor; lia.
  - repeat constructor; vm_compute; discriminate.
  - right. apply Exists_cons_hd. vm_compute. discriminate.
  - cbn [length]. lia.
  - cbn [length]. lia.
Defined.


(** ** Package delta: Delta, InverseDelta, FORDelta10, InverseFORDelta10 *)

Lemma lookup_insert_same (d : list Z) (j : nat) (v : Z) :
  <[j := v]> d !! j = (fun _ => v) <$> d !! j.
Proof.
  destruct (d !! j) eqn:E; cbn.
  - apply list_lookup_insert_eq. apply lookup_lt_Some in E. exact E.
  - apply list_lookup_insert_None. exact E.
Qed.

(** A loop that stores at each index of [l] a value that does not depend
    on what the loop has stored. *)
Lemma lookup_foldl_insert (f : nat -> Z) (l : list nat) :
  forall (d : list Z) (j : nat),
    foldl (fun d i => <[i := f i]> d) d l !! j
    = if decide (j ∈ l) then (fun _ => f j) <$> d !! j else d !! j.
Proof.
  induction l as [|i l IH]; intros d j; cbn [foldl].
  - destruct (decide (j ∈ [])) as [H|_]; [inversion H|reflexivity].
  - rewrite IH. destruct (decide (i = j)) as [->|Hij].
    + rewrite lookup_insert_same.
      destruct (decide (j ∈ j :: l)) as [_|Hn];
        [|exfalso; apply Hn, list_elem_of_here].
      destruct (decide (j ∈ l)); destruct (d !! j); reflexivity.
    + rewrite list_lookup_insert_ne by exact Hij.
      destruct (decide (j ∈ l)) as [Hl|Hl];
        destruct (decide (j ∈ i :: l)) as [Hin|Hin]; try reflexivity.
      * exfalso. apply Hin, list_elem_of_further, Hl.
      * apply elem_of_cons in Hin as [->|Hin]; [congruence|contradiction].
Qed.

Lemma lookup_deltas_from (rest : list Z) :
  forall (x : Z) (j : nat),
    deltas_from x rest !! j
    = (fun y => i64 (y - nth j (x :: rest) 0)) <$> rest !! j.
Proof.
  induction rest as [|y rest IH]; intros x j; [reflexivity|].
  destruct j as [|j]; [reflexivity|].
  cbn [deltas_from]. rewrite !lookup_cons. rewrite IH. reflexivity.
Qed.

(** [Delta] into a destination at least as long as the source: the first
    value, the differences, and the rest of the destination untouched. *)
Lemma Delta_spec (dst rest : list Z) (x : Z) :
  (length (x :: rest) <= length dst)%nat ->
  Delta.Delta dst (x :: rest)
  = (x :: deltas_from x rest) ++ drop (length (x :: rest)) dst.
Proof.
  intros Hlen. unfold Delta.Delta.
  destruct dst as [|d0 dst']; [cbn in Hlen; lia|].
  cbn [length Nat.eqb orb nth]. replace (S (length rest) - 1)%nat
    with (length rest) by lia.
  apply list_eq. intros j.
  rewrite (lookup_foldl_insert
             (fun i => i64 (nth i (x :: rest) 0 - nth (i - 1) (x :: rest) 0))).
  cbn [insert list_insert drop app].
  destruct j as [|j].
  - destruct (decide (0%nat ∈ rev (seq 1 (length rest)))) as [Hin|_];
      [|reflexivity].
    apply list_elem_of_In, in_rev, in_seq in Hin. lia.
  - cbn [length] in Hlen. rewrite !lookup_cons.
    destruct (decide (S j ∈ rev (seq 1 (length rest)))) as [Hin|Hout].
    + apply list_elem_of_In, in_rev, in_seq in Hin.
      rewrite lookup_app_l by (rewrite length_deltas_from; lia).
      rewrite lookup_deltas_from.
      destruct (lookup_lt_is_Some_2 dst' j ltac:(lia)) as [v ->].
      destruct (lookup_lt_is_Some_2 rest j ltac:(lia)) as [y Hy].
      rewrite Hy. cbn [fmap option_fmap option_map]. do 2 f_equal.
      replace (S j - 1)%nat with j by lia. f_equal.
      cbn [nth]. rewrite nth_lookup, Hy. reflexivity.
    + assert (length rest <= j)%nat as Hj.
      { destruct (Nat.le_gt_cases (length rest) j) as [|Hlt]; [assumption|].
        exfalso. apply Hout. apply list_elem_of_In, in_rev.
        rewrite rev_involutive. apply in_seq. lia. }
      rewrite lookup_app_r by (rewrite length_deltas_from; lia).
      rewrite length_deltas_from, lookup_drop. f_equal. lia.
Qed.

Lemma length_sums_from (l : list Z) (p : Z) : length (sums_from p l) = length l.
Proof.
  revert p. induction l as [|y l IH]; intros p; [reflexivity|].
  cbn [sums_from length]. rewrite IH. reflexivity.
Qed.

(** The loop of [InverseDelta], from an index [>= 1] on. *)
Lemma InverseDelta_loop (spost : list Z) :
  forall (spre pre dpost : list Z) (p : Z),
    length spre = length (pre ++ [p]) -> (length spost <= length dpost)%nat ->
    foldl (fun d i => <[i := i64 (nth (i - 1) d 0 + nth i (spre ++ spost) 0)]> d)
          ((pre ++ [p]) ++ dpost)
          (seq (length (pre ++ [p])) (length spost))
    = (pre ++ [p]) ++ sums_from p spost ++ drop (length spost) dpost.
Proof.
  induction spost as [|y spost IH]; intros spre pre dpost p Hpre Hlen.
  - cbn. rewrite drop_0. reflexivity.
  - destruct dpost as [|d0 dpost]; [cbn in Hlen; lia|].
    cbn [length seq foldl sums_from drop].
    rewrite nth_pred_snoc, <- Hpre, nth_middle', Hpre, insert_middle.
    replace ((pre ++ [p]) ++ i64 (p + y) :: dpost)
      with (((pre ++ [p]) ++ [i64 (p + y)]) ++ dpost)
      by (rewrite <- app_assoc; reflexivity).
    replace (S (length (pre ++ [p])))
      with (length ((pre ++ [p]) ++ [i64 (p + y)]))
      by (rewrite (length_app _ [_]); cbn; lia).
    replace (spre ++ y :: spost) with ((spre ++ [y]) ++ spost)
      by (rewrite <- app_assoc; reflexivity).
    rewrite IH.
    + rewrite <- !app_assoc. reflexivity.
    + rewrite !length_app in *. cbn [length] in *. lia.
    + cbn [length] in Hlen. lia.
Qed.

Lemma InverseDelta_spec (dst ds : list Z) (x : Z) :
  (length (x :: ds) <= length dst)%nat ->
  Delta.InverseDelta dst (x :: ds)
  = (x :: sums_from x ds) ++ drop (length (x :: ds)) dst.
Proof.
  intros Hlen. unfold Delta.InverseDelta.
  destruct dst as [|d0 dst']; [cbn in Hlen; lia|].
  cbn [length Nat.eqb orb nth insert list_insert drop].
  replace (S (length ds) - 1)%nat with (length ds) by lia.
  apply (InverseDelta_loop ds [x] [] dst' x); [reflexivity|].
  cbn [length] in Hlen. lia.
Qed.

(** X10 ([delta.Delta], [delta.InverseDelta]): for [int64] values and
    destinations of the length of the source, [InverseDelta] undoes
    [Delta], whatever the differences, those that overflow included. *)
Theorem InverseDelta_Delta (src dst dst' : list Z) :
  Forall (fun v => - 2 ^ 63 <= v < 2 ^ 63) src ->
  length dst = length src -> length dst' = length src ->
  Delta.InverseDelta dst' (Delta.Delta dst src) = src.
Proof.
  intros Hsrc Hl Hl'. destruct src as [|x rest].
  - destruct dst, dst'; try discriminate. reflexivity.
  - apply Forall_cons in Hsrc as [Hx Hrest].
    rewrite (Delta_spec dst rest x) by lia.
    rewrite drop_ge, app_nil_r by lia.
    rewrite InverseDelta_spec
      by (cbn [length] in *; rewrite length_deltas_from; lia).
    rewrite drop_ge, app_nil_r
      by (cbn [length] in *; rewrite length_deltas_from; lia).
    rewrite sums_deltas by exact Hrest. reflexivity.
Qed.

Lemma InverseDelta_Delta_witness :
  Delta.InverseDelta [0; 0; 0]
    (Delta.Delta [0; 0; 0] [5; - 2 ^ 63; 2 ^ 63 - 1])
  = [5; - 2 ^ 63; 2 ^ 63 - 1].
Proof.
  apply (InverseDelta_Delta [5; - 2 ^ 63; 2 ^ 63 - 1] [0; 0; 0] [0; 0; 0]).
  - repeat constructor; lia.
  - reflexivity.
  - reflexivity.
Defined.

(** *** FORDelta10 and its inverse *)

Lemma foldl_min_comm (l : list Z) (m y : Z) :
  foldl Z.min (Z.min m y) l = Z.min (foldl Z.min m l) y.
Proof.
  revert m. induction l as [|z l IH]; intros m; [reflexivity|].
  cbn [foldl]. rewrite <- IH. f_equal. lia.
Qed.

Lemma foldl_min_rev (l : list Z) (m : Z) :
  foldl Z.min m (rev l) = foldl Z.min m l.
Proof.
  revert m. induction l as [|y l IH]; intros m; [reflexivity|].
  cbn [rev foldl]. rewrite foldl_app. cbn [foldl].
  rewrite IH, foldl_min_comm. reflexivity.
Qed.

Lemma FORDelta10_spec (x : Z) (rest : list Z) :
  let ds := deltas_from x rest in
  let mn := foldl Z.min x (rev ds) in
  let md := 10 ^ Z.of_nat (common_p10 12 (rev ds)) in
  Delta.FORDelta10 (x :: rest)
  = Ret (mn, foldl Z.max 0 ds, md,
         adjacent_equal (map (scaled mn md) ds) && (1 <? length (x :: rest))%nat,
         x :: map (scaled mn md) ds).
Proof.
  cbv zeta. unfold Delta.FORDelta10. cbn [length Nat.eqb].
  rewrite (Delta_spec _ rest x) by (rewrite length_replicate; reflexivity).
  rewrite drop_ge, app_nil_r by (rewrite length_replicate; cbn; lia).
  rewrite reference10_spec. cbn [mbind outcome_bind].
  rewrite foldl_min_rev.
  rewrite (common_p10_perm (rev (deltas_from x rest)) (deltas_from x rest))
    by (symmetry; apply Permutation_rev).
  rewrite scale_spec. cbn [length]. rewrite length_map, length_deltas_from.
  reflexivity.
Qed.

(** The first loop of [InverseFORDelta10]: scale back and add the minimum. *)
Lemma unscale_loop (md mn : Z) (post : list Z) :
  forall pre : list Z,
    foldl (fun s i => <[i := i64 (i64 (nth i s 0 * md) + mn)]> s)
          (pre ++ post) (seq (length pre) (length post))
    = pre ++ map (fun v => i64 (i64 (v * md) + mn)) post.
Proof.
  induction post as [|y post IH]; intros pre; [reflexivity|].
  cbn [length seq foldl map].
  rewrite nth_middle', insert_middle.
  replace (pre ++ i64 (i64 (y * md) + mn) :: post)
    with ((pre ++ [i64 (i64 (y * md) + mn)]) ++ post)
    by (rewrite <- app_assoc; reflexivity).
  replace (S (length pre)) with (length (pre ++ [i64 (i64 (y * md) + mn)]))
    by (rewrite length_app; cbn; lia).
  rewrite IH, <- app_assoc. reflexivity.
Qed.

Lemma InverseFORDelta10_spec (mn md x : Z) (vs : list Z) :
  Delta.InverseFORDelta10 mn md (x :: vs)
  = x :: sums_from x (map (fun v => i64 (i64 (v * md) + mn)) vs).
Proof.
  unfold Delta.InverseFORDelta10. cbn [length Nat.eqb].
  replace (S (length vs) - 1)%nat with (length vs) by lia.
  pose proof (unscale_loop md mn vs [x]) as Hloop.
  cbn [app length] in Hloop. rewrite Hloop.
  rewrite InverseDelta_spec
    by (rewrite length_replicate; cbn [length]; rewrite length_map; lia).
  rewrite drop_ge, app_nil_r
    by (rewrite length_replicate; cbn [length]; rewrite length_map; lia).
  reflexivity.
Qed.

(** X11 ([delta.FORDelta10], [delta.InverseFORDelta10]): for [int64]
    values that never decrease, the first one at least as large as the
    smallest step, [InverseFORDelta10] applied to the minimum, the divisor
    and the scaled differences that [FORDelta10] returns gives the values
    back; the scaled differences are all in [0, 2^63). *)
Theorem InverseFORDelta10_FORDelta10 (src : list Z) :
  Forall (fun t => - 2 ^ 63 <= t < 2 ^ 63) src ->
  Forall (fun d => 0 <= d) (deltas_of src) ->
  deltas_of src = [] \/ Exists (fun d => d <= nth 0 src 0) (deltas_of src) ->
  exists mn mx md rle dst,
    Delta.FORDelta10 src = Ret (mn, mx, md, rle, dst)
    /\ Delta.InverseFORDelta10 mn md dst = src
    /\ Forall (fun v => 0 <= v < 2 ^ 63) (drop 1 dst).
Proof.
  intros Hsrc Hnn Hfirst.
  destruct src as [|x rest].
  { exists 0, 0, 0, false, []. repeat split. constructor. }
  cbn [deltas_of nth] in Hnn, Hfirst.
  apply Forall_cons in Hsrc as [Hx Hrest].
  pose proof (reduced_scaled x rest Hnn Hfirst Hx) as Hsc.
  pose proof (reduced_unscale x rest Hnn Hfirst Hx) as Hun.
  pose proof (reduced_min x rest Hnn Hfirst Hx) as (_ & _ & _ & Hmne).
  pose proof (deltas_from_range rest x) as Hdr.
  rewrite FORDelta10_spec. do 5 eexists. split; [reflexivity|].
  rewrite InverseFORDelta10_spec, Hun, sums_deltas by exact Hrest.
  split; [reflexivity|].
  cbn [drop]. rewrite drop_0. apply Forall_map, Forall_forall. intros d Hd.
  destruct (Hsc d Hd) as [Hr _].
  rewrite Forall_forall in Hdr. specialize (Hdr d Hd).
  assert (0 <= foldl Z.min x (rev (deltas_from x rest))).
  { apply Hmne. intros E. rewrite E in Hd. inversion Hd. }
  cbn beta. lia.
Qed.

Lemma InverseFORDelta10_FORDelta10_witness :
  exists mn mx md rle dst,
    Delta.FORDelta10 [1000; 1020; 1020; 1500] = Ret (mn, mx, md, rle, dst)
    /\ Delta.InverseFORDelta10 mn md dst = [1000; 1020; 1020; 1500]
    /\ Forall (fun v => 0 <= v < 2 ^ 63) (drop 1 dst).
Proof.
  apply (InverseFORDelta10_FORDelta10 [1000; 1020; 1020; 1500]).
  - repeat constructor; lia.
  - repeat constructor; vm_compute; discriminate.
  - right. apply Exists_cons_hd. vm_compute. discriminate.
Defined.


(** ** Package bitops *)

Ltac split_tests :=
  repeat match goal with
         | |- context [Z.leb ?a ?b] =>
             destruct (Z.leb_spec a b); cbv beta iota zeta
         | |- context [Z.eqb ?a ?b] =>
             destruct (Z.eqb_spec a b); cbv beta iota zeta
         end.

Lemma msb64_log2 (n : Z) : 0 < n < 2 ^ 64 -> Bitops.msb64 n = Z.log2 n.
Proof.
  intros Hn. symmetry. unfold Bitops.msb64.
  rewrite !Z.shiftr_div_pow2 by lia.
  split_tests; try lia.
  all: rewrite ?Z.shiftr_div_pow2 in * by lia.
  all: match goal with
       | |- Z.log2 _ = _ + ?v / 2 ^ 1 =>
           assert (v / 2 ^ 1 = 0 \/ v / 2 ^ 1 = 1) as [Hq | Hq]
             by (Z.div_mod_to_equations; lia);
           rewrite Hq
       end.
  all: apply Z.log2_unique; [lia|].
  all: match goal with
       | |- 2 ^ ?a <= _ < 2 ^ ?b =>
           let a' := eval vm_compute in (2 ^ a) in
           let b' := eval vm_compute in (2 ^ b) in
           change (2 ^ a) with a'; change (2 ^ b) with b'
       end.
  all: Z.div_mod_to_equations; lia.
Qed.

Lemma msb32_log2 (x : Z) : 0 < x < 2 ^ 32 -> Z.log2 x = 31 - Bitops.msb32 x.
Proof.
  intros Hx. unfold Bitops.msb32.
  repeat match goal with
         | |- context [Z.eqb ?a ?b] =>
             destruct (Z.eqb_spec a b); cbn [negb]; cbv beta iota zeta
         end.
  all: rewrite ?Z.shiftr_div_pow2 in * by lia.
  all: try match goal with
           | |- Z.log2 _ = 31 - Bitops.u32 (Bitops.u32 ?c - ?v) =>
               assert (v = 1) as Hv by (Z.div_mod_to_equations; lia);
               rewrite Hv
           end.
  all: match goal with
       | |- Z.log2 _ = ?c => let c' := eval vm_compute in c in change c with c'
       end.
  all: apply Z.log2_unique; [lia|].
  all: match goal with
       | |- 2 ^ ?a <= _ < 2 ^ ?b =>
           let a' := eval vm_compute in (2 ^ a) in
           let b' := eval vm_compute in (2 ^ b) in
           change (2 ^ a) with a'; change (2 ^ b) with b'
       end.
  all: Z.div_mod_to_equations; lia.
Qed.

(** X12 ([bitops.msb64]): on a [uint64], [msb64] is the position of the
    highest set bit, the integer part of the base-2 logarithm, and [-1]
    for zero. *)
Theorem msb64_highest_bit (n : Z) :
  0 <= n < 2 ^ 64 ->
  Bitops.msb64 n = (if n =? 0 then -1 else Z.log2 n)
  /\ (0 < n -> 2 ^ Bitops.msb64 n <= n < 2 ^ (Bitops.msb64 n + 1)).
Proof.
  intros Hn. destruct (Z.eqb_spec n 0) as [->|Hne].
  - split; [reflexivity|lia].
  - rewrite msb64_log2 by lia. split; [reflexivity|].
    intros _. apply Z.log2_spec. lia.
Qed.

Lemma msb64_highest_bit_witness :
  Bitops.msb64 (2 ^ 40 + 5) = (if 2 ^ 40 + 5 =? 0 then -1 else Z.log2 (2 ^ 40 + 5))
  /\ (0 < 2 ^ 40 + 5 ->
      2 ^ Bitops.msb64 (2 ^ 40 + 5) <= 2 ^ 40 + 5
      < 2 ^ (Bitops.msb64 (2 ^ 40 + 5) + 1)).
Proof. apply (msb64_highest_bit (2 ^ 40 + 5)). lia. Defined.

(** X13 ([bitops.msb32]): on a [uint32], [msb32] is the number of zero
    bits above the highest set bit: 32 for zero and [31 - log2 x]
    otherwise. *)
Theorem msb32_leading_zeros (x : Z) :
  0 <= x < 2 ^ 32 ->
  Bitops.msb32 x = (if x =? 0 then 32 else 31 - Z.log2 x)
  /\ 0 <= Bitops.msb32 x <= 32
  /\ (0 < x -> 2 ^ (31 - Bitops.msb32 x) <= x < 2 ^ (32 - Bitops.msb32 x)).
Proof.
  intros Hx. destruct (Z.eqb_spec x 0) as [->|Hne].
  - split; [reflexivity|]. split; [vm_compute; split; discriminate|lia].
  - pose proof (msb32_log2 x ltac:(lia)) as Hl.
    pose proof (Z.log2_nonneg x) as Hpos.
    assert (Z.log2 x < 32) by (apply Z.log2_lt_pow2; lia).
    split; [lia|]. split; [lia|]. intros _.
    replace (31 - Bitops.msb32 x) with (Z.log2 x) by lia.
    replace (32 - Bitops.msb32 x) with (Z.succ (Z.log2 x)) by lia.
    apply Z.log2_spec. lia.
Qed.

Lemma msb32_leading_zeros_witness :
  Bitops.msb32 4097 = (if 4097 =? 0 then 32 else 31 - Z.log2 4097)
  /\ 0 <= Bitops.msb32 4097 <= 32
  /\ (0 < 4097 ->
      2 ^ (31 - Bitops.msb32 4097) <= 4097 < 2 ^ (32 - Bitops.msb32 4097)).
Proof. apply (msb32_leading_zeros 4097). lia. Defined.

(** *** CanPack *)

Lemma forallb_le_true (l : list Z) (m : Z) :
  Forall (fun v => v <= m) l -> forallb (fun v => v <=? m) l = true.
Proof.
  intros H. apply forallb_forall. intros v Hv. apply Z.leb_le.
  rewrite Forall_forall in H. apply H, list_elem_of_In, Hv.
Qed.

Lemma CanPack_max (bits : Z) :
  1 <= bits <= 64 ->
  u64 ((if u64 (bits - 1) <? 64 then shl64 2 (u64 (bits - 1)) else 0) - 1)
  = 2 ^ bits - 1.
Proof.
  intros Hb. rewrite (u64_small (bits - 1)) by lia.
  destruct (Z.ltb_spec (bits - 1) 64); [|lia].
  unfold shl64. rewrite Z.shiftl_mul_pow2 by lia.
  replace (2 * 2 ^ (bits - 1)) with (2 ^ bits)
    by (replace bits with (1 + (bits - 1)) at 1 by lia;
        rewrite Z.pow_add_r by lia; reflexivity).
  destruct (Z.eq_dec bits 64) as [->|Hne].
  - reflexivity.
  - assert (2 ^ bits <= 2 ^ 63) by (apply Z.pow_le_mono_r; lia).
    assert (0 < 2 ^ bits) by (apply Z.pow_pos_nonneg; lia).
    rewrite (u64_small (2 ^ bits)) by lia. apply u64_small. lia.
Qed.

(** X14 ([bitops.CanPack] and [simple8b.canPack]): on [uint64]s the two
    functions agree for the widths 1 to 60 that [Encode] uses; for the
    width 0, where [simple8b.canPack] asks for a run of ones,
    [bitops.CanPack] accepts any [n] values. *)
Theorem CanPack_canPack (src : list Z) (n : nat) (bits : Z) :
  Forall (fun v => 0 <= v < 2 ^ 64) src ->
  1 <= bits <= 60 ->
  Bitops.CanPack src (Z.of_nat n) bits = Simple8b.canPack src n bits
  /\ Bitops.CanPack src (Z.of_nat n) 0 = (n <=? length src)%nat.
Proof.
  intros Hsrc Hb. unfold Bitops.CanPack, Simple8b.canPack. split.
  - rewrite CanPack_max by lia.
    destruct (Z.ltb_spec (Z.of_nat (length src)) (Z.of_nat n)) as [Hlt|Hge];
      destruct (Nat.ltb_spec (length src) n) as [Hlt'|Hge'];
      try (exfalso; lia); try reflexivity.
    destruct (Z.eqb_spec bits 0) as [|_]; [lia|].
    rewrite Z.shiftl_1_l. f_equal.
    destruct (Z.ltb_spec (Z.of_nat n) (Z.of_nat (length src)));
      destruct (Nat.ltb_spec n (length src)); try (exfalso; lia);
      rewrite Nat2Z.id; reflexivity.
  - change (u64 (0 - 1)) with (2 ^ 64 - 1).
    change (u64 ((if 2 ^ 64 - 1 <? 64 then shl64 2 (2 ^ 64 - 1) else 0) - 1))
      with (2 ^ 64 - 1).
    destruct (Z.ltb_spec (Z.of_nat (length src)) (Z.of_nat n)) as [Hlt|Hge];
      destruct (Nat.leb_spec n (length src)) as [Hle|Hgt];
      try (exfalso; lia); try reflexivity.
    apply forallb_le_true. apply Forall_take.
    eapply Forall_impl; [exact Hsrc|]. intros v Hv. cbn beta in Hv. lia.
Qed.

Lemma CanPack_canPack_witness :
  Bitops.CanPack [3; 900; 7] (Z.of_nat 2) 10 = Simple8b.canPack [3; 900; 7] 2 10
  /\ Bitops.CanPack [3; 900; 7] (Z.of_nat 2) 0 = (2 <=? 3)%nat.
Proof.
  apply (CanPack_canPack [3; 900; 7] 2 10).
  - repeat constructor; lia.
  - lia.
Defined.


(** ** Reset and SetValues of the streaming Encoder *)

Lemma wf_gen_pending_length (e : Simple8b.Encoder) :
  wf_gen e -> length (pending e) = (Simple8b.t e - Simple8b.h e)%nat.
Proof.
  intros (Hht & _). unfold pending. rewrite length_take, length_drop. lia.
Qed.

Lemma wf_gen_pending_nil (e : Simple8b.Encoder) :
  wf_gen e -> (pending e = [] <-> Simple8b.t e = 0%nat).
Proof.
  intros Hwf. pose proof (wf_gen_pending_length e Hwf) as Hlen.
  destruct Hwf as (Hht & Hne & _).
  split.
  - intros H. rewrite H in Hlen. simpl in Hlen. lia.
  - intros H. apply length_zero_iff_nil. lia.
Qed.

Lemma wf_enc_gen (e : Simple8b.Encoder) : wf_enc e -> wf_gen e.
Proof.
  intros (Hbuf & Hht & Hne & Hk). unfold wf_gen.
  split; [lia|]. split; [exact Hne|]. right. exact Hk.
Qed.

(** [flush] with something pending, for a buffer of any length. *)
Lemma flush_gen (e : Simple8b.Encoder) :
  wf_gen e -> pending e <> [] ->
  match Simple8b.Encode (pending e) with
  | (w, n, None) =>
      exists e', Simple8b.flush e = Ret e'
        /\ wf_gen e'
        /\ pending e' = drop n (pending e)
        /\ written e' = written e ++ Binary.PutUint64 w
        /\ Simple8b.buf e' = Simple8b.buf e
        /\ (length (Simple8b.bytes e) <= length (Simple8b.bytes e'))%nat
        /\ length (Simple8b.b e') = 8%nat
  | (_, _, Some er) => Simple8b.flush e = Fail er
  end.
Proof.
  intros Hwf Hne.
  pose proof (wf_gen_pending_length e Hwf) as Hplen.
  assert (Simple8b.t e <> 0%nat) as Ht.
  { intros H. apply Hne. apply wf_gen_pending_nil; assumption. }
  destruct Hwf as (Hht & Hhlt & Hbytes).
  unfold Simple8b.flush.
  destruct (Nat.eqb_spec (Simple8b.t e) 0) as [|_]; [contradiction|].
  destruct (Nat.leb_spec (Simple8b.h e) (Simple8b.t e)) as [_|]; [|lia].
  destruct (Nat.leb_spec (Simple8b.t e) (length (Simple8b.buf e))) as [_|]; [|lia].
  cbn [andb negb]. fold (pending e).
  destruct (Simple8b.Encode (pending e)) as [[w n] [er|]] eqn:HE; [reflexivity|].
  pose proof (Encode_consumes _ _ _ Hne HE) as Hn.
  set (b' := Binary.PutUint64 w).
  set (bytes' := if (length (Simple8b.bytes e) <? Simple8b.bp e + 8)%nat
                 then Simple8b.bytes e ++ b'
                 else take (Simple8b.bp e) (Simple8b.bytes e) ++ b'
                      ++ drop (Simple8b.bp e + 8) (Simple8b.bytes e)).
  set (bp' := if (length (Simple8b.bytes e) <? Simple8b.bp e + 8)%nat
              then length (Simple8b.bytes e ++ b')
              else (Simple8b.bp e + 8)%nat).
  assert (written e ++ b' = take bp' bytes') as Hw.
  { unfold written, bp', bytes'.
    destruct (Nat.ltb_spec (length (Simple8b.bytes e)) (Simple8b.bp e + 8)).
    - rewrite firstn_all. rewrite take_ge; [reflexivity|].
      destruct Hbytes as [Hle|[k Hk]]; [exact Hle|].
      destruct k; lia.
    - rewrite app_assoc. rewrite take_app_length'; [reflexivity|].
      rewrite length_app, length_take. unfold b'. rewrite length_PutUint64. lia. }
  assert ((length bytes' <= bp')%nat
          \/ exists k', length bytes' = (bp' + 8 * k')%nat) as Hk.
  { unfold bp', bytes'.
    destruct (Nat.ltb_spec (length (Simple8b.bytes e)) (Simple8b.bp e + 8)).
    - left. lia.
    - destruct Hbytes as [Hle|[k Hk]]; [lia|].
      right. exists (k - 1)%nat.
      rewrite !length_app, length_take, length_drop. unfold b'.
      rewrite length_PutUint64. lia. }
  assert (length (Simple8b.bytes e) <= length bytes')%nat as Hgrow.
  { unfold bytes'.
    destruct (Nat.ltb_spec (length (Simple8b.bytes e)) (Simple8b.bp e + 8)).
    - rewrite length_app. lia.
    - rewrite !length_app, length_take, length_drop. unfold b'.
      rewrite length_PutUint64. lia. }
  destruct (Nat.eqb_spec (Simple8b.h e + n) (Simple8b.t e)) as [Heq|Hneq].
  - eexists. split; [reflexivity|].
    split; [repeat split; cbn; try lia; exact Hk|].
    split; [|split; [symmetry; exact Hw|split; [reflexivity|split;
      [exact Hgrow|reflexivity]]]].
    unfold pending at 1. cbn. symmetry. apply drop_ge. lia.
  - eexists. split; [reflexivity|].
    split; [repeat split; cbn; try lia; exact Hk|].
    split; [|split; [symmetry; exact Hw|split; [reflexivity|split;
      [exact Hgrow|reflexivity]]]].
    unfold pending. cbn.
    rewrite <- drop_drop, take_drop_commute. do 2 f_equal. lia.
Qed.

Lemma Bytes_loop_gen (fuel : nat) :
  forall e : Simple8b.Encoder,
    wf_gen e ->
    (r ← Simple8b.Bytes_loop fuel e; Ret r.2)
    = a_drain fuel (written e) (pending e).
Proof.
  induction fuel as [|fuel IH]; intros e Hwf.
  - cbn [Simple8b.Bytes_loop].
    destruct (Nat.eqb_spec (Simple8b.t e) 0) as [Ht|Ht].
    + apply (wf_gen_pending_nil e Hwf) in Ht. rewrite Ht. reflexivity.
    + destruct (pending e) eqn:Hp; [|reflexivity].
      apply (wf_gen_pending_nil e Hwf) in Hp. contradiction.
  - cbn [Simple8b.Bytes_loop].
    destruct (Nat.eqb_spec (Simple8b.t e) 0) as [Ht|Ht].
    + apply (wf_gen_pending_nil e Hwf) in Ht. rewrite Ht. reflexivity.
    + assert (pending e <> []) as Hne.
      { intros Hp. apply (wf_gen_pending_nil e Hwf) in Hp. contradiction. }
      pose proof (flush_gen e Hwf Hne) as Hf.
      destruct (pending e) as [|x rest] eqn:Hp; [contradiction|].
      cbn [a_drain].
      destruct (Simple8b.Encode (x :: rest)) as [[w n] [er|]].
      * rewrite Hf. reflexivity.
      * destruct Hf as (e1 & Hfl & Hwf1 & Hp1 & Hwr1 & _).
        rewrite Hfl, (IH e1 Hwf1), Hwr1, Hp1. reflexivity.
Qed.

Lemma valid_or_too_big (xs : list Z) :
  Forall (fun v => 0 <= v) xs -> valid xs \/ has_too_big xs.
Proof.
  induction 1 as [|x xs Hx _ IH]; [left; constructor|].
  destruct IH as [Hv|(y & Hy & Hbig)].
  - destruct (Z.le_gt_cases x Simple8b.MaxValue).
    + left. constructor; [lia|exact Hv].
    + right. exists x. split; [apply list_elem_of_here|lia].
  - right. exists y. split; [apply list_elem_of_further, Hy|exact Hbig].
Qed.

(** Draining pending values gives the bytes of their bulk encoding. *)
Lemma a_drain_bulk (pend out : list Z) (f1 f2 : nat) :
  Forall (fun v => 0 <= v) pend ->
  (length pend <= f1)%nat -> (length pend <= f2)%nat ->
  a_drain f1 out pend = (ws ← bulk f2 pend; Ret (out ++ words_bytes ws)).
Proof.
  intros Hpos H1 H2. destruct (valid_or_too_big pend Hpos) as [Hv|Hbig].
  - destruct (encodes_exists (length pend) pend (Nat.le_refl _) Hv) as [ws Hws].
    rewrite (a_drain_encodes pend ws Hws f1 out H1).
    rewrite (encodes_bulk pend ws Hws f2 H2). reflexivity.
  - rewrite (a_drain_too_big f1 out pend H1 Hbig).
    rewrite (bulk_too_big f2 pend H2 Hbig). reflexivity.
Qed.

(** *** Reset *)

Lemma NewEncoder_usable : usable Simple8b.NewEncoder.
Proof.
  split; [apply NewEncoder_wf|]. split; [cbn; lia|reflexivity].
Qed.

Lemma flush_usable (e e1 : Simple8b.Encoder) :
  usable e -> Simple8b.flush e = Ret e1 -> usable e1.
Proof.
  intros (Hwf & Hbytes & Hb) Hfl.
  destruct (Nat.eq_dec (Simple8b.t e) 0%nat) as [Ht|Ht].
  { rewrite flush_idle in Hfl by exact Ht. injection Hfl as <-.
    split; [exact Hwf|split; assumption]. }
  assert (pending e <> []) as Hne.
  { intros Hp. apply (wf_enc_pending_nil e Hwf) in Hp. contradiction. }
  pose proof (flush_spec e Hwf Hne) as Hs.
  pose proof (flush_gen e (wf_enc_gen e Hwf) Hne) as Hg.
  destruct (Simple8b.Encode (pending e)) as [[w n] [er|]];
    [rewrite Hs in Hfl; discriminate|].
  destruct Hs as (e' & Hfl' & Hwf' & _).
  destruct Hg as (e'' & Hfl'' & _ & _ & _ & _ & Hgrow & Hb').
  rewrite Hfl in Hfl', Hfl''. injection Hfl' as <-. injection Hfl'' as <-.
  split; [exact Hwf'|]. split; [lia|exact Hb'].
Qed.

Lemma Write_usable (e e' : Simple8b.Encoder) (v : Z) :
  usable e -> Simple8b.Write e v = Ret e' ->
  (128 <= length (Simple8b.bytes e'))%nat /\ length (Simple8b.b e') = 8%nat.
Proof.
  intros Hu. unfold Simple8b.Write.
  destruct (length (Simple8b.buf e) <=? Simple8b.t e)%nat.
  - destruct (Simple8b.flush e) as [e1| | |] eqn:Hfl; try discriminate.
    destruct (flush_usable e e1 Hu Hfl) as (_ & Hbytes & Hb).
    destruct (length (Simple8b.buf e1) <=? Simple8b.t e1)%nat.
    + destruct (length (Simple8b.buf (Simple8b.shift_down e1))
                <=? Simple8b.t (Simple8b.shift_down e1))%nat; [discriminate|].
      intros [= <-]. cbn. auto.
    + destruct (length (Simple8b.buf e1) <=? Simple8b.t e1)%nat; [discriminate|].
      intros [= <-]. cbn. auto.
  - destruct Hu as (_ & Hbytes & Hb).
    destruct (length (Simple8b.buf e) <=? Simple8b.t e)%nat.
    + destruct (length (Simple8b.buf (Simple8b.shift_down e))
                <=? Simple8b.t (Simple8b.shift_down e))%nat; [discriminate|].
      intros [= <-]. cbn. auto.
    + destruct (length (Simple8b.buf e) <=? Simple8b.t e)%nat; [discriminate|].
      intros [= <-]. cbn. auto.
Qed.

Lemma write_all_usable (vs : list Z) :
  forall e e' ok,
    wf_write e -> usable e ->
    Simple8b.write_all e vs = (Ret e', ok) -> wf_write e' /\ usable e'.
Proof.
  induction vs as [|v vs IH]; intros e e' ok Hw Hu Hall.
  - cbn in Hall. injection Hall as <- _. auto.
  - cbn [Simple8b.write_all] in Hall.
    pose proof (Write_sim e v Hw) as Hs.
    destruct (a_write (written e, pending e) v) as [[out' pend'] [|]].
    + destruct Hs as (e1 & HW & Hw1 & _). rewrite HW in Hall.
      destruct (Write_usable e e1 v Hu HW) as [Hbytes Hb].
      apply (IH e1 e' ok Hw1); [|exact Hall].
      split; [apply Hw1|]. auto.
    + rewrite Hs in Hall.
      destruct (Simple8b.write_all e vs) as [o ok'] eqn:Hrest.
      cbn [fst] in Hall. injection Hall as -> _.
      apply (IH e e' ok' Hw Hu). exact Hrest.
Qed.

Lemma Bytes_loop_usable (fuel : nat) :
  forall e e' bs,
    usable e -> Simple8b.Bytes_loop fuel e = Ret (e', bs) ->
    wf_write e' /\ usable e'.
Proof.
  induction fuel as [|fuel IH]; intros e e' bs Hu HB;
    cbn [Simple8b.Bytes_loop] in HB.
  - destruct (Nat.eqb_spec (Simple8b.t e) 0) as [Ht|Ht]; [|discriminate].
    injection HB as <- _. split; [|exact Hu].
    split; [apply Hu|]. destruct Hu as ((_ & Hht & _) & _). lia.
  - destruct (Nat.eqb_spec (Simple8b.t e) 0) as [Ht|Ht].
    + injection HB as <- _. split; [|exact Hu].
      split; [apply Hu|]. destruct Hu as ((_ & Hht & _) & _). lia.
    + destruct (Simple8b.flush e) as [e1| | |] eqn:Hfl; try discriminate.
      apply (IH e1 e' bs); [|exact HB].
      apply (flush_usable e e1 Hu Hfl).
Qed.

Lemma Encoder_Reset_spec (e : Simple8b.Encoder) :
  usable e ->
  exists e0, Simple8b.Encoder_Reset e = Ret e0
             /\ wf_write e0 /\ written e0 = [] /\ pending e0 = [].
Proof.
  intros ((Hbuf & _) & Hbytes & Hb). unfold Simple8b.Encoder_Reset.
  destruct (Nat.ltb_spec (length (Simple8b.buf e)) 240) as [|_]; [lia|].
  destruct (Nat.ltb_spec (length (Simple8b.b e)) 8) as [|_]; [lia|].
  destruct (Nat.ltb_spec (length (Simple8b.bytes e)) 128) as [|_]; [lia|].
  cbn [orb]. eexists. split; [reflexivity|].
  split; [|split; reflexivity].
  split; [|reflexivity]. unfold wf_enc. cbn.
  rewrite !length_take. repeat split; try lia.
  exists 16%nat. lia.
Qed.

Lemma write_then_bytes_abstract (e : Simple8b.Encoder) (ys : list Z) :
  wf_write e ->
  write_then_bytes e ys
  = ((a_write_all (written e, pending e) ys).2,
     a_drain 241 (a_write_all (written e, pending e) ys).1.1
                 (a_write_all (written e, pending e) ys).1.2).
Proof.
  intros Hw. unfold write_then_bytes.
  destruct (write_all_sim ys e Hw) as (e' & Hall & Hw' & Hst).
  rewrite Hall. cbn [fst snd mbind outcome_bind]. f_equal.
  rewrite (Bytes_sim e' (proj1 Hw')).
  rewrite <- Hst. reflexivity.
Qed.

(** X16 ([Encoder.Reset]): an encoder made by [NewEncoder] can be reset
    after any writes, and again after a successful [Bytes]; the writes that
    follow are accepted or refused, and [Bytes] then returns bytes or an
    error, exactly as on a new encoder. *)
Theorem Reset_as_new (xs ys : list Z) (e : Simple8b.Encoder) :
  (Simple8b.write_all Simple8b.NewEncoder xs).1 = Ret e ->
  (exists e0, Simple8b.Encoder_Reset e = Ret e0
              /\ write_then_bytes e0 ys
                 = write_then_bytes Simple8b.NewEncoder ys)
  /\ (forall e' bs,
         Simple8b.Bytes e = Ret (e', bs) ->
         exists e0, Simple8b.Encoder_Reset e' = Ret e0
                    /\ write_then_bytes e0 ys
                       = write_then_bytes Simple8b.NewEncoder ys).
Proof.
  intros Hall.
  destruct (Simple8b.write_all Simple8b.NewEncoder xs) as [o ok] eqn:Hw.
  cbn [fst] in Hall. subst o.
  destruct (write_all_usable xs _ e ok NewEncoder_wf NewEncoder_usable Hw)
    as [Hwf Hu].
  assert (forall e1, usable e1 ->
            exists e0, Simple8b.Encoder_Reset e1 = Ret e0
                       /\ write_then_bytes e0 ys
                          = write_then_bytes Simple8b.NewEncoder ys) as Hreset.
  { intros e1 Hu1.
    destruct (Encoder_Reset_spec e1 Hu1) as (e0 & HR & Hw0 & Hwr0 & Hp0).
    exists e0. split; [exact HR|].
    rewrite (write_then_bytes_abstract e0 ys Hw0).
    rewrite (write_then_bytes_abstract _ ys NewEncoder_wf).
    rewrite Hwr0, Hp0. reflexivity. }
  split; [apply Hreset, Hu|].
  intros e' bs HB. apply Hreset.
  apply (Bytes_loop_usable _ e e' bs Hu HB).
Qed.

Lemma Reset_as_new_witness :
  (exists e0,
      Simple8b.Encoder_Reset
        (Simple8b.mkEncoder (<[1%nat := 9]> (<[0%nat := 7]> (replicate 240 0)))
           0 2 0 (replicate 128 0) (replicate 8 0)) = Ret e0
      /\ write_then_bytes e0 [5; 6]
         = write_then_bytes Simple8b.NewEncoder [5; 6])
  /\ (forall e' bs,
         Simple8b.Bytes
           (Simple8b.mkEncoder (<[1%nat := 9]> (<[0%nat := 7]> (replicate 240 0)))
              0 2 0 (replicate 128 0) (replicate 8 0)) = Ret (e', bs) ->
         exists e0, Simple8b.Encoder_Reset e' = Ret e0
                    /\ write_then_bytes e0 [5; 6]
                       = write_then_bytes Simple8b.NewEncoder [5; 6]).
Proof.
  apply (Reset_as_new [7; 9] [5; 6]). reflexivity.
Defined.

(** *** SetValues *)

Lemma Bytes_loop_written (fuel : nat) :
  forall e e' bs,
    Simple8b.Bytes_loop fuel e = Ret (e', bs) -> bs = written e'.
Proof.
  induction fuel as [|fuel IH]; intros e e' bs HB;
    cbn [Simple8b.Bytes_loop] in HB.
  - destruct (Simple8b.t e =? 0)%nat; [|discriminate].
    injection HB as <- <-. reflexivity.
  - destruct (Simple8b.t e =? 0)%nat.
    + injection HB as <- <-. reflexivity.
    + destruct (Simple8b.flush e) as [e1| | |]; try discriminate.
      apply (IH e1 e' bs HB).
Qed.

Lemma SetValues_Bytes_usable (e : Simple8b.Encoder) (v : list Z) :
  usable e -> Forall (fun x => 0 <= x < 2 ^ 64) v ->
  (r ← Simple8b.Bytes_after_SetValues (Simple8b.SetValues e v); Ret r.2)
  = match v with
    | [] => Ret (written e)
    | _ :: _ => ws ← Simple8b.EncodeAll v; Ret (words_bytes ws)
    end.
Proof.
  intros ((_ & _ & _ & k & Hk) & _ & _) Hv.
  unfold Simple8b.Bytes_after_SetValues, Simple8b.SetValues.
  cbn [Simple8b.t Simple8b.bp].
  destruct v as [|x v'].
  - cbn [length Nat.eqb].
    destruct (Nat.leb_spec (Simple8b.bp e) (length (Simple8b.bytes e)));
      [reflexivity|lia].
  - cbn [length Nat.eqb].
    set (e0 := Simple8b.mkEncoder (x :: v') 0 (S (length v')) (Simple8b.bp e)
                 (take 0 (Simple8b.bytes e)) (Simple8b.b e)).
    assert (wf_gen e0) as Hwf.
    { unfold wf_gen, e0.
      cbn [Simple8b.h Simple8b.t Simple8b.buf Simple8b.bytes Simple8b.bp].
      rewrite take_0. cbn [length].
      split; [lia|]. split; [lia|]. left. lia. }
    unfold Simple8b.Bytes. rewrite (Bytes_loop_gen _ _ Hwf).
    assert (pending e0 = x :: v') as ->.
    { unfold pending, e0.
      cbn [Simple8b.h Simple8b.t Simple8b.buf].
      rewrite Nat.sub_0_r, drop_0. apply (firstn_all (x :: v')). }
    assert (written e0 = []) as ->.
    { unfold written, e0. cbn [Simple8b.bp Simple8b.bytes].
      rewrite take_0. apply take_nil. }
    rewrite EncodeAll_bulk.
    apply (a_drain_bulk (x :: v') [] _ (length (x :: v'))).
    + eapply Forall_impl; [exact Hv|]. intros y Hy. cbn beta in Hy. lia.
    + unfold e0. cbn [Simple8b.buf]. lia.
    + lia.
Qed.

(** X15 ([Encoder.SetValues], then [Bytes]): on an encoder made by
    [NewEncoder], after any writes and again after a successful [Bytes],
    [SetValues(v)] followed by [Bytes] returns, for a non-empty [v] of
    [uint64]s, the bytes of the words of [EncodeAll(v)] or the error of
    [EncodeAll(v)].  For an empty [v] it returns the bytes the encoder had
    written before, after a [Bytes] the bytes that [Bytes] returned:
    [SetValues] does not reset [bp]. *)
Theorem SetValues_Bytes (xs v : list Z) (e : Simple8b.Encoder) :
  (Simple8b.write_all Simple8b.NewEncoder xs).1 = Ret e ->
  Forall (fun x => 0 <= x < 2 ^ 64) v ->
  (r ← Simple8b.Bytes_after_SetValues (Simple8b.SetValues e v); Ret r.2)
  = match v with
    | [] => Ret (written e)
    | _ :: _ => ws ← Simple8b.EncodeAll v; Ret (words_bytes ws)
    end
  /\ (forall e' bs,
         Simple8b.Bytes e = Ret (e', bs) ->
         (r ← Simple8b.Bytes_after_SetValues (Simple8b.SetValues e' v); Ret r.2)
         = match v with
           | [] => Ret bs
           | _ :: _ => ws ← Simple8b.EncodeAll v; Ret (words_bytes ws)
           end).
Proof.
  intros Hall Hv.
  destruct (Simple8b.write_all Simple8b.NewEncoder xs) as [o ok] eqn:Hw.
  cbn [fst] in Hall. subst o.
  destruct (write_all_usable xs _ e ok NewEncoder_wf NewEncoder_usable Hw)
    as [Hwf Hu].
  split; [apply SetValues_Bytes_usable; assumption|].
  intros e' bs HB.
  destruct (Bytes_loop_usable _ e e' bs Hu HB) as [_ Hu'].
  rewrite (SetValues_Bytes_usable e' v Hu' Hv).
  rewrite (Bytes_loop_written _ e e' bs HB). reflexivity.
Qed.

Lemma SetValues_Bytes_witness :
  (r ← Simple8b.Bytes_after_SetValues
         (Simple8b.SetValues
            (Simple8b.mkEncoder (<[0%nat := 5]> (replicate 240 0))
               0 1 0 (replicate 128 0) (replicate 8 0)) []);
   Ret r.2)
  = Ret (written
           (Simple8b.mkEncoder (<[0%nat := 5]> (replicate 240 0))
              0 1 0 (replicate 128 0) (replicate 8 0)))
  /\ (forall e' bs,
         Simple8b.Bytes
           (Simple8b.mkEncoder (<[0%nat := 5]> (replicate 240 0))
              0 1 0 (replicate 128 0) (replicate 8 0)) = Ret (e', bs) ->
         (r ← Simple8b.Bytes_after_SetValues (Simple8b.SetValues e' []);
          Ret r.2)
         = Ret bs).
Proof.
  apply (SetValues_Bytes [5] []); [reflexivity|constructor].
Defined.


(** ** Decoding any word *)

Lemma unpack_stored (v : Z) (mem : list Z) (off : nat) :
  0 <= Z.shiftr v 60 < 16 ->
  Simple8b.unpack (Simple8b.selector_at (Z.shiftr v 60)) v mem off
  = Simple8b.store_block mem off (stored v).
Proof.
  intros Hs. unfold stored.
  assert (exists k : nat, (k < 16)%nat /\ Z.shiftr v 60 = Z.of_nat k)
    as (k & Hk & ->) by (exists (Z.to_nat (Z.shiftr v 60)); lia).
  do 16 (destruct k as [|k]; [reflexivity|]). lia.
Qed.

Lemma length_unpack_fields (bits : Z) (n : nat) (v : Z) :
  length (Simple8b.unpack_fields bits n v) = n.
Proof. unfold Simple8b.unpack_fields. rewrite length_map, length_seq. reflexivity. Qed.

Lemma length_stored (v : Z) :
  0 <= Z.shiftr v 60 < 16 ->
  (word_count v <= length (stored v) <= 240)%nat
  /\ (2 <= Z.shiftr v 60 -> length (stored v) = word_count v).
Proof.
  intros Hs. pose proof (selector_n_range _ Hs) as Hn.
  unfold stored, word_count in *.
  destruct (Z.ltb_spec (Z.shiftr v 60) 2).
  - rewrite length_replicate. split; lia.
  - rewrite length_unpack_fields. split; lia.
Qed.

Lemma selector_bit_range (sel : Z) :
  0 <= sel < 16 -> 0 <= Simple8b.bit (Simple8b.selector_at sel) <= 60.
Proof.
  intros Hs.
  assert (exists k : nat, (k < 16)%nat /\ sel = Z.of_nat k)
    as (k & Hk & ->) by (exists (Z.to_nat sel); lia).
  do 16 (destruct k as [|k]; [vm_compute; split; discriminate|]). lia.
Qed.

Lemma stored_range (v : Z) :
  0 <= Z.shiftr v 60 < 16 ->
  Forall (fun x => 0 <= x <= Simple8b.MaxValue) (stored v).
Proof.
  intros Hs. unfold stored. rewrite MaxValue_eq.
  destruct (Z.ltb_spec (Z.shiftr v 60) 2).
  - apply Forall_replicate. lia.
  - pose proof (selector_bit_range _ Hs) as Hb.
    unfold Simple8b.unpack_fields. apply Forall_map, Forall_forall.
    intros i _. cbn beta.
    rewrite mask_ones by lia. rewrite Z.land_ones by lia.
    pose proof (Z.mod_pos_bound
                  (Z.shiftr v (Z.of_nat i * Simple8b.bit
                                 (Simple8b.selector_at (Z.shiftr v 60))))
                  (2 ^ Simple8b.bit (Simple8b.selector_at (Z.shiftr v 60)))
                  ltac:(apply Z.pow_pos_nonneg; lia)) as Hm.
    assert (2 ^ Simple8b.bit (Simple8b.selector_at (Z.shiftr v 60)) <= 2 ^ 60)
      by (apply Z.pow_le_mono_r; lia).
    lia.
Qed.

(** X17 ([simple8b.Decode], [Count]): for every [uint64] word, [Decode]
    returns normally, never the invalid-selector error: the count is the
    one [Count] gives, between 1 and 240; the values decoded are at most
    [MaxValue]; and for a selector of 2 or more the slots after the count
    are left as they were. *)
Theorem Decode_any_word (v : Z) (dst : list Z) :
  0 <= v < 2 ^ 64 -> length dst = 240%nat ->
  exists dst' k,
    Simple8b.Decode dst v = Ret (dst', k)
    /\ Simple8b.Count v = Ret k
    /\ (1 <= k <= 240)%nat
    /\ length dst' = 240%nat
    /\ Forall (fun x => 0 <= x <= Simple8b.MaxValue) (take k dst')
    /\ (2 <= Z.shiftr v 60 -> drop k dst' = drop k dst).
Proof.
  intros Hv Hdst. pose proof (shiftr60_u64 v Hv) as Hs.
  pose proof (selector_n_range _ Hs) as Hn.
  destruct (length_stored v Hs) as [Hlen Hexact].
  unfold Simple8b.Decode.
  destruct (Z.leb_spec 16 (Z.shiftr v 60)); [lia|].
  rewrite unpack_stored by exact Hs.
  unfold Simple8b.store_block.
  destruct (Nat.leb_spec (0 + length (stored v)) (length dst)); [|lia].
  cbn [take app Nat.add].
  exists (stored v ++ drop (length (stored v)) dst),
         (Simple8b.n (Simple8b.selector_at (Z.shiftr v 60))).
  fold (word_count v) in *.
  split; [reflexivity|]. split; [apply Count_spec; lia|].
  split; [exact Hn|]. split.
  { rewrite length_app, length_drop. lia. }
  split.
  - rewrite take_app_le by lia. apply Forall_take, stored_range, Hs.
  - intros H2. rewrite <- (Hexact H2). rewrite drop_app_length. reflexivity.
Qed.

Lemma Decode_any_word_witness :
  exists dst' k,
    Simple8b.Decode (replicate 240 9) (2 ^ 64 - 1) = Ret (dst', k)
    /\ Simple8b.Count (2 ^ 64 - 1) = Ret k
    /\ (1 <= k <= 240)%nat
    /\ length dst' = 240%nat
    /\ Forall (fun x => 0 <= x <= Simple8b.MaxValue) (take k dst')
    /\ (2 <= Z.shiftr (2 ^ 64 - 1) 60 -> drop k dst' = drop k (replicate 240 9)).
Proof.
  apply (Decode_any_word (2 ^ 64 - 1) (replicate 240 9)); [lia|reflexivity].
Defined.

(** ** Any words: DecodeAll, CountBytes and the streaming Decoder *)

Lemma length_words_values (ws : list Z) :
  Forall (fun w => 0 <= w < 2 ^ 64) ws ->
  length (words_values ws) = total_count ws.
Proof.
  induction 1 as [|w ws Hw _ IH]; [reflexivity|].
  unfold words_values, total_count in *. cbn [map concat sum_list_with].
  rewrite length_app, IH, length_take.
  destruct (length_stored w (shiftr60_u64 w Hw)) as [Hl _]. lia.
Qed.

Lemma words_values_valid (ws : list Z) :
  Forall (fun w => 0 <= w < 2 ^ 64) ws -> valid (words_values ws).
Proof.
  induction 1 as [|w ws Hw _ IH]; [constructor|].
  unfold words_values in *. cbn [map concat]. apply Forall_app. split; [|exact IH].
  apply Forall_take, stored_range, shiftr60_u64, Hw.
Qed.

Lemma DecodeAll_loop_any (ws : list Z) :
  Forall (fun w => 0 <= w < 2 ^ 64) ws ->
  forall (mem : list Z) (len j : nat),
    (j + total_count ws <= len)%nat ->
    (j + total_count ws + 239 <= length mem)%nat ->
    exists mem',
      Simple8b.DecodeAll_loop mem len ws j = Ret ((j + total_count ws)%nat, mem')
      /\ length mem' = length mem
      /\ take j mem' = take j mem
      /\ take (total_count ws) (drop j mem') = words_values ws.
Proof.
  induction 1 as [|w ws Hw Hws IH]; intros mem len j Hlen Hmem.
  - exists mem. cbn. rewrite Nat.add_0_r, take_0. auto.
  - pose proof (shiftr60_u64 w Hw) as Hs.
    pose proof (selector_n_range _ Hs) as Hn.
    destruct (length_stored w Hs) as [Hl _].
    unfold total_count in *. cbn [sum_list_with] in *.
    fold (total_count ws) in *. unfold word_count in Hlen, Hmem, Hl |- *.
    cbn [Simple8b.DecodeAll_loop].
    destruct (Z.leb_spec 16 (Z.shiftr w 60)); [lia|].
    destruct (Nat.leb_spec len j); [lia|].
    rewrite unpack_stored by exact Hs.
    destruct (store_block_Some mem j (stored w) ltac:(lia))
      as (mem1 & -> & Hl1 & Hpre1 & Hval1).
    destruct (IH mem1 len (j + Simple8b.n (Simple8b.selector_at (Z.shiftr w 60)))%nat
                ltac:(lia) ltac:(lia))
      as (mem2 & -> & Hl2 & Hpre2 & Hval2).
    exists mem2. split; [f_equal; f_equal; lia|].
    split; [lia|]. split.
    + rewrite <- Hpre1.
      apply (take_le_eq _ _ j (j + Simple8b.n (Simple8b.selector_at (Z.shiftr w 60)))%nat
               ltac:(lia) Hpre2).
    + unfold words_values. cbn [map concat]. fold (words_values ws).
      unfold word_count.
      set (n0 := Simple8b.n (Simple8b.selector_at (Z.shiftr w 60))) in *.
      rewrite <- Hval2.
      rewrite <- (take_drop n0 (drop j mem2)) at 1.
      rewrite take_app_add'
        by (rewrite length_take, !length_drop; lia).
      rewrite drop_drop. f_equal.
      assert (take n0 (drop j mem2) = take n0 (drop j mem1)) as ->.
      { rewrite !(take_drop_commute _ n0 j). f_equal. exact Hpre2. }
      rewrite <- Hval1, take_take. f_equal. lia.
Qed.

Lemma drain_words (ws : list Z) :
  Forall (fun w => 0 <= w < 2 ^ 64) ws ->
  forall (d : Simple8b.Decoder) (acc extra : list Z) (fuel : nat),
    Simple8b.d_bytes d = words_bytes ws ++ extra -> (length extra < 8)%nat ->
    (Simple8b.d_n d <= S (Simple8b.d_i d))%nat ->
    length (Simple8b.d_buf d) = 240%nat ->
    Timestamp.drain (total_count ws + S fuel) d acc
    = Ret (acc ++ words_values ws).
Proof.
  induction 1 as [|w ws Hw Hws IH]; intros d acc extra fuel Hbytes Hextra Hex Hbuf.
  - cbn [total_count sum_list_with Nat.add]. unfold words_values. cbn [map concat].
    rewrite app_nil_r.
    apply drain_end; [exact Hex|]. rewrite Hbytes. cbn. exact Hextra.
  - pose proof (shiftr60_u64 w Hw) as Hs.
    pose proof (selector_n_range _ Hs) as Hn.
    destruct (length_stored w Hs) as [Hl _].
    rewrite words_bytes_cons, <- app_assoc in Hbytes.
    unfold total_count. cbn [sum_list_with]. fold (total_count ws).
    unfold word_count in *.
    set (n0 := Simple8b.n (Simple8b.selector_at (Z.shiftr w 60))) in *.
    replace (n0 + total_count ws + S fuel)%nat
      with (S ((n0 - 1) + (total_count ws + S fuel)))%nat by lia.
    destruct (drain_word d w (words_bytes ws ++ extra) (stored w) acc
                ((n0 - 1) + (total_count ws + S fuel)) Hex Hbuf Hbytes Hw
                ltac:(lia) (fun mem off => unpack_stored w mem off Hs)
                ltac:(fold n0; lia) ltac:(lia))
      as (buf' & Hl' & Htk & ->).
    fold n0.
    rewrite drain_buffer
      by (cbn [Simple8b.d_i Simple8b.d_n Simple8b.d_buf]; lia).
    cbn [Simple8b.d_i Simple8b.d_n Simple8b.d_buf Simple8b.d_bytes].
    rewrite (IH _ _ extra fuel);
      cbn [Simple8b.d_i Simple8b.d_n Simple8b.d_buf Simple8b.d_bytes];
      [|reflexivity|exact Hextra|lia|exact Hl'].
    f_equal. unfold words_values. cbn [map concat]. fold (words_values ws).
    unfold word_count. fold n0.
    rewrite <- !app_assoc. f_equal. rewrite app_assoc. f_equal.
    assert (valid (take n0 (stored w))) as Hv
      by (apply Forall_take, stored_range, Hs).
    rewrite <- (map_i64_valid (take n0 (stored w)) Hv).
    change [i64 (nth 0 (stored w) 0)] with (map i64 [nth 0 (stored w) 0]).
    rewrite <- map_app. f_equal.
    assert (take n0 (stored w) = take n0 buf') as ->.
    { rewrite <- Htk, take_take. f_equal. lia. }
    destruct buf' as [|x buf'']; [cbn in Hl'; lia|].
    destruct n0 as [|m]; [lia|].
    replace (nth 0 (stored w) 0) with x.
    2:{ rewrite <- Htk. destruct (stored w); [cbn in Hl; lia|]. reflexivity. }
    cbn [take drop app]. replace (S m - 1)%nat with m by lia. reflexivity.
Qed.

Lemma CountBytes_loop_words (ws : list Z) :
  Forall (fun w => 0 <= w < 2 ^ 64) ws ->
  forall fuel c, (length ws <= fuel)%nat ->
    Simple8b.CountBytes_loop fuel (words_bytes ws) c
    = Simple8b.Counted (c + total_count ws).
Proof.
  induction 1 as [|w ws Hw _ IH]; intros fuel c Hfuel.
  - destruct fuel; cbn; f_equal; lia.
  - destruct fuel as [|fuel]; [cbn in Hfuel; lia|].
    pose proof (shiftr60_u64 w Hw) as Hs.
    rewrite words_bytes_cons. cbn [Simple8b.CountBytes_loop].
    rewrite length_app, length_PutUint64.
    destruct (Nat.leb_spec 8 (8 + length (words_bytes ws))); [|lia].
    rewrite take_app_length' by (rewrite length_PutUint64; reflexivity).
    rewrite drop_app_length' by (rewrite length_PutUint64; reflexivity).
    rewrite Uint64_PutUint64 by exact Hw.
    rewrite Count_spec by lia.
    rewrite IH by (cbn [length] in Hfuel; lia).
    unfold total_count. cbn [sum_list_with]. unfold word_count. f_equal. lia.
Qed.

(** X18 ([simple8b.DecodeAll], [CountBytes] and the streaming [Decoder] on
    any words): for every slice of [uint64] words, the count that
    [CountBytes] returns for their bytes is the count that [DecodeAll]
    returns, given a destination of that length with 239 more slots of
    memory behind it; no error is returned; and the values [DecodeAll]
    writes are the values that [for dec.Next() { dec.Read() }] reads. *)
Theorem DecodeAll_any_words (ws mem : list Z) (len : nat) :
  Forall (fun w => 0 <= w < 2 ^ 64) ws ->
  (total_count ws <= len)%nat ->
  (total_count ws + 239 <= length mem)%nat ->
  exists mem',
    Simple8b.DecodeAll mem len ws = Ret (total_count ws, mem')
    /\ length mem' = length mem
    /\ Simple8b.CountBytes (words_bytes ws) = Simple8b.Counted (total_count ws)
    /\ Timestamp.drain (31 * length (words_bytes ws) + 1)
                       (Simple8b.NewDecoder (words_bytes ws)) []
       = Ret (take (total_count ws) mem')
    /\ Forall (fun x => 0 <= x <= Simple8b.MaxValue) (take (total_count ws) mem').
Proof.
  intros Hws Hlen Hmem.
  destruct (DecodeAll_loop_any ws Hws mem len 0 ltac:(lia) ltac:(lia))
    as (mem' & HD & Hl & _ & Hval).
  rewrite drop_0 in Hval.
  exists mem'. split; [exact HD|]. split; [exact Hl|]. split.
  { unfold Simple8b.CountBytes. rewrite length_words_bytes.
    rewrite (CountBytes_loop_words ws Hws) by lia. reflexivity. }
  rewrite Hval. split; [|apply words_values_valid, Hws].
  assert (total_count ws <= 240 * length ws)%nat as Hbound.
  { clear -Hws. induction Hws as [|w ws Hw _ IH]; [cbn; lia|].
    unfold total_count in *. cbn [sum_list_with length].
    pose proof (selector_n_range _ (shiftr60_u64 w Hw)).
    unfold word_count at 1. lia. }
  rewrite length_words_bytes.
  replace (31 * (8 * length ws) + 1)%nat
    with (total_count ws + S (31 * (8 * length ws) - total_count ws))%nat by lia.
  apply (drain_words ws Hws _ [] []).
  - cbn. rewrite app_nil_r. reflexivity.
  - cbn. lia.
  - cbn. lia.
  - reflexivity.
Qed.

Lemma DecodeAll_any_words_witness :
  exists mem',
    Simple8b.DecodeAll (replicate 243 0) 4 [2 ^ 64 - 1; 13 * 2 ^ 60 + 5]
    = Ret (total_count [2 ^ 64 - 1; 13 * 2 ^ 60 + 5], mem')
    /\ length mem' = length (replicate 243 0)
    /\ Simple8b.CountBytes (words_bytes [2 ^ 64 - 1; 13 * 2 ^ 60 + 5])
       = Simple8b.Counted (total_count [2 ^ 64 - 1; 13 * 2 ^ 60 + 5])
    /\ Timestamp.drain
         (31 * length (words_bytes [2 ^ 64 - 1; 13 * 2 ^ 60 + 5]) + 1)
         (Simple8b.NewDecoder (words_bytes [2 ^ 64 - 1; 13 * 2 ^ 60 + 5])) []
       = Ret (take (total_count [2 ^ 64 - 1; 13 * 2 ^ 60 + 5]) mem')
    /\ Forall (fun x => 0 <= x <= Simple8b.MaxValue)
              (take (total_count [2 ^ 64 - 1; 13 * 2 ^ 60 + 5]) mem').
Proof.
  apply (DecodeAll_any_words [2 ^ 64 - 1; 13 * 2 ^ 60 + 5] (replicate 243 0) 4).
  - repeat constructor; lia.
  - vm_compute. lia.
  - vm_compute. lia.
Defined.


(** ** Reset and SetBytes of the streaming Decoder *)

Lemma Next_same_reads (d1 d2 : Simple8b.Decoder) :
  same_reads d1 d2 ->
  exists d1' d2' more,
    Simple8b.Next d1 = Ret (d1', more)
    /\ Simple8b.Next d2 = Ret (d2', more)
    /\ same_reads d1' d2'
    /\ (more = true -> (Simple8b.d_i d1' < Simple8b.d_n d1')%nat).
Proof.
  destruct d1 as [bs1 buf1 i1 n1], d2 as [bs2 buf2 i2 n2].
  unfold same_reads.
  cbn [Simple8b.d_i Simple8b.d_n Simple8b.d_buf Simple8b.d_bytes].
  intros (<- & <- & <- & Hl1 & Hl2 & Hn & Htake & Hbytes).
  unfold Simple8b.Next.
  cbn [Simple8b.d_i Simple8b.d_n Simple8b.d_buf Simple8b.d_bytes].
  destruct (Nat.leb_spec n1 (i1 + 1)) as [Hex|Hin].
  - unfold Simple8b.read.
    cbn [Simple8b.d_i Simple8b.d_n Simple8b.d_buf Simple8b.d_bytes].
    destruct (Nat.ltb_spec (length bs1) 8) as [Hshort|Hlong].
    + do 3 eexists. split; [reflexivity|]. split; [reflexivity|].
      cbn [Simple8b.d_i Simple8b.d_n Simple8b.d_buf Simple8b.d_bytes].
      split; [repeat split; assumption|].
      destruct (Nat.leb_spec 8 (length bs1)); [lia|].
      destruct (Nat.ltb_spec (i1 + 1) n1); [lia|].
      cbn. discriminate.
    + pose proof (Uint64_range (take 8 bs1)
                    (nth_byte _ 7 (Forall_take _ 8%nat _ Hbytes))) as Hw.
      set (w := Binary.Uint64 (take 8 bs1)) in *.
      pose proof (shiftr60_u64 w Hw) as Hs.
      pose proof (selector_n_range _ Hs) as Hcnt.
      destruct (length_stored w Hs) as [Hls _].
      unfold word_count in Hls.
      unfold Simple8b.Decode.
      destruct (Z.leb_spec 16 (Z.shiftr w 60)); [lia|].
      rewrite !unpack_stored by exact Hs.
      destruct (store_block_Some buf1 0 (stored w) ltac:(lia))
        as (b1 & -> & Hlb1 & _ & Hv1).
      destruct (store_block_Some buf2 0 (stored w) ltac:(lia))
        as (b2 & -> & Hlb2 & _ & Hv2).
      rewrite drop_0 in Hv1, Hv2.
      do 3 eexists. split; [reflexivity|]. split; [reflexivity|].
      cbn [Simple8b.d_i Simple8b.d_n Simple8b.d_buf Simple8b.d_bytes].
      split.
      * repeat split; try lia; [|apply Forall_drop, Hbytes].
        apply (take_le_eq _ _ _ (length (stored w))); [lia|].
        rewrite Hv1, Hv2. reflexivity.
      * intros _. lia.
  - do 3 eexists. split; [reflexivity|]. split; [reflexivity|].
    cbn [Simple8b.d_i Simple8b.d_n Simple8b.d_buf Simple8b.d_bytes].
    split; [repeat split; assumption|]. intros _. lia.
Qed.

Lemma drain_same_reads (fuel : nat) :
  forall (d1 d2 : Simple8b.Decoder) (acc : list Z),
    same_reads d1 d2 -> Timestamp.drain fuel d1 acc = Timestamp.drain fuel d2 acc.
Proof.
  induction fuel as [|fuel IH]; intros d1 d2 acc HR; [reflexivity|].
  cbn [Timestamp.drain].
  destruct (Next_same_reads d1 d2 HR) as (d1' & d2' & more & -> & -> & HR' & Hpos).
  cbn [mbind outcome_bind]. destruct more; [|reflexivity].
  specialize (Hpos eq_refl).
  destruct HR' as (Hb & Hi & Hn & Hl1 & Hl2 & Hn240 & Htake & Hbytes).
  unfold Simple8b.Read. rewrite <- Hi.
  destruct (Nat.ltb_spec (Simple8b.d_i d1') 240); [|lia].
  cbn [mbind outcome_bind].
  assert (nth (Simple8b.d_i d1') (Simple8b.d_buf d1') 0
          = nth (Simple8b.d_i d1') (Simple8b.d_buf d2') 0) as ->.
  { rewrite <- (take_drop (Simple8b.d_n d1') (Simple8b.d_buf d1')).
    rewrite <- (take_drop (Simple8b.d_n d1') (Simple8b.d_buf d2')).
    rewrite !app_nth1 by (rewrite length_take; lia).
    rewrite Htake. reflexivity. }
  apply IH. repeat split; assumption.
Qed.

(** X19 ([Decoder.Reset], [Decoder.SetBytes]): a decoder that has been
    used, given new bytes by [Reset] or [SetBytes], reads in the loop
    [for dec.Next() { dec.Read() }] exactly what a new decoder over those
    bytes reads; what is left in its buffer is never read. *)
Theorem Decoder_Reset_as_new (d : Simple8b.Decoder) (bs acc : list Z) (fuel : nat) :
  length (Simple8b.d_buf d) = 240%nat ->
  Forall (fun x => 0 <= x < 256) bs ->
  Timestamp.drain fuel (Simple8b.Decoder_Reset d bs) acc
  = Timestamp.drain fuel (Simple8b.NewDecoder bs) acc
  /\ Timestamp.drain fuel (Simple8b.SetBytes d bs) acc
     = Timestamp.drain fuel (Simple8b.NewDecoder bs) acc.
Proof.
  intros Hbuf Hbs.
  assert (same_reads (Simple8b.mkDecoder bs (Simple8b.d_buf d) 0 0)
                     (Simple8b.NewDecoder bs)) as HR.
  { unfold same_reads, Simple8b.NewDecoder.
    cbn [Simple8b.d_i Simple8b.d_n Simple8b.d_buf Simple8b.d_bytes].
    rewrite length_replicate, !take_0.
    repeat split; try lia; assumption. }
  split; apply drain_same_reads; exact HR.
Qed.

Lemma Decoder_Reset_as_new_witness :
  Timestamp.drain 20
    (Simple8b.Decoder_Reset (Simple8b.mkDecoder [1; 2] (replicate 240 77) 3 5)
                            [240; 0; 0; 0; 0; 0; 0; 9; 1])
    [4]
  = Timestamp.drain 20
      (Simple8b.NewDecoder [240; 0; 0; 0; 0; 0; 0; 9; 1]) [4]
  /\ Timestamp.drain 20
       (Simple8b.SetBytes (Simple8b.mkDecoder [1; 2] (replicate 240 77) 3 5)
                          [240; 0; 0; 0; 0; 0; 0; 9; 1])
       [4]
     = Timestamp.drain 20
         (Simple8b.NewDecoder [240; 0; 0; 0; 0; 0; 0; 9; 1]) [4].
Proof.
  apply (Decoder_Reset_as_new
           (Simple8b.mkDecoder [1; 2] (replicate 240 77) 3 5)
           [240; 0; 0; 0; 0; 0; 0; 9; 1] [4] 20).
  - reflexivity.
  - repeat constructor; lia.
Defined.

